(** * MusicParty room and session manager

    A shallow embedding of [server/src/GameManager.ts] and of the part of
    [server/src/data/songs.ts] it calls, followed by the properties of the
    room state machine, of the buzz race and of scoring.

    Conventions of the embedding.
    - A JavaScript [Map] that is iterated (a room's [players]) is an
      insertion-ordered association list, see [JsMap]; the two registries
      of the manager, which are only looked up, are [gmap]s.
    - [GamePlayer] objects are shared between a room's [players] map and
      the manager's [players] index, and [updateScore] mutates them in
      place; they live in an object store ([heap]) and both maps hold
      references into it.
    - A method that throws keeps the mutations it made before throwing:
      every operation returns its outcome together with the next state.
    - [Date.now()] and [Math.random()] are inputs of the operations.
    - A score is a JavaScript number, see [number]: [NaN], the two
      infinities, or a finite double carried as the rational it denotes;
      a sum is the exact sum rounded to the nearest double, ties to even,
      and comparisons with [NaN] are false. Counters are [nat],
      timestamps are [Z]. *)

From Stdlib Require Import ZArith NArith QArith Qcanon String Ascii.
From stdpp Require Import base numbers strings list gmap.

Open Scope string_scope.
Open Scope nat_scope.
Open Scope list_scope.

(** ** Insertion-ordered maps with string keys (JavaScript [Map]) *)

Module JsMap.
Section ops.
Context {V : Type}.

Definition t := list (string * V).

Fixpoint get (k : string) (m : t) : option V :=
  match m with
  | [] => None
  | (k', v) :: m' => if decide (k = k') then Some v else get k m'
  end.

Definition has (k : string) (m : t) : bool :=
  match get k m with Some _ => true | None => false end.

(** [set] keeps the position of a key that is present and appends a
    new key at the end. *)
Fixpoint set (k : string) (v : V) (m : t) : t :=
  match m with
  | [] => [(k, v)]
  | (k', v') :: m' =>
      if decide (k = k') then (k, v) :: m' else (k', v') :: set k v m'
  end.

Fixpoint delete (k : string) (m : t) : t :=
  match m with
  | [] => []
  | (k', v') :: m' =>
      if decide (k = k') then delete k m' else (k', v') :: delete k m'
  end.

Definition keys (m : t) : list string := m.*1.
Definition values (m : t) : list V := m.*2.
Definition size (m : t) : nat := length m.
End ops.
Arguments t : clear implicits.
End JsMap.

(** ** songs.ts *)

Inductive SongType := intro | reverse | emoji.
Inductive Difficulty := easy | medium | hard.

Record Song := {
  song_id : string;
  song_type : SongType;
  title : string;
  artist : string;
  audioUrl : option string;
  emojis : option (list string);
  difficulty : Difficulty;
  year : option nat;
  genre : option string;
  lyrics : option string
}.

Definition SONGS : list Song := [
  {| song_id := "song-001"; song_type := intro;
     title := "Bohemian Rhapsody"; artist := "Queen";
     audioUrl := Some "https://example.com/audio/bohemian-rhapsody-intro.mp3";
     emojis := Some ["👑"; "🎸"; "🎹"; "🎤"];
     difficulty := medium; year := Some 1975; genre := Some "Rock";
     lyrics := None |};
  {| song_id := "song-002"; song_type := reverse;
     title := "Stairway to Heaven"; artist := "Led Zeppelin";
     audioUrl := Some "https://example.com/audio/stairway-to-heaven-reverse.mp3";
     emojis := Some ["🎸"; "🔥"; "⭐"; "🌌"];
     difficulty := hard; year := Some 1971; genre := Some "Rock";
     lyrics := None |};
  {| song_id := "song-003"; song_type := emoji;
     title := "Shape of You"; artist := "Ed Sheeran";
     audioUrl := None;
     emojis := Some ["💃"; "🕺"; "🎵"; "❤️"; "🌍"];
     difficulty := easy; year := Some 2017; genre := Some "Pop";
     lyrics := None |};
  {| song_id := "song-004"; song_type := intro;
     title := "Don't Stop Believin'"; artist := "Journey";
     audioUrl := Some "https://example.com/audio/dont-stop-believin.mp3";
     emojis := Some ["🎸"; "🎤"; "⭐"; "🌟"];
     difficulty := medium; year := Some 1981; genre := Some "Rock";
     lyrics := Some "Just a small town girl
Living in a lonely world
She took the midnight train going anywhere

Just a city boy
Born and raised in South Detroit
He took the midnight train going anywhere

A singer in a smoky room
A smell of wine and cheap perfume
For a smile they can share the night
It goes on and on and on and on

Don't stop believin'
Hold on to that feelin'
Streetlight people

Don't stop believin'
Hold on
Streetlight people" |}
].

(** ** JavaScript numbers

    A [number] is an IEEE 754 binary64 value. A finite double is carried
    as the rational it denotes, in canonical form. The two zeros are not
    told apart: [Math.max(0, x)] is never [-0], and no sum or comparison
    of the manager tells them apart. [Finite q] for a [q] that is not a
    double stands for no value of the program; the operations below
    return doubles, and what is stated for every [number] holds of the
    doubles among them. A field that is missing from a payload reads
    [undefined], which [+], [<] and [>] convert to [NaN]: a missing
    amount is [NaN] here. *)

Inductive number :=
  | NaN
  | NegInfinity
  | Finite (q : Qc)
  | Infinity.

(** The integer nearest to [a / b], for [0 ≤ a] and [0 < b]; a tie goes to
    the even one. *)
Definition nearest_even (a b : Z) : Z :=
  match (2 * (a mod b) ?= b)%Z with
  | Lt => a / b
  | Gt => a / b + 1
  | Eq => if Z.even (a / b) then a / b else a / b + 1
  end%Z.

(** The exponent [e] with [2^e ≤ a / b < 2^(e+1)], for [0 < a] and
    [0 < b]. *)
Definition floor_log2 (a b : Z) : Z :=
  let e := (Z.log2 a - Z.log2 b)%Z in
  if (0 <=? e)%Z then (if (a <? b * 2 ^ e)%Z then e - 1 else e)%Z
  else (if (a * 2 ^ (- e) <? b)%Z then e - 1 else e)%Z.

(** [a / b] rounded to 53 significant bits, or to a multiple of [2^-1074]
    in the subnormal range: the result is [m * 2^u]. *)
Definition nearest_double (a b : Z) : Z * Z :=
  let u := Z.max (floor_log2 a b - 52) (-1074) in
  (if (0 <=? u)%Z then nearest_even a (b * 2 ^ u)
   else nearest_even (a * 2 ^ (- u)) b, u).

(** [m * 2^u] as a rational; [None] from [2^1024] on, where the rounded
    value overflows. *)
Definition double_of (m u : Z) : option Qc :=
  if (0 <=? u)%Z then
    if (2 ^ 1024 <=? m * 2 ^ u)%Z then None
    else Some (Q2Qc (inject_Z (m * 2 ^ u)))
  else Some (Q2Qc (Qmake m (Z.to_pos (2 ^ (- u))))).

(** Rounding of an exact result to the nearest double. *)
Definition to_double (x : Qc) : number :=
  match Qnum x with
  | Z0 => Finite 0
  | Zpos a =>
      let '(m, u) := nearest_double (Zpos a) (Zpos (Qden x)) in
      match double_of m u with
      | Some q => Finite q
      | None => Infinity
      end
  | Zneg a =>
      let '(m, u) := nearest_double (Zpos a) (Zpos (Qden x)) in
      match double_of m u with
      | Some q => Finite (- q)
      | None => NegInfinity
      end
  end.

(** [x + y] *)
Definition number_add (x y : number) : number :=
  match x, y with
  | NaN, _ | _, NaN => NaN
  | Infinity, NegInfinity | NegInfinity, Infinity => NaN
  | Infinity, _ | _, Infinity => Infinity
  | NegInfinity, _ | _, NegInfinity => NegInfinity
  | Finite a, Finite b => to_double (a + b)
  end.

(** [x < y]; [x > y] is [number_lt y x]. *)
Definition number_lt (x y : number) : bool :=
  match x, y with
  | NaN, _ | _, NaN => false
  | _, NegInfinity | Infinity, _ => false
  | NegInfinity, _ | _, Infinity => true
  | Finite a, Finite b => bool_decide (a < b)%Qc
  end.

(** [Math.max(x, y)] *)
Definition Math_max (x y : number) : number :=
  match x, y with
  | NaN, _ | _, NaN => NaN
  | _, _ => if number_lt x y then y else x
  end.

(** [x <= y]; [x >= y] is [number_le y x]. *)
Definition number_le (x y : number) : bool :=
  match x, y with
  | NaN, _ | _, NaN => false
  | _, _ => negb (number_lt y x)
  end.

(** [Number.isFinite(x)] *)
Definition isFinite (x : number) : bool :=
  match x with Finite _ => true | _ => false end.

(** The number an integer literal denotes (exact below [2^53]). *)
Definition of_Z (z : Z) : number := Finite (Q2Qc (inject_Z z)).

(** ** The random source

    A value of [Math.random()] is a double in the interval [0, 1), that is
    [k / 2^53] for some [k < 2^53]; a draw is carried as the numerator
    (any [N], reduced modulo [2^53]). *)

Definition draw := N.

Definition mantissa (r : draw) : N := (r mod 2 ^ 53)%N.

(** The product of two doubles is the exact product rounded to 53
    significant bits: for the numerator [p] of a fraction over [2^53],
    that is [p] itself when it has at most 53 bits, and otherwise [p]
    rounded to a multiple of [2 ^ (log2 p - 52)]. *)
Definition round53 (p : Z) : Z :=
  let s := (Z.log2 p - 52)%Z in
  if (s <=? 0)%Z then p else (nearest_even p (2 ^ s) * 2 ^ s)%Z.

(** [Math.floor(Math.random() * n)] *)
Definition floor_random_times (r : draw) (n : nat) : nat :=
  Z.to_nat (round53 (Z.of_N (mantissa r) * Z.of_nat n) / 2 ^ 53).

(** [getRandomSong]: an index out of range reads [undefined]. *)
Definition getRandomSong (catalog : list Song) (r : draw) : option Song :=
  catalog !! floor_random_times r (length catalog).

(** ** GameManager.ts: types *)

Inductive GameState :=
  | LOBBY
  | ROUND_LOADING
  | ROUND_PLAYING
  | ROUND_LOCKED
  | ROUND_RESULT
  | GAME_OVER.

#[global] Instance GameState_eq_dec : EqDecision GameState.
Proof. solve_decision. Defined.

Record GamePlayer := {
  player_id : string;
  socketId : string;
  name : string;
  score : number;
  avatar : string;
  roomId : string
}.

Record CurrentRound := {
  song : Song;
  buzzedPlayerId : option string;
  startTime : Z;
  buzzTime : option Z;
  isKaraoke : option bool
}.

(** A reference to a [GamePlayer] object: its index in the object store. *)
Abbreviation ref := nat (only parsing).

Record GameRoom := {
  room_id : string;
  hostId : string;
  state : GameState;
  room_players : JsMap.t ref;
  currentRound : option CurrentRound;
  roundNumber : nat;
  totalRounds : nat;
  songsPlayed : list string
}.

Record GameManager := {
  rooms : gmap string GameRoom;
  players : gmap string ref;
  heap : list GamePlayer
}.

(** [new GameManager()] *)
Definition initial : GameManager :=
  {| rooms := ∅; players := ∅; heap := [] |}.

(** The errors the manager throws, named as in the specification; the
    text is the one the source passes to [new Error]. *)
Inductive Error :=
  | RoomAlreadyExists
  | RoomNotFound
  | AlreadyStarted
  | InsufficientPlayers
  | NoContentAvailable
  | InvalidStateTransition
  | PlayerNotInRoom
  | InvalidScoreAmount.

Definition message (e : Error) : string :=
  match e with
  | RoomAlreadyExists => "Room already exists"
  | RoomNotFound => "Room not found"
  | AlreadyStarted => "Game already started"
  | InsufficientPlayers => "Need at least 2 players to start"
  | NoContentAvailable => "No songs available"
  | InvalidStateTransition => "Invalid state transition"
  | PlayerNotInRoom => "Player not found in room"
  | InvalidScoreAmount => "Score amount must be between 0 and 10"
  end.

Inductive outcome (A : Type) :=
  | Return (a : A)
  | Throw (e : Error).
Arguments Return {A} a.
Arguments Throw {A} e.

(** ** Field updates *)

Definition set_room_state (s : GameState) (room : GameRoom) : GameRoom :=
  {| room_id := room_id room; hostId := hostId room; state := s;
     room_players := room_players room; currentRound := currentRound room;
     roundNumber := roundNumber room; totalRounds := totalRounds room;
     songsPlayed := songsPlayed room |}.

Definition set_currentRound (c : option CurrentRound) (room : GameRoom) : GameRoom :=
  {| room_id := room_id room; hostId := hostId room; state := state room;
     room_players := room_players room; currentRound := c;
     roundNumber := roundNumber room; totalRounds := totalRounds room;
     songsPlayed := songsPlayed room |}.

Definition set_roundNumber (n : nat) (room : GameRoom) : GameRoom :=
  {| room_id := room_id room; hostId := hostId room; state := state room;
     room_players := room_players room; currentRound := currentRound room;
     roundNumber := n; totalRounds := totalRounds room;
     songsPlayed := songsPlayed room |}.

Definition set_songsPlayed (l : list string) (room : GameRoom) : GameRoom :=
  {| room_id := room_id room; hostId := hostId room; state := state room;
     room_players := room_players room; currentRound := currentRound room;
     roundNumber := roundNumber room; totalRounds := totalRounds room;
     songsPlayed := l |}.

Definition set_room_players (ps : JsMap.t ref) (room : GameRoom) : GameRoom :=
  {| room_id := room_id room; hostId := hostId room; state := state room;
     room_players := ps; currentRound := currentRound room;
     roundNumber := roundNumber room; totalRounds := totalRounds room;
     songsPlayed := songsPlayed room |}.

Definition set_hostId (h : string) (room : GameRoom) : GameRoom :=
  {| room_id := room_id room; hostId := h; state := state room;
     room_players := room_players room; currentRound := currentRound room;
     roundNumber := roundNumber room; totalRounds := totalRounds room;
     songsPlayed := songsPlayed room |}.

Definition set_startTime (t : Z) (r : CurrentRound) : CurrentRound :=
  {| song := song r; buzzedPlayerId := buzzedPlayerId r; startTime := t;
     buzzTime := buzzTime r; isKaraoke := isKaraoke r |}.

Definition set_buzz (p : string) (t : Z) (r : CurrentRound) : CurrentRound :=
  {| song := song r; buzzedPlayerId := Some p; startTime := startTime r;
     buzzTime := Some t; isKaraoke := isKaraoke r |}.

Definition set_score (s : number) (p : GamePlayer) : GamePlayer :=
  {| player_id := player_id p; socketId := socketId p; name := name p;
     score := s; avatar := avatar p; roomId := roomId p |}.

Definition set_rooms (rs : gmap string GameRoom) (m : GameManager) : GameManager :=
  {| rooms := rs; players := players m; heap := heap m |}.

(** Writing a mutated room object back at its key. *)
Definition put_room (code : string) (room : GameRoom) (m : GameManager) : GameManager :=
  set_rooms (<[code := room]> (rooms m)) m.

(** ** GameManager.ts: private helpers *)

Definition toUpperCase_ascii (c : ascii) : ascii :=
  let n := nat_of_ascii c in
  if (97 <=? n) && (n <=? 122) then ascii_of_nat (n - 32) else c.

(** [String.prototype.toUpperCase] on the characters a radix-36 number
    is printed with (ASCII digits, lower-case letters and the point). *)
Fixpoint toUpperCase (s : string) : string :=
  match s with
  | EmptyString => EmptyString
  | String c s' => String (toUpperCase_ascii c) (toUpperCase s')
  end.

(** [generateRoomId]: [text] is what [Math.random().toString(36)]
    evaluated to; [substring(2, 8)] keeps at most six characters from
    position 2 on. *)
Definition generateRoomId (text : string) : string :=
  toUpperCase (substring 2 6 text).

Definition avatars : list string :=
  ["🎮"; "🎯"; "🎲"; "🎪"; "🎨"; "🎭"; "🎸"; "🎹";
   "🥁"; "🎤"; "🎧"; "🎵"; "🎶"; "🎼"; "🎺"; "🎷"].

Definition generateAvatar (r : draw) : string :=
  default "" (avatars !! floor_random_times r (length avatars)).

(** ** GameManager.ts: operations

    Each method maps the state before the call to its outcome and the
    state after it. *)

Definition createRoom (host hostName : string) (desired : option string)
    (idText : string) (avatarDraw : draw) (m : GameManager)
  : outcome string * GameManager :=
  let newRoomId :=
    match desired with
    | Some code => if decide (code = "") then generateRoomId idText else code
    | None => generateRoomId idText
    end in
  match rooms m !! newRoomId with
  | Some _ => (Throw RoomAlreadyExists, m)
  | None =>
      let l := length (heap m) in
      let hostPlayer :=
        {| player_id := host; socketId := host; name := hostName;
           score := Finite 0; avatar := generateAvatar avatarDraw;
           roomId := newRoomId |} in
      let room :=
        {| room_id := newRoomId; hostId := host; state := LOBBY;
           room_players := JsMap.set host l [];
           currentRound := None; roundNumber := 0; totalRounds := 10;
           songsPlayed := [] |} in
      (Return newRoomId,
       {| rooms := <[newRoomId := room]> (rooms m);
          players := <[host := l]> (players m);
          heap := heap m ++ [hostPlayer] |})
  end.

Definition addPlayer (sid playerName code : string) (avatarDraw : draw)
    (m : GameManager) : outcome ref * GameManager :=
  match rooms m !! code with
  | None => (Throw RoomNotFound, m)
  | Some room =>
      match JsMap.get sid (room_players room) with
      | Some l => (Return l, m)
      | None =>
          let l := length (heap m) in
          let player :=
            {| player_id := sid; socketId := sid; name := playerName;
               score := Finite 0; avatar := generateAvatar avatarDraw;
               roomId := code |} in
          (Return l,
           {| rooms := <[code := set_room_players
                                   (JsMap.set sid l (room_players room)) room]>
                         (rooms m);
              players := <[sid := l]> (players m);
              heap := heap m ++ [player] |})
      end
  end.

(** [removePlayer] returns the pair [{ room, player }]: the room object
    as the call leaves it, and the reference of the removed player. A
    reference read from the maps always has an object behind it (lemma
    [reachable_refs]); the two [None] branches on [heap m !! _] only make
    the function total. *)
Definition removePlayer (sid : string) (m : GameManager)
  : (option GameRoom * option ref) * GameManager :=
  match players m !! sid with
  | None => ((None, None), m)
  | Some l =>
      match heap m !! l with
      | None => ((None, None), m)
      | Some player =>
          let players' := delete sid (players m) in
          match rooms m !! roomId player with
          | None =>
              ((None, Some l),
               {| rooms := rooms m; players := players'; heap := heap m |})
          | Some room =>
              let room1 :=
                set_room_players (JsMap.delete sid (room_players room)) room in
              if decide (player_id player = hostId room) then
                match JsMap.values (room_players room1) with
                | l0 :: _ =>
                    let room2 :=
                      match heap m !! l0 with
                      | Some newHost => set_hostId (socketId newHost) room1
                      | None => room1
                      end in
                    ((Some room2, Some l),
                     {| rooms := <[roomId player := room2]> (rooms m);
                        players := players'; heap := heap m |})
                | [] =>
                    ((None, Some l),
                     {| rooms := delete (room_id room1)
                                   (<[roomId player := room1]> (rooms m));
                        players := players'; heap := heap m |})
                end
              else
                ((Some room1, Some l),
                 {| rooms := <[roomId player := room1]> (rooms m);
                    players := players'; heap := heap m |})
          end
      end
  end.

(** The methods below start with [this.rooms.get(roomId)], throw when
    there is no such room, and then work on that room object alone. *)
Definition with_room {A : Type} (code : string)
    (body : GameRoom → outcome A * GameRoom) (m : GameManager)
  : outcome A * GameManager :=
  match rooms m !! code with
  | None => (Throw RoomNotFound, m)
  | Some room => let '(r, room') := body room in (r, put_room code room' m)
  end.

Definition startGame_room (room : GameRoom) : outcome unit * GameRoom :=
  if decide (state room ≠ LOBBY) then (Throw AlreadyStarted, room)
  else if decide (JsMap.size (room_players room) < 2) then
    (Throw InsufficientPlayers, room)
  else
    (Return (),
     set_songsPlayed [] (set_roundNumber 0 (set_room_state ROUND_LOADING room))).

Definition startGame (code : string) := with_room code startGame_room.

Definition maxAttempts : nat := 100.

Section with_catalog.
(** The content of [SONGS]. *)
Variable catalog : list Song.

Section song_selection.
(** [draws k] is the value of the [k]-th call of [Math.random()]
    made by the selection, counting from 0. *)
Variable draws : nat → draw.

(** The [do ... while] loop of [nextRound]. [left] is
    [maxAttempts - attempts - 1] and [k = attempts] on entry of an
    iteration: the iteration that brings [attempts] to [maxAttempts]
    is the one with [left = 0]; it empties [songsPlayed], draws once
    more and leaves the loop. The result is the song and the value of
    [room.songsPlayed] after the loop. *)
Fixpoint select_loop (left k : nat) (played : list string)
  : option Song * list string :=
  let candidate := getRandomSong catalog (draws k) in
  match left with
  | 0 => (getRandomSong catalog (draws (S k)), [])
  | S left' =>
      match candidate with
      | Some s =>
          if bool_decide (song_id s ∈ played)
          then select_loop left' (S k) played
          else (candidate, played)
      | None => (candidate, played)
      end
  end.

Definition select_song (played : list string) : option Song * list string :=
  select_loop (maxAttempts - 1) 0 played.
End song_selection.

Definition nextRound_room (draws : nat → draw) (now : Z) (room : GameRoom)
  : outcome unit * GameRoom :=
  let '(started, room) :=
    if decide (state room = LOBBY) then startGame_room room
    else (Return (), room) in
  match started with
  | Throw e => (Throw e, room)
  | Return _ =>
      if decide (totalRounds room ≤ roundNumber room) then
        (Return (), set_currentRound None (set_room_state GAME_OVER room))
      else
        let '(chosen, played) := select_song draws (songsPlayed room) in
        let room := set_songsPlayed played room in
        match chosen with
        | None => (Throw NoContentAvailable, room)
        | Some s =>
            let room := set_roundNumber (S (roundNumber room)) room in
            let room := set_songsPlayed (songsPlayed room ++ [song_id s]) room in
            let room := set_room_state ROUND_LOADING room in
            let karaoke := bool_decide (roundNumber room = totalRounds room) in
            (Return (),
             set_currentRound
               (Some {| song := s; buzzedPlayerId := None; startTime := now;
                        buzzTime := None; isKaraoke := Some karaoke |})
               room)
        end
  end.

Definition nextRound (code : string) (draws : nat → draw) (now : Z) :=
  with_room code (nextRound_room draws now).

Definition resetRound_room (draws : nat → draw) (now : Z) (room : GameRoom)
  : outcome unit * GameRoom :=
  if decide (state room = ROUND_LOCKED ∨ state room = ROUND_RESULT) then
    nextRound_room draws now (set_currentRound None room)
  else (Return (), room).

Definition resetRound (code : string) (draws : nat → draw) (now : Z) :=
  with_room code (resetRound_room draws now).
End with_catalog.

Definition startRoundPlaying_room (now : Z) (room : GameRoom)
  : outcome unit * GameRoom :=
  if decide (state room ≠ ROUND_LOADING) then (Throw InvalidStateTransition, room)
  else
    match currentRound room with
    | None => (Throw InvalidStateTransition, room)
    | Some round =>
        (Return (),
         set_currentRound (Some (set_startTime now round))
           (set_room_state ROUND_PLAYING room))
    end.

Definition startRoundPlaying (code : string) (now : Z) :=
  with_room code (startRoundPlaying_room now).

Definition handleBuzz_room (playerId : string) (now : Z) (room : GameRoom)
  : outcome bool * GameRoom :=
  if decide (state room ≠ ROUND_PLAYING) then (Return false, room)
  else
    match currentRound room with
    | None => (Return false, room)
    | Some round =>
        match buzzedPlayerId round with
        | Some _ => (Return false, room)
        | None =>
            (Return true,
             set_room_state ROUND_LOCKED
               (set_currentRound (Some (set_buzz playerId now round)) room))
        end
    end.

Definition handleBuzz (code playerId : string) (now : Z) :=
  with_room code (handleBuzz_room playerId now).

Definition showRoundResult_room (room : GameRoom) : outcome unit * GameRoom :=
  if decide (state room ≠ ROUND_LOCKED) then (Throw InvalidStateTransition, room)
  else (Return (), set_room_state ROUND_RESULT room).

Definition showRoundResult (code : string) := with_room code showRoundResult_room.

Definition updateScore (code playerId : string) (points : number)
    (m : GameManager)
  : outcome unit * GameManager :=
  match rooms m !! code with
  | None => (Throw RoomNotFound, m)
  | Some room =>
      match JsMap.get playerId (room_players room) with
      | None => (Throw PlayerNotInRoom, m)
      | Some l =>
          (Return (),
           {| rooms := rooms m; players := players m;
              heap := alter (λ p, set_score
                                    (Math_max (Finite 0)
                                       (number_add (score p) points)) p)
                        l (heap m) |})
      end
  end.

Definition giveScore (code playerId : string) (scoreAmount : number)
    (m : GameManager) : outcome unit * GameManager :=
  if number_lt scoreAmount (Finite 0) || number_lt (of_Z 10) scoreAmount then
    (Throw InvalidScoreAmount, m)
  else updateScore code playerId scoreAmount m.

Definition getRoom (code : string) (m : GameManager) : option GameRoom :=
  rooms m !! code.

Definition getPlayer (sid : string) (m : GameManager) : option GamePlayer :=
  l ← players m !! sid; heap m !! l.

Definition getPlayersInRoom (code : string) (m : GameManager) : list GamePlayer :=
  match rooms m !! code with
  | None => []
  | Some room => omap (λ l, heap m !! l) (JsMap.values (room_players room))
  end.

Definition isHost (code playerId : string) (m : GameManager) : bool :=
  match rooms m !! code with
  | None => false
  | Some room => bool_decide (hostId room = playerId)
  end.

(** ** Runs of the manager *)

Section with_catalog.
Variable catalog : list Song.

(** One call of a mutating method, with the values the environment
    supplies to it. *)
Inductive Op :=
  | CreateRoom (host hostName : string) (desired : option string)
      (idText : string) (avatarDraw : draw)
  | AddPlayer (sid playerName code : string) (avatarDraw : draw)
  | RemovePlayer (sid : string)
  | StartGame (code : string)
  | NextRound (code : string) (draws : nat → draw) (now : Z)
  | StartRoundPlaying (code : string) (now : Z)
  | HandleBuzz (code playerId : string) (now : Z)
  | ShowRoundResult (code : string)
  | UpdateScore (code playerId : string) (points : number)
  | GiveScore (code playerId : string) (scoreAmount : number)
  | ResetRound (code : string) (draws : nat → draw) (now : Z).

(** The state a call leaves behind, whether it returns or throws. *)
Definition exec (o : Op) (m : GameManager) : GameManager :=
  match o with
  | CreateRoom host hostName desired idText avatarDraw =>
      (createRoom host hostName desired idText avatarDraw m).2
  | AddPlayer sid playerName code avatarDraw =>
      (addPlayer sid playerName code avatarDraw m).2
  | RemovePlayer sid => (removePlayer sid m).2
  | StartGame code => (startGame code m).2
  | NextRound code draws now => (nextRound catalog code draws now m).2
  | StartRoundPlaying code now => (startRoundPlaying code now m).2
  | HandleBuzz code playerId now => (handleBuzz code playerId now m).2
  | ShowRoundResult code => (showRoundResult code m).2
  | UpdateScore code playerId points => (updateScore code playerId points m).2
  | GiveScore code playerId scoreAmount =>
      (giveScore code playerId scoreAmount m).2
  | ResetRound code draws now => (resetRound catalog code draws now m).2
  end.

Definition run (ops : list Op) (m : GameManager) : GameManager :=
  foldl (λ m o, exec o m) m ops.

(** The states of a manager created by [new GameManager()] and driven
    by any sequence of calls. *)
Inductive reachable : GameManager → Prop :=
  | reachable_initial : reachable initial
  | reachable_exec o m : reachable m → reachable (exec o m).
End with_catalog.

(** ** Invariants *)

(** Every reference held by a map has an object behind it, stored under
    the identifier it was created for. *)
Definition refs_valid (m : GameManager) : Prop :=
  (∀ sid l, players m !! sid = Some l →
     ∃ p, heap m !! l = Some p ∧ player_id p = sid) ∧
  (∀ code room sid l, rooms m !! code = Some room →
     JsMap.get sid (room_players room) = Some l →
     ∃ p, heap m !! l = Some p ∧ socketId p = sid).

(** A room is registered under its own code, its host is one of its
    members, and no member is listed twice. *)
Definition room_members_ok (code : string) (room : GameRoom) : Prop :=
  room_id room = code ∧
  is_Some (JsMap.get (hostId room) (room_players room)) ∧
  NoDup (JsMap.keys (room_players room)).

(** The round data of a room: ten rounds per game; no round and no
    round started while in the lobby; the karaoke flag of the round in
    place tells whether the counter stands at the target. *)
Definition room_rounds_ok (room : GameRoom) : Prop :=
  totalRounds room = 10 ∧
  (state room = LOBBY → currentRound room = None ∧ roundNumber room = 0) ∧
  (∀ round, currentRound room = Some round →
     isKaraoke round = Some (bool_decide (roundNumber room = totalRounds room))).

Definition invariant (m : GameManager) : Prop :=
  refs_valid m ∧
  ∀ code room, rooms m !! code = Some room →
    room_members_ok code room ∧ room_rounds_ok room.

(** ** Notions used in the statements and proofs *)

(** A room-local method never touches who is in the room. *)
Definition same_members (room room' : GameRoom) : Prop :=
  room_id room' = room_id room ∧ hostId room' = hostId room ∧
  room_players room' = room_players room.

Definition room_local {A : Type} (body : GameRoom → outcome A * GameRoom) : Prop :=
  ∀ room, same_members room (body room).2 ∧
          (room_rounds_ok room → room_rounds_ok (body room).2).

(** Growing the object store, or changing a score in place, keeps every
    object where it is and keeps its identifiers. *)
Definition heap_extends (h h' : list GamePlayer) : Prop :=
  ∀ l p, h !! l = Some p →
    ∃ p', h' !! l = Some p' ∧ player_id p' = player_id p ∧
          socketId p' = socketId p ∧ roomId p' = roomId p.

(** A room-local method that, when it leaves a round in place, took it
    over from before with its buzz slot as it was. *)
Definition keeps_buzz {A : Type} (body : GameRoom → outcome A * GameRoom) : Prop :=
  ∀ room round', currentRound (body room).2 = Some round' →
    ∃ round, currentRound room = Some round ∧
      ∀ winner, buzzedPlayerId round = Some winner →
        buzzedPlayerId round' = Some winner ∧ buzzTime round' = buzzTime round.

(** Whatever round sits in room [code], [winner] buzzed first in it, at
    time [t]. *)
Definition winner_is (code winner : string) (t : option Z) (m : GameManager) : Prop :=
  ∀ room round, rooms m !! code = Some room → currentRound room = Some round →
    buzzedPlayerId round = Some winner ∧ buzzTime round = t.

(** The calls that assign [room.currentRound] of room [code] are
    [nextRound] and [resetRound] on that code; every other call leaves
    the round of that room untouched. *)
Definition round_untouched_by (code : string) (o : Op) : Prop :=
  match o with
  | NextRound c _ _ | ResetRound c _ _ => c ≠ code
  | _ => True
  end.


(** [sid] is listed in the room registered under [code]. *)
Definition member_of (sid code : string) (m : GameManager) : Prop :=
  ∃ room, rooms m !! code = Some room ∧ JsMap.has sid (room_players room) = true.




Section with_catalog.
Variable catalog : list Song.

(** What [nextRound] does once the game is known to be started: the
    statements after the call of [startGame] (lemma
    [nextRound_room_unfold]). *)
Definition advance_round (draws : nat → draw) (now : Z) (room : GameRoom)
  : outcome unit * GameRoom :=
  if decide (totalRounds room ≤ roundNumber room) then
    (Return (), set_currentRound None (set_room_state GAME_OVER room))
  else
    let '(chosen, played) := select_song catalog draws (songsPlayed room) in
    match chosen with
    | None => (Throw NoContentAvailable, set_songsPlayed played room)
    | Some s =>
        (Return (),
         {| room_id := room_id room; hostId := hostId room;
            state := ROUND_LOADING; room_players := room_players room;
            currentRound :=
              Some {| song := s; buzzedPlayerId := None; startTime := now;
                      buzzTime := None;
                      isKaraoke :=
                        Some (bool_decide (S (roundNumber room) = totalRounds room)) |};
            roundNumber := S (roundNumber room);
            totalRounds := totalRounds room;
            songsPlayed := played ++ [song_id s] |})
    end.
End with_catalog.

(** Applying [updateScore] once per element of [deltas], in order. *)
Definition updateScore_each (code playerId : string) (deltas : list number)
    (m : GameManager) : GameManager :=
  foldl (λ m d, (updateScore code playerId d m).2) m deltas.

Definition digit36 (d : N) : ascii :=
  if (d <? 10)%N then ascii_of_N (48 + d) else ascii_of_N (87 + d).

(** The radix-36 digits of [num / den], for [0 ≤ num < den], until the
    remainder is zero. *)
Fixpoint fraction36 (fuel : nat) (num den : N) : string :=
  match fuel with
  | 0 => EmptyString
  | S fuel' =>
      if (num =? 0)%N then EmptyString
      else String (digit36 (num * 36 / den))
             (fraction36 fuel' (num * 36 mod den) den)
  end.

(** The exact radix-36 expansion of a draw; 27 digits suffice for a
    multiple of [2^-53]. [Number.prototype.toString(36)] prints this text
    for a value whose expansion is short, such as 1/2; for other values
    it stops at the digits that identify the double. *)
Definition toString36_exact (r : draw) : string :=
  if (mantissa r =? 0)%N then "0"
  else String "0" (String "." (fraction36 27 (mantissa r) (2 ^ 53))).

(** ** Well-formed states *)

(** Every object listed in a room carries the code of that room and the
    key it is listed under. *)
Definition members_placed (m : GameManager) : Prop :=
  ∀ code room sid l, rooms m !! code = Some room →
    JsMap.get sid (room_players room) = Some l →
    ∃ p, heap m !! l = Some p ∧ roomId p = code ∧
         player_id p = sid ∧ socketId p = sid.

(** Every entry of the index refers to an object of a registered room,
    which lists that very object under that session. *)
Definition index_placed (m : GameManager) : Prop :=
  ∀ sid l, players m !! sid = Some l →
    ∃ p room, heap m !! l = Some p ∧ player_id p = sid ∧
              rooms m !! roomId p = Some room ∧
              JsMap.get sid (room_players room) = Some l.

(** No score is below zero: [score < 0] is false of every player
    object, whose score is then [NaN] or at least 0. *)
Definition scores_clamped (m : GameManager) : Prop :=
  ∀ l p, heap m !! l = Some p → number_lt (score p) (Finite 0) = false.

(** Every score is at least 0: [score >= 0] holds, so no score is
    [NaN]. *)
Definition scores_at_least_zero (m : GameManager) : Prop :=
  ∀ l p, heap m !! l = Some p → number_le (Finite 0) (score p) = true.

(** The amount a call passes on to [updateScore]. *)
Definition amount_of (o : Op) : option number :=
  match o with
  | UpdateScore _ _ points => Some points
  | GiveScore _ _ scoreAmount => Some scoreAmount
  | _ => None
  end.

(** Runs in which every such amount is a finite number. *)
Definition finite_amounts (ops : list Op) : Prop :=
  Forall (λ o, ∀ a, amount_of o = Some a → isFinite a = true) ops.

(** The counters and the played list of a room. *)
Definition room_counts_ok (catalog : list Song) (room : GameRoom) : Prop :=
  roundNumber room ≤ totalRounds room ∧
  length (songsPlayed room) ≤ roundNumber room ∧
  (∀ i, i ∈ songsPlayed room → ∃ s, s ∈ catalog ∧ song_id s = i) ∧
  (∀ round, currentRound room = Some round →
     1 ≤ roundNumber room ∧ song round ∈ catalog ∧
     last (songsPlayed room) = Some (song_id (song round))).

(** What each state says about the round in place; [strict] adds that a
    locked or resolved room has a round whenever the catalog is not
    empty. *)
Definition room_phase_ok (strict : Prop) (room : GameRoom) : Prop :=
  match state room with
  | LOBBY => currentRound room = None ∧ songsPlayed room = []
  | ROUND_LOADING =>
      ∀ round, currentRound room = Some round →
        buzzedPlayerId round = None ∧ buzzTime round = None
  | ROUND_PLAYING =>
      ∃ round, currentRound room = Some round ∧
        buzzedPlayerId round = None ∧ buzzTime round = None
  | ROUND_LOCKED | ROUND_RESULT =>
      (∀ round, currentRound room = Some round →
         is_Some (buzzedPlayerId round) ∧ is_Some (buzzTime round)) ∧
      (strict → is_Some (currentRound room))
  | GAME_OVER => currentRound room = None ∧ roundNumber room = totalRounds room
  end.

Definition room_shape (catalog : list Song) (room : GameRoom) : Prop :=
  room_counts_ok catalog room ∧ room_phase_ok (catalog ≠ []) room.

Definition wellformed (catalog : list Song) (m : GameManager) : Prop :=
  invariant m ∧ members_placed m ∧ index_placed m ∧ scores_clamped m ∧
  ∀ code room, rooms m !! code = Some room → room_shape catalog room.

(** The moves between states that the methods of the manager make. *)
Definition allowed (s s' : GameState) : bool :=
  match s, s' with
  | LOBBY, (LOBBY | ROUND_LOADING) => true
  | ROUND_LOADING, (ROUND_LOADING | ROUND_PLAYING | GAME_OVER) => true
  | ROUND_PLAYING, (ROUND_PLAYING | ROUND_LOCKED | ROUND_LOADING | GAME_OVER) => true
  | ROUND_LOCKED, (ROUND_LOCKED | ROUND_RESULT | ROUND_LOADING | GAME_OVER) => true
  | ROUND_RESULT, (ROUND_RESULT | ROUND_LOADING | GAME_OVER) => true
  | GAME_OVER, GAME_OVER => true
  | _, _ => false
  end.

(** The error a call ends with, if it throws. *)
Definition thrown {A : Type} (r : outcome A) : option Error :=
  match r with Throw e => Some e | Return _ => None end.

Definition exec_error (catalog : list Song) (o : Op) (m : GameManager) : option Error :=
  match o with
  | CreateRoom host hostName desired idText avatarDraw =>
      thrown (createRoom host hostName desired idText avatarDraw m).1
  | AddPlayer sid playerName code avatarDraw =>
      thrown (addPlayer sid playerName code avatarDraw m).1
  | RemovePlayer sid => None
  | StartGame code => thrown (startGame code m).1
  | NextRound code draws now => thrown (nextRound catalog code draws now m).1
  | StartRoundPlaying code now => thrown (startRoundPlaying code now m).1
  | HandleBuzz code playerId now => thrown (handleBuzz code playerId now m).1
  | ShowRoundResult code => thrown (showRoundResult code m).1
  | UpdateScore code playerId points => thrown (updateScore code playerId points m).1
  | GiveScore code playerId scoreAmount =>
      thrown (giveScore code playerId scoreAmount m).1
  | ResetRound code draws now => thrown (resetRound catalog code draws now m).1
  end.

(** The room a call works on. *)
Definition target (o : Op) (m : GameManager) : option string :=
  match o with
  | CreateRoom _ _ desired idText _ =>
      Some match desired with
           | Some code => if decide (code = "") then generateRoomId idText else code
           | None => generateRoomId idText
           end
  | RemovePlayer sid => l ← players m !! sid; p ← heap m !! l; Some (roomId p)
  | AddPlayer _ _ code _ | StartGame code | NextRound code _ _
  | StartRoundPlaying code _ | HandleBuzz code _ _ | ShowRoundResult code
  | UpdateScore code _ _ | GiveScore code _ _ | ResetRound code _ _ => Some code
  end.

#[global] Instance SongType_eq_dec : EqDecision SongType.
Proof. solve_decision. Defined.

#[global] Instance Difficulty_eq_dec : EqDecision Difficulty.
Proof. solve_decision. Defined.

(** ** The other catalog queries of [songs.ts] *)

Definition getSongById (catalog : list Song) (id : string) : option Song :=
  find (λ s, bool_decide (song_id s = id)) catalog.

Definition getSongsByType (catalog : list Song) (type : SongType) : list Song :=
  filter (λ s, song_type s = type) catalog.

Definition getSongsByDifficulty (catalog : list Song) (d : Difficulty) : list Song :=
  filter (λ s, difficulty s = d) catalog.

Definition getRandomSongByType (catalog : list Song) (type : SongType) (r : draw)
  : option Song :=
  let songs := getSongsByType catalog type in
  if decide (length songs = 0) then None
  else songs !! floor_random_times r (length songs).

Definition getRandomSongByDifficulty (catalog : list Song) (d : Difficulty)
    (r : draw) : option Song :=
  let songs := getSongsByDifficulty catalog d in
  if decide (length songs = 0) then None
  else songs !! floor_random_times r (length songs).

Definition getAllSongs (catalog : list Song) : list Song := catalog.

Definition getTotalSongs (catalog : list Song) : nat := length catalog.

(** ** The socket dispatcher *)

Inductive PlayerRole := RoleHost | RolePlayer.

Record JoinGamePayload := {
  join_name : string;
  join_role : PlayerRole;
  join_roomId : option string
}.

(** What the server sends about a player: [{id, name, score, avatar}]. *)
Record PlayerView := {
  view_id : string;
  view_name : string;
  view_score : number;
  view_avatar : string
}.

Definition view (p : GamePlayer) : PlayerView :=
  {| view_id := player_id p; view_name := name p;
     view_score := score p; view_avatar := avatar p |}.

(** [{state, roundNumber, totalRounds, currentRound}], as sent in the
    acknowledgements. *)
Record RoomSummary := {
  sum_state : GameState;
  sum_roundNumber : nat;
  sum_totalRounds : nat;
  sum_currentRound : option CurrentRound
}.

Definition summary (room : GameRoom) : RoomSummary :=
  {| sum_state := state room; sum_roundNumber := roundNumber room;
     sum_totalRounds := totalRounds room;
     sum_currentRound := currentRound room |}.

(** The payload of [game_state_update]. *)
Record GameStateData := {
  gs_state : GameState;
  gs_roundNumber : nat;
  gs_totalRounds : nat;
  gs_currentRound : option CurrentRound;
  gs_players : list PlayerView
}.

(** The objects passed to the acknowledgement callback of an event. *)
Inductive Response :=
  | joined (roomId : string) (player : PlayerView) (players : list PlayerView)
           (gameState : RoomSummary)
  | succeeded (text : string)
  | refused (text : string)
  | failed (error : string)
  | room_state (gameState : RoomSummary) (players : list PlayerView)
               (currentPlayer : option PlayerView).

Inductive ServerEvent :=
  | game_state_update (gameState : GameStateData)
  | player_joined (player : PlayerView) (players : list PlayerView)
  | player_left (playerId playerName : string) (players : list PlayerView)
  | buzz_received (playerId playerName : string) (timestamp : Z).

(** What a handler does besides calling the manager: [socket.join],
    the acknowledgement callback, [io.to(room).emit],
    [socket.to(room).emit] (everyone in the room but the socket), and
    [setTimeout] of the callback that starts the playing phase of the
    room. *)
Inductive Effect :=
  | socket_join (socket roomId : string)
  | callback (socket : string) (response : Response)
  | io_to (roomId : string) (event : ServerEvent)
  | socket_to (socket roomId : string) (event : ServerEvent)
  | setTimeout (roomId : string) (delay : nat).

(** A handler body runs on the manager and the list of effects so far,
    and either completes or throws an error with a message. *)
Record World := {
  manager : GameManager;
  sent : list Effect
}.

Definition Handler (A : Type) : Type := World → (string + A) * World.

#[global] Instance Handler_ret : MRet Handler := λ A a w, (inr a, w).

#[global] Instance Handler_bind : MBind Handler := λ A B k c w,
  match c w with
  | (inl error, w') => (inl error, w')
  | (inr a, w') => k a w'
  end.

Definition throw {A : Type} (error : string) : Handler A := λ w, (inl error, w).

Definition emit (e : Effect) : Handler unit := λ w,
  (inr (), {| manager := manager w; sent := sent w ++ [e] |}).

(** A call of a manager method; an error it throws carries its message. *)
Definition call {A : Type} (f : GameManager → outcome A * GameManager)
  : Handler A := λ w,
  let '(r, m') := f (manager w) in
  (match r with Return a => inr a | Throw e => inl (message e) end,
   {| manager := m'; sent := sent w |}).

Definition query {A : Type} (f : GameManager → A) : Handler A := λ w,
  (inr (f (manager w)), w).

(** Reading a property of a value that may be [undefined]. *)
Definition defined {A : Type} (property : string) (x : option A) : Handler A :=
  match x with
  | Some a => mret a
  | None =>
      throw ("Cannot read properties of undefined (reading '" ++ property ++ "')")
  end.

Definition reply (socket : string) (has_callback : bool) (r : Response)
  : Handler unit :=
  if has_callback then emit (callback socket r) else mret ().

(** [try { body } catch (error) { if (callback) callback({success: false,
    error: error.message}) }] *)
Definition try_catch (socket : string) (has_callback : bool)
    (body : Handler unit) (m : GameManager) : list Effect * GameManager :=
  let '(r, w) := body {| manager := m; sent := [] |} in
  match r with
  | inr _ => (sent w, manager w)
  | inl error =>
      (sent w ++ (if has_callback then [callback socket (failed error)] else []),
       manager w)
  end.

(** A body outside any [try]: an error leaves it uncaught. *)
Definition unguarded (body : Handler unit) (m : GameManager)
  : option string * (list Effect * GameManager) :=
  let '(r, w) := body {| manager := m; sent := [] |} in
  (match r with inr _ => None | inl error => Some error end,
   (sent w, manager w)).

Definition emitGameState (roomId : string) : Handler unit :=
  room ← query (getRoom roomId);
  match room with
  | None => mret ()
  | Some room =>
      players ← query (getPlayersInRoom roomId);
      emit (io_to roomId (game_state_update
        {| gs_state := state room; gs_roundNumber := roundNumber room;
           gs_totalRounds := totalRounds room;
           gs_currentRound := currentRound room;
           gs_players := view <$> players |}))
  end.

(** The checks every host-only handler opens with; [denied] is the
    handler's own message. *)
Definition host_only (socket roomId denied : string) : Handler GameRoom :=
  player ← query (getPlayer socket);
  match player with
  | None => throw "Player not found"
  | Some _ =>
      room ← query (getRoom roomId);
      match room with
      | None => throw "Room not found"
      | Some room =>
          isHost ← query (isHost roomId socket);
          if isHost : bool then mret room else throw denied
      end
  end.

Definition truthy (s : option string) : option string :=
  match s with
  | Some code => if decide (code = "") then None else Some code
  | None => None
  end.

Section dispatcher.
Variable catalog : list Song.

Definition on_join_game (socket : string) (payload : JoinGamePayload)
    (idText : string) (avatarDraw : draw) (has_callback : bool) : Handler unit :=
  '(roomId, player) ←
    match join_role payload with
    | RoleHost =>
        match truthy (join_roomId payload) with
        | Some code =>
            existingRoom ← query (getRoom code);
            match existingRoom with
            | Some _ =>
                l ← call (addPlayer socket (join_name payload) code avatarDraw);
                player ← query (λ m, heap m !! l);
                mret (code, player)
            | None =>
                roomId ← call (createRoom socket (join_name payload) (Some code)
                                          idText avatarDraw);
                player ← query (getPlayer socket);
                mret (roomId, player)
            end
        | None =>
            roomId ← call (createRoom socket (join_name payload) None
                                      idText avatarDraw);
            player ← query (getPlayer socket);
            mret (roomId, player)
        end
    | RolePlayer =>
        match truthy (join_roomId payload) with
        | None => throw "Room ID is required for players"
        | Some code =>
            l ← call (addPlayer socket (join_name payload) code avatarDraw);
            player ← query (λ m, heap m !! l);
            mret (code, player)
        end
    end;
  emit (socket_join socket roomId);;
  room ← query (getRoom roomId);
  players ← query (getPlayersInRoom roomId);
  (if has_callback then
     room ← defined "id" room;
     player ← defined "id" player;
     emit (callback socket
             (joined (room_id room) (view player) (view <$> players)
                     (summary room)))
   else mret ());;
  emitGameState roomId;;
  player ← defined "id" player;
  emit (socket_to socket roomId (player_joined (view player) (view <$> players))).

Definition on_start_game (socket roomId : string) (draws : nat → draw) (now : Z)
    (has_callback : bool) : Handler unit :=
  host_only socket roomId "Only the host can start the game";;
  call (startGame roomId);;
  call (nextRound catalog roomId draws now);;
  emit (setTimeout roomId 2000);;
  emitGameState roomId;;
  reply socket has_callback (succeeded "Game started").

Definition on_next_round (socket roomId : string) (draws : nat → draw) (now : Z)
    (has_callback : bool) : Handler unit :=
  host_only socket roomId "Only the host can advance to next round";;
  call (nextRound catalog roomId draws now);;
  roomAfter ← query (getRoom roomId);
  roomAfter ← defined "state" roomAfter;
  if decide (state roomAfter = GAME_OVER) then
    emitGameState roomId;;
    reply socket has_callback (succeeded "Game over")
  else
    emit (setTimeout roomId 2000);;
    emitGameState roomId;;
    reply socket has_callback (succeeded "Next round started").

Definition on_buzz (socket roomId : string) (now timestamp : Z)
    (has_callback : bool) : Handler unit :=
  player ← query (getPlayer socket);
  match player with
  | None => throw "Player not found"
  | Some _ =>
      wasFirst ← call (handleBuzz roomId socket now);
      if wasFirst : bool then
        buzzedPlayer ← query (getPlayer socket);
        emitGameState roomId;;
        buzzedPlayer ← defined "name" buzzedPlayer;
        emit (io_to roomId
                (buzz_received socket (name buzzedPlayer) timestamp));;
        reply socket has_callback (succeeded "Buzz registered successfully")
      else
        reply socket has_callback
              (refused "Round already locked or invalid state")
  end.

Definition on_show_result (socket roomId : string) (has_callback : bool)
  : Handler unit :=
  host_only socket roomId "Only the host can show results";;
  call (showRoundResult roomId);;
  emitGameState roomId;;
  reply socket has_callback (succeeded "Result shown").

Definition on_update_score (socket roomId playerId : string) (points : number)
    (has_callback : bool) : Handler unit :=
  host_only socket roomId "Only the host can update scores";;
  call (updateScore roomId playerId points);;
  emitGameState roomId;;
  reply socket has_callback (succeeded "Score updated").

Definition on_host_give_score (socket roomId playerId : string)
    (scoreAmount : number) (has_callback : bool) : Handler unit :=
  room ← host_only socket roomId "Only the host can give scores";
  if decide ((currentRound room ≫= isKaraoke) ≠ Some true) then
    throw "This action is only available in karaoke rounds"
  else if number_lt scoreAmount (Finite 0) || number_lt (of_Z 10) scoreAmount then
    throw "Score amount must be between 0 and 10"
  else
    call (giveScore roomId playerId scoreAmount);;
    emitGameState roomId;;
    reply socket has_callback (succeeded "Score given successfully").

Definition on_reset_round (socket roomId : string) (draws : nat → draw) (now : Z)
    (has_callback : bool) : Handler unit :=
  host_only socket roomId "Only the host can reset the round";;
  call (resetRound catalog roomId draws now);;
  roomAfter ← query (getRoom roomId);
  roomAfter ← defined "state" roomAfter;
  if decide (state roomAfter = GAME_OVER) then
    emitGameState roomId;;
    reply socket has_callback (succeeded "Game over")
  else
    emit (setTimeout roomId 2000);;
    emitGameState roomId;;
    reply socket has_callback (succeeded "Round reset successfully").

Definition on_get_room_state (socket roomId : string) (has_callback : bool)
  : Handler unit :=
  room ← query (getRoom roomId);
  match room with
  | None => throw "Room not found"
  | Some room =>
      players ← query (getPlayersInRoom roomId);
      player ← query (getPlayer socket);
      reply socket has_callback
            (room_state (summary room) (view <$> players) (view <$> player))
  end.

(** The events a client sends, with the values the environment supplies
    while they are handled. A number of a payload is any [number]; one
    that is missing behaves as [NaN] in the comparisons and sums it
    reaches. *)
Inductive Request :=
  | join_game (payload : JoinGamePayload) (idText : string) (avatarDraw : draw)
  | start_game (roomId : string) (draws : nat → draw) (now : Z)
  | next_round (roomId : string) (draws : nat → draw) (now : Z)
  | buzz (roomId : string) (now timestamp : Z)
  | show_result (roomId : string)
  | update_score (roomId playerId : string) (points : number)
  | host_give_score (roomId playerId : string) (scoreAmount : number)
  | reset_round (roomId : string) (draws : nat → draw) (now : Z)
  | get_room_state (roomId : string).

Definition handler (socket : string) (request : Request) (has_callback : bool)
  : Handler unit :=
  match request with
  | join_game payload idText avatarDraw =>
      on_join_game socket payload idText avatarDraw has_callback
  | start_game roomId draws now => on_start_game socket roomId draws now has_callback
  | next_round roomId draws now => on_next_round socket roomId draws now has_callback
  | buzz roomId now timestamp => on_buzz socket roomId now timestamp has_callback
  | show_result roomId => on_show_result socket roomId has_callback
  | update_score roomId playerId points =>
      on_update_score socket roomId playerId points has_callback
  | host_give_score roomId playerId scoreAmount =>
      on_host_give_score socket roomId playerId scoreAmount has_callback
  | reset_round roomId draws now => on_reset_round socket roomId draws now has_callback
  | get_room_state roomId => on_get_room_state socket roomId has_callback
  end.

(** Every handler of a client event is one [try] block. *)
Definition dispatch (socket : string) (request : Request) (has_callback : bool)
  : GameManager → list Effect * GameManager :=
  try_catch socket has_callback (handler socket request has_callback).

(** The error the [catch] block of the handler receives, if any. *)
Definition caught (socket : string) (request : Request) (has_callback : bool)
    (m : GameManager) : option string :=
  match (handler socket request has_callback {| manager := m; sent := [] |}).1 with
  | inl error => Some error
  | inr _ => None
  end.

End dispatcher.

(** The callback given to [setTimeout]. *)
Definition on_timeout (roomId : string) (now : Z)
  : GameManager → option string * (list Effect * GameManager) :=
  unguarded (call (startRoundPlaying roomId now);; emitGameState roomId).


Definition on_disconnect (socket : string)
  : GameManager → option string * (list Effect * GameManager) :=
  unguarded (
    '(room, player) ← call (λ m, let '(r, m') := removePlayer socket m in
                                 (Return r, m'));
    match player, room with
    | Some l, Some room =>
        emitGameState (room_id room);;
        remainingPlayers ← query (getPlayersInRoom (room_id room));
        player ← query (λ m, heap m !! l);
        player ← defined "name" player;
        emit (socket_to socket (room_id room)
                (player_left socket (name player) (view <$> remainingPlayers)))
    | _, _ => mret ()
    end).

(** ** Notions used in the statements about the dispatcher *)

(** What [emitGameState] sends for a room, if it exists. *)
Definition game_state_of (roomId : string) (m : GameManager) : option GameStateData :=
  room ← getRoom roomId m;
  Some {| gs_state := state room; gs_roundNumber := roundNumber room;
          gs_totalRounds := totalRounds room;
          gs_currentRound := currentRound room;
          gs_players := view <$> getPlayersInRoom roomId m |}.

Definition state_update (roomId : string) (m : GameManager) : list Effect :=
  match game_state_of roomId m with
  | Some gameState => [io_to roomId (game_state_update gameState)]
  | None => []
  end.

(** The acknowledgement, which is sent only if the client passed a
    callback. *)
Definition acknowledge (socket : string) (has_callback : bool) (r : Response)
  : list Effect :=
  if has_callback then [callback socket r] else [].

(** The requests reserved to the host, with the room they name and the
    message of the refusal. *)
Definition host_request (request : Request) : option (string * string) :=
  match request with
  | start_game roomId _ _ => Some (roomId, "Only the host can start the game")
  | next_round roomId _ _ => Some (roomId, "Only the host can advance to next round")
  | show_result roomId => Some (roomId, "Only the host can show results")
  | update_score roomId _ _ => Some (roomId, "Only the host can update scores")
  | host_give_score roomId _ _ => Some (roomId, "Only the host can give scores")
  | reset_round roomId _ _ => Some (roomId, "Only the host can reset the round")
  | join_game _ _ _ | buzz _ _ _ | get_room_state _ => None
  end.

(** The outcome of the checks a host-only handler opens with. *)
Definition host_check (socket roomId denied : string) (m : GameManager)
  : string + GameRoom :=
  match getPlayer socket m with
  | None => inl "Player not found"
  | Some _ =>
      match getRoom roomId m with
      | None => inl "Room not found"
      | Some room => if isHost roomId socket m then inr room else inl denied
      end
  end.

(** What a successful join_game does besides changing the manager. *)
Definition joined_effects (socket roomId : string) (has_callback : bool)
    (room : GameRoom) (p : GamePlayer) (m : GameManager) : list Effect :=
  socket_join socket roomId ::
  acknowledge socket has_callback
    (joined roomId (view p) (view <$> getPlayersInRoom roomId m) (summary room)) ++
  state_update roomId m ++
  [socket_to socket roomId
     (player_joined (view p) (view <$> getPlayersInRoom roomId m))].

(** A handler body that keeps a property of the manager and of what
    was sent so far, whether it completes or throws. *)
Definition preserves {A : Type} (P : World → Prop) (h : Handler A) : Prop :=
  ∀ w, P w → P (h w).2.

(** A property of the manager alone. *)
Definition on_manager (P : GameManager → Prop) : World → Prop :=
  λ w, P (manager w).

(** Every state update sent so far shows the room as the manager has it
    now. *)
Definition up_to_date (w : World) : Prop :=
  ∀ roomId gameState,
    io_to roomId (game_state_update gameState) ∈ sent w →
    game_state_of roomId (manager w) = Some gameState.

(** No state update was sent so far. *)
Definition no_update (w : World) : Prop :=
  ∀ roomId gameState, io_to roomId (game_state_update gameState) ∉ sent w.

(** A handler body that, started before any state update was sent,
    ends with every state update up to date. *)
Definition settles {A : Type} (h : Handler A) : Prop :=
  ∀ w, no_update w → up_to_date (h w).2.

(** ** Scenarios

    Concrete runs on which the theorems are exercised. The states are
    stored evaluated; the lemmas [*_reachable] relate them to their
    runs. *)

(** [Math.random()] returns 0 every time. *)
Definition quiet : nat → draw := λ _, 0%N.

(** [Math.random()] returns 1/4 every time: index 1 of four items. *)
Definition second : nat → draw := λ _, (2 ^ 51)%N.

(** [Math.random()] returns 0 ninety-nine times, then 1/4, then 1/2:
    index 0 of four items, then index 1, then index 2. *)
Definition stubborn : nat → draw :=
  λ k, if k <? 99 then 0%N else if k =? 99 then (2 ^ 51)%N else (2 ^ 52)%N.

(** Ana alone in the room she created. *)
Definition ops_solo : list Op :=
  [ CreateRoom "ana" "Ana" (Some "ROOM01") "0.4fzyo82mvyr" 0%N ].

Definition solo : GameManager := Eval vm_compute in run SONGS ops_solo initial.

(** Ana hosts ROOM01, Leo joins, the first round is drawn and playing. *)
Definition ops_playing : list Op :=
  [ CreateRoom "ana" "Ana" (Some "ROOM01") "0.4fzyo82mvyr" 0%N;
    AddPlayer "leo" "Leo" "ROOM01" 3%N;
    StartGame "ROOM01";
    NextRound "ROOM01" quiet 1000%Z;
    StartRoundPlaying "ROOM01" 3000%Z ].

Definition playing : GameManager :=
  Eval vm_compute in run SONGS ops_playing initial.

(** The same room after Leo buzzed. *)
Definition ops_locked : list Op :=
  ops_playing ++ [ HandleBuzz "ROOM01" "leo" 3500%Z ].

Definition locked : GameManager :=
  Eval vm_compute in run SONGS ops_locked initial.

(** Leo has buzzed; Ana buzzes twice, before and after the answer is
    shown and scored. *)
Definition ops_after_buzz : list Op :=
  [ HandleBuzz "ROOM01" "ana" 3600%Z;
    ShowRoundResult "ROOM01";
    UpdateScore "ROOM01" "leo" (of_Z 1);
    HandleBuzz "ROOM01" "ana" 9000%Z ].

(** Ana hosts ROOM01, Bia hosts ROOM02, and Ana's session then joins
    ROOM02 as well. *)
Definition ops_two_rooms : list Op :=
  [ CreateRoom "ana" "Ana" (Some "ROOM01") "0.4fzyo82mvyr" 0%N;
    CreateRoom "bia" "Bia" (Some "ROOM02") "0.9x1k3p7qq2b" 1%N;
    AddPlayer "ana" "Ana" "ROOM02" 2%N ].

Definition two_rooms : GameManager :=
  Eval vm_compute in run SONGS ops_two_rooms initial.

(** Ana and Leo in ROOM01: ten rounds drawn, the tenth played and buzzed
    by Leo. *)
Definition ops_last_round : list Op :=
  [ CreateRoom "ana" "Ana" (Some "ROOM01") "0.4fzyo82mvyr" 0%N;
    AddPlayer "leo" "Leo" "ROOM01" 3%N ] ++
  replicate 10 (NextRound "ROOM01" quiet 1000%Z) ++
  [ StartRoundPlaying "ROOM01" 3000%Z; HandleBuzz "ROOM01" "leo" 3500%Z ].

Definition last_round : GameManager :=
  Eval vm_compute in run SONGS ops_last_round initial.

(** A catalog of ten items, as many as a game has rounds. *)
Definition track (sid ttl : string) : Song :=
  {| song_id := sid; song_type := intro; title := ttl; artist := "Queen";
     audioUrl := None; emojis := None; difficulty := easy; year := None;
     genre := None; lyrics := None |}.

Definition ten_tracks : list Song :=
  SONGS ++
  [ track "song-005" "Killer Queen"; track "song-006" "Somebody to Love";
    track "song-007" "Under Pressure"; track "song-008" "Radio Ga Ga";
    track "song-009" "I Want It All"; track "song-010" "Innuendo" ].

(** Ana and Leo in ROOM01 over [ten_tracks], first round drawn. *)
Definition ops_round_one : list Op :=
  [ CreateRoom "ana" "Ana" (Some "ROOM01") "0.4fzyo82mvyr" 0%N;
    AddPlayer "leo" "Leo" "ROOM01" 3%N;
    NextRound "ROOM01" quiet 1000%Z ].

Definition round_one : GameManager :=
  Eval vm_compute in run ten_tracks ops_round_one initial.

(** Ana hosts ROOM01 and Leo has joined; the game has not started. *)
Definition ops_lobby : list Op :=
  [ CreateRoom "ana" "Ana" (Some "ROOM01") "0.4fzyo82mvyr" 0%N;
    AddPlayer "leo" "Leo" "ROOM01" 3%N ].

Definition lobby : GameManager := Eval vm_compute in run SONGS ops_lobby initial.

(** ** Facts about [JsMap] *)

Module JsMapFacts.
Section facts.
Context {V : Type}.
Implicit Types (m : JsMap.t V) (k : string) (v : V).

Lemma has_true k m : JsMap.has k m = true ↔ is_Some (JsMap.get k m).
Proof.
  unfold JsMap.has. destruct (JsMap.get k m); split; try done; eauto.
Qed.

Lemma get_set k k' v m :
  JsMap.get k (JsMap.set k' v m) =
    if decide (k = k') then Some v else JsMap.get k m.
Proof.
  induction m as [|[k0 v0] m IH]; simpl.
  - repeat case_decide; congruence.
  - destruct (decide (k' = k0)) as [->|]; simpl.
    + repeat case_decide; congruence.
    + rewrite IH. repeat case_decide; congruence.
Qed.

Lemma get_delete k k' m :
  JsMap.get k (JsMap.delete k' m) =
    if decide (k = k') then None else JsMap.get k m.
Proof.
  induction m as [|[k0 v0] m IH]; simpl.
  - by case_decide.
  - destruct (decide (k' = k0)) as [->|]; simpl.
    + rewrite IH. repeat case_decide; congruence.
    + rewrite IH. repeat case_decide; congruence.
Qed.

Lemma get_None_keys k m : JsMap.get k m = None ↔ k ∉ JsMap.keys m.
Proof.
  unfold JsMap.keys. induction m as [|[k0 v0] m IH]; simpl.
  - split; [intros _; apply not_elem_of_nil | done].
  - rewrite not_elem_of_cons. case_decide; subst.
    + split; [done | by intros [? _]].
    + rewrite IH. split; [by intros ? | by intros [_ ?]].
Qed.

Lemma get_Some_keys k m : is_Some (JsMap.get k m) ↔ k ∈ JsMap.keys m.
Proof.
  destruct (JsMap.get k m) eqn:E.
  - split; [intros _ | eauto].
    destruct (decide (k ∈ JsMap.keys m)) as [|Hn]; [done |].
    apply get_None_keys in Hn. congruence.
  - split; [by intros [? ?] |].
    intros Hin. apply get_None_keys in E. done.
Qed.

Lemma keys_set_fresh k v m :
  JsMap.get k m = None → JsMap.keys (JsMap.set k v m) = JsMap.keys m ++ [k].
Proof.
  unfold JsMap.keys. induction m as [|[k0 v0] m IH]; simpl; [done |].
  destruct (decide (k = k0)) as [->|Hne]; [done |].
  intros E. simpl. f_equal. by apply IH.
Qed.

Lemma keys_delete_subseteq k m : JsMap.keys (JsMap.delete k m) ⊆ JsMap.keys m.
Proof.
  unfold JsMap.keys. induction m as [|[k0 v0] m IH]; simpl; [done |].
  case_decide; simpl.
  - intros x Hx. apply elem_of_cons. right. by apply IH.
  - intros x. rewrite !elem_of_cons. intros [->|Hx]; [by left |].
    right. by apply IH.
Qed.

Lemma NoDup_keys_set k v m :
  JsMap.get k m = None → NoDup (JsMap.keys m) → NoDup (JsMap.keys (JsMap.set k v m)).
Proof.
  intros E Hnd. rewrite keys_set_fresh by done.
  apply NoDup_app. split; [done |]. split.
  - intros x Hx. rewrite list_elem_of_singleton. intros ->.
    by apply get_None_keys in E.
  - apply NoDup_singleton.
Qed.

Lemma NoDup_keys_delete k m :
  NoDup (JsMap.keys m) → NoDup (JsMap.keys (JsMap.delete k m)).
Proof.
  unfold JsMap.keys. induction m as [|[k0 v0] m IH]; simpl; [done |].
  rewrite NoDup_cons. intros [Hk0 Hnd]. case_decide; [by apply IH |].
  simpl. apply NoDup_cons. split; [| by apply IH].
  intros Hin. apply Hk0. by apply (keys_delete_subseteq k m).
Qed.

(** The first value in iteration order is stored under the first key. *)
Lemma values_head m l0 rest :
  JsMap.values m = l0 :: rest → ∃ k0, JsMap.get k0 m = Some l0.
Proof.
  destruct m as [|[k0 v0] m]; simpl; [done |].
  intros [= -> _]. exists k0. by case_decide.
Qed.

Lemma values_nil m : JsMap.values m = [] → m = [].
Proof. by destruct m. Qed.
End facts.
End JsMapFacts.

(** ** The room-local methods *)

Lemma with_room_found {A : Type} code (body : GameRoom → outcome A * GameRoom) m room :
  rooms m !! code = Some room →
  with_room code body m = ((body room).1, put_room code (body room).2 m).
Proof. intros E. unfold with_room. rewrite E. by destruct (body room). Qed.

Lemma with_room_missing {A : Type} code (body : GameRoom → outcome A * GameRoom) m :
  rooms m !! code = None → with_room code body m = (Throw RoomNotFound, m).
Proof. intros E. unfold with_room. by rewrite E. Qed.

Lemma put_room_same code room m :
  rooms m !! code = Some room → put_room code room m = m.
Proof.
  intros E. destruct m as [rs ps h]. unfold put_room, set_rooms. simpl in *.
  by rewrite insert_id.
Qed.

Lemma lookup_put_room code room m c :
  rooms (put_room code room m) !! c =
    if decide (code = c) then Some room else rooms m !! c.
Proof. unfold put_room. simpl. apply lookup_insert. Qed.

Lemma same_members_refl room : same_members room room.
Proof. done. Qed.

Lemma startGame_room_local : room_local startGame_room.
Proof.
  intros room. unfold startGame_room.
  repeat case_decide; simpl; (split; [done |]); try done.
  intros (Ht & Hl & Hk). split; [done |]. simpl. split; [done |].
  intros round Hr. destruct (Hl ltac:(by destruct (state room))) as [Hn _].
  congruence.
Qed.

Section with_catalog.
Variable catalog : list Song.

Lemma nextRound_room_local draws now :
  room_local (nextRound_room catalog draws now).
Proof.
  intros room. unfold nextRound_room.
  pose proof (startGame_room_local room) as [Hs Hr].
  destruct (decide (state room = LOBBY)) as [HL|HL].
  - destruct (startGame_room room) as [[[]|e] room1] eqn:E; simpl in *;
      [| done].
    destruct Hs as (Hs1 & Hs2 & Hs3).
    case_decide.
    + simpl. split; [done |]. intros Hok. apply Hr in Hok as (Ht & _ & _).
      by repeat split.
    + destruct (select_song catalog draws (songsPlayed room1)) as [[s|] played];
        simpl; (split; [done |]); intros Hok; apply Hr in Hok as (Ht & Hl & Hk).
      * split; [done |]. split; [done |]. simpl. by intros ? [= <-].
      * done.
  - simpl. case_decide.
    + simpl. split; [done |]. intros (Ht & _ & _). by repeat split.
    + destruct (select_song catalog draws (songsPlayed room)) as [[s|] played];
        simpl; (split; [done |]); intros (Ht & Hl & Hk).
      * split; [done |]. split; [done |]. simpl. by intros ? [= <-].
      * done.
Qed.

Lemma resetRound_room_local draws now :
  room_local (resetRound_room catalog draws now).
Proof.
  intros room. unfold resetRound_room. case_decide as Hst; [| done].
  pose proof (nextRound_room_local draws now (set_currentRound None room))
    as [Hs Hr].
  split; [done |]. intros (Ht & Hl & Hk). apply Hr.
  split; [done |]. split; [| done].
  simpl. intros HL. destruct Hst; congruence.
Qed.
End with_catalog.

Lemma startRoundPlaying_room_local now : room_local (startRoundPlaying_room now).
Proof.
  intros room. unfold startRoundPlaying_room. case_decide; [done |].
  destruct (currentRound room) as [round|] eqn:E; [| done].
  simpl. split; [done |].
  intros (Ht & Hl & Hk). split; [done |]. split; [done |].
  simpl. intros ? [= <-]. simpl. by apply Hk.
Qed.

Lemma handleBuzz_room_local playerId now : room_local (handleBuzz_room playerId now).
Proof.
  intros room. unfold handleBuzz_room. case_decide; [done |].
  destruct (currentRound room) as [round|] eqn:E; [| done].
  destruct (buzzedPlayerId round); [done |]. simpl. split; [done |].
  intros (Ht & Hl & Hk). split; [done |]. split; [done |].
  simpl. intros ? [= <-]. simpl. by apply Hk.
Qed.

Lemma showRoundResult_room_local : room_local showRoundResult_room.
Proof.
  intros room. unfold showRoundResult_room. case_decide; [done |].
  simpl. split; [done |]. intros (Ht & Hl & Hk). by repeat split.
Qed.

(** ** Preservation of the invariants *)

Lemma heap_extends_app h p0 : heap_extends h (h ++ [p0]).
Proof.
  intros l p E. exists p. split; [| done].
  rewrite lookup_app_l; [done |]. by eapply lookup_lt_Some.
Qed.

Lemma heap_extends_alter_score h l f :
  heap_extends h (alter (λ p, set_score (f p) p) l h).
Proof.
  intros l' p E. destruct (decide (l = l')) as [->|Hne].
  - exists (set_score (f p) p). by rewrite list_lookup_alter_eq, E.
  - exists p. by rewrite list_lookup_alter_ne.
Qed.

Lemma refs_valid_heap m h' :
  heap_extends (heap m) h' → refs_valid m →
  refs_valid {| rooms := rooms m; players := players m; heap := h' |}.
Proof.
  intros Hext [Hp Hr]. split; simpl.
  - intros sid l E. destruct (Hp _ _ E) as (p & E1 & E2).
    destruct (Hext _ _ E1) as (p' & ? & ? & ? & ?). exists p'. split; [done | congruence].
  - intros code room sid l E1 E2. destruct (Hr _ _ _ _ E1 E2) as (p & E3 & E4).
    destruct (Hext _ _ E3) as (p' & ? & ? & ? & ?). exists p'. split; [done | congruence].
Qed.

Lemma with_room_invariant {A : Type} code (body : GameRoom → outcome A * GameRoom) m :
  room_local body → invariant m → invariant (with_room code body m).2.
Proof.
  intros Hlocal Hinv.
  destruct (rooms m !! code) as [room|] eqn:E;
    [rewrite (with_room_found _ _ _ _ E)
    | by rewrite (with_room_missing _ _ _ E)].
  destruct Hinv as [[Hp Hr] Hrooms]. simpl. destruct (Hlocal room) as [(Hid & Hhost & Hps) Hrounds].
  split; [split |]; simpl.
  - done.
  - intros c r sid l. rewrite lookup_insert. case_decide; subst.
    + intros [= <-]. rewrite Hps. apply (Hr _ _ _ _ E).
    + apply Hr.
  - intros c r. rewrite lookup_insert. case_decide; subst.
    + intros [= <-]. destruct (Hrooms _ _ E) as [(? & ? & ?) ?].
      split; [| by apply Hrounds]. unfold room_members_ok.
      rewrite Hid, Hhost, Hps. done.
    + apply Hrooms.
Qed.

Lemma createRoom_invariant host hostName desired idText avatarDraw m :
  invariant m → invariant (createRoom host hostName desired idText avatarDraw m).2.
Proof.
  intros Hinv. unfold createRoom.
  set (newRoomId := match desired with Some _ => _ | None => _ end).
  destruct (rooms m !! newRoomId) eqn:E; [done |]. simpl.
  destruct Hinv as [[Hp Hr] Hrooms].
  set (hostPlayer := {| player_id := host |}).
  pose proof (heap_extends_app (heap m) hostPlayer) as Hext.
  assert (Hnew : (heap m ++ [hostPlayer]) !! length (heap m) = Some hostPlayer).
  { rewrite lookup_app_r by lia. by rewrite Nat.sub_diag. }
  split; [split |]; simpl.
  - intros sid l. rewrite lookup_insert. case_decide; subst.
    + intros [= <-]. by exists hostPlayer.
    + intros E1. destruct (Hp _ _ E1) as (p & E2 & E3).
      destruct (Hext _ _ E2) as (p' & ? & ? & ? & ?). exists p'. split; [done | congruence].
  - intros c r sid l. rewrite lookup_insert. case_decide; subst.
    + intros [= <-]. simpl. case_decide; [| done]. intros [= <-]. subst.
      by exists hostPlayer.
    + intros E1 E2. destruct (Hr _ _ _ _ E1 E2) as (p & E3 & E4).
      destruct (Hext _ _ E3) as (p' & ? & ? & ? & ?). exists p'. split; [done | congruence].
  - intros c r. rewrite lookup_insert. case_decide; subst.
    + intros [= <-]. split.
      * split; [done |]. simpl. split.
        -- case_decide; [eauto | done].
        -- apply NoDup_singleton.
      * split; [done |]. simpl. by split.
    + apply Hrooms.
Qed.

Lemma addPlayer_invariant sid playerName code avatarDraw m :
  invariant m → invariant (addPlayer sid playerName code avatarDraw m).2.
Proof.
  intros Hinv. unfold addPlayer.
  destruct (rooms m !! code) as [room|] eqn:E; [| done].
  destruct (JsMap.get sid (room_players room)) eqn:Eget; [done |]. simpl.
  destruct Hinv as [[Hp Hr] Hrooms].
  set (player := {| player_id := sid |}).
  pose proof (heap_extends_app (heap m) player) as Hext.
  assert (Hnew : (heap m ++ [player]) !! length (heap m) = Some player).
  { rewrite lookup_app_r by lia. by rewrite Nat.sub_diag. }
  split; [split |]; simpl.
  - intros s l. rewrite lookup_insert. case_decide; subst.
    + intros [= <-]. by exists player.
    + intros E1. destruct (Hp _ _ E1) as (p & E2 & E3).
      destruct (Hext _ _ E2) as (p' & ? & ? & ? & ?). exists p'. split; [done | congruence].
  - intros c r s l. rewrite lookup_insert. case_decide; subst.
    + intros [= <-]. simpl. rewrite JsMapFacts.get_set. case_decide; subst.
      * intros [= <-]. by exists player.
      * intros E2. destruct (Hr _ _ _ _ E E2) as (p & E3 & E4).
        destruct (Hext _ _ E3) as (p' & ? & ? & ? & ?). exists p'.
        split; [done | congruence].
    + intros E1 E2. destruct (Hr _ _ _ _ E1 E2) as (p & E3 & E4).
      destruct (Hext _ _ E3) as (p' & ? & ? & ? & ?). exists p'. split; [done | congruence].
  - intros c r. rewrite lookup_insert. case_decide; subst.
    + intros [= <-]. destruct (Hrooms _ _ E) as [(Hid & Hhost & Hnd) Hrounds].
      split; [| done]. split; [done |]. simpl. split.
      * rewrite JsMapFacts.get_set. case_decide; [eauto | done].
      * by apply JsMapFacts.NoDup_keys_set.
    + apply Hrooms.
Qed.

Lemma updateScore_invariant code playerId points m :
  invariant m → invariant (updateScore code playerId points m).2.
Proof.
  intros [Hrefs Hrooms]. unfold updateScore.
  destruct (rooms m !! code) as [room|]; [| done].
  destruct (JsMap.get playerId (room_players room)) as [l|]; [| done].
  simpl. split; [| done].
  apply (refs_valid_heap m), Hrefs.
  apply (heap_extends_alter_score _ _ (λ p, Math_max (Finite 0) (number_add (score p) points))).
Qed.

Lemma giveScore_invariant code playerId scoreAmount m :
  invariant m → invariant (giveScore code playerId scoreAmount m).2.
Proof.
  intros Hinv. unfold giveScore.
  destruct (number_lt _ _ || number_lt _ _); [done |].
  by apply updateScore_invariant.
Qed.

(** Replacing a room by one with fewer members, the same round data and
    a host among the members that are left. *)
Lemma invariant_shrink_room m code room room' sid players' :
  invariant m →
  rooms m !! code = Some room →
  (∀ s l, players' !! s = Some l → players m !! s = Some l) →
  room_id room' = room_id room →
  room_players room' = JsMap.delete sid (room_players room) →
  is_Some (JsMap.get (hostId room') (room_players room')) →
  (room_rounds_ok room → room_rounds_ok room') →
  invariant {| rooms := <[code := room']> (rooms m); players := players';
               heap := heap m |}.
Proof.
  intros [[Hp Hr] Hrooms] E Hsub Hid Hps Hhost Hrounds.
  split; [split |]; simpl.
  - intros s l Es. apply Hp. by apply Hsub.
  - intros c r s l. rewrite lookup_insert. case_decide; subst.
    + intros [= <-]. rewrite Hps, JsMapFacts.get_delete.
      case_decide; [done |]. apply (Hr _ _ _ _ E).
    + apply Hr.
  - intros c r. rewrite lookup_insert. case_decide; subst.
    + intros [= <-]. destruct (Hrooms _ _ E) as [(? & ? & Hnd) ?].
      split; [| by apply Hrounds]. split; [congruence |]. split; [done |].
      rewrite Hps. by apply JsMapFacts.NoDup_keys_delete.
    + apply Hrooms.
Qed.

Lemma removePlayer_invariant sid m :
  invariant m → invariant (removePlayer sid m).2.
Proof.
  intros Hinv. unfold removePlayer.
  destruct (players m !! sid) as [l|] eqn:El; [| done].
  destruct (heap m !! l) as [player|] eqn:Ep; [| done].
  pose proof Hinv as [[Hp Hr] Hrooms].
  destruct (Hp _ _ El) as (p0 & Ep0 & Hsid).
  assert (p0 = player) as -> by congruence.
  assert (Hsub : ∀ s l', delete sid (players m) !! s = Some l' →
                         players m !! s = Some l').
  { intros s l'. rewrite lookup_delete. by case_decide. }
  destruct (rooms m !! roomId player) as [room|] eqn:Er.
  2: { simpl. split; [split |]; simpl; [| done | done].
       intros s l' Es. apply Hp. by apply Hsub. }
  destruct (Hrooms _ _ Er) as [(Hrid & Hhost & Hnd) Hrounds].
  case_decide as Hishost.
  - destruct (JsMap.values _) as [|l0 rest] eqn:Ev; simpl.
    + (* the room is deleted *)
      rewrite Hrid, delete_insert_eq.
      split; [split |]; simpl.
      * intros s l' Es. apply Hp. by apply Hsub.
      * intros c r s l'. rewrite lookup_delete. case_decide; [done |]. apply Hr.
      * intros c r. rewrite lookup_delete. case_decide; [done |]. apply Hrooms.
    + (* the host role moves to the first member left *)
      simpl in Ev. destruct (JsMapFacts.values_head _ _ _ Ev) as [k0 Ek0].
      pose proof Ek0 as Ek0'. rewrite JsMapFacts.get_delete in Ek0'.
      case_decide; [done |].
      destruct (Hr _ _ _ _ Er Ek0') as (newHost & -> & Hk0).
      eapply (invariant_shrink_room m _ room _ sid); try done.
      simpl. rewrite Hk0. by rewrite Ek0.
  - simpl. eapply (invariant_shrink_room m _ room _ sid); try done.
    simpl. rewrite JsMapFacts.get_delete. case_decide; [congruence | done].
Qed.

Section with_catalog.
Variable catalog : list Song.

Lemma initial_invariant : invariant initial.
Proof. split; [split |]; simpl; intros *; by rewrite ?lookup_empty. Qed.

Lemma exec_invariant o m : invariant m → invariant (exec catalog o m).
Proof.
  destruct o; simpl.
  - apply createRoom_invariant.
  - apply addPlayer_invariant.
  - apply removePlayer_invariant.
  - apply with_room_invariant, startGame_room_local.
  - apply with_room_invariant, nextRound_room_local.
  - apply with_room_invariant, startRoundPlaying_room_local.
  - apply with_room_invariant, handleBuzz_room_local.
  - apply with_room_invariant, showRoundResult_room_local.
  - apply updateScore_invariant.
  - apply giveScore_invariant.
  - apply with_room_invariant, resetRound_room_local.
Qed.

Lemma reachable_invariant m : reachable catalog m → invariant m.
Proof.
  induction 1 as [|o m _ IH]; [apply initial_invariant | by apply exec_invariant].
Qed.

(** No reference in a reachable state dangles. *)
Lemma reachable_refs m : reachable catalog m → refs_valid m.
Proof. intros H. by apply reachable_invariant. Qed.

Lemma reachable_run ops m : reachable catalog m → reachable catalog (run catalog ops m).
Proof.
  revert m. induction ops as [|o ops IH]; intros m Hm; simpl; [done |].
  apply IH. by constructor.
Qed.
End with_catalog.

(** The scenarios are reachable states. *)

Lemma solo_reachable : reachable SONGS solo.
Proof.
  assert (solo = run SONGS ops_solo initial) as -> by (vm_compute; reflexivity).
  apply reachable_run. constructor.
Qed.

Lemma two_rooms_reachable : reachable SONGS two_rooms.
Proof.
  assert (two_rooms = run SONGS ops_two_rooms initial) as ->
    by (vm_compute; reflexivity).
  apply reachable_run. constructor.
Qed.

Lemma playing_reachable : reachable SONGS playing.
Proof.
  assert (playing = run SONGS ops_playing initial) as ->
    by (vm_compute; reflexivity).
  apply reachable_run. constructor.
Qed.

Lemma locked_reachable : reachable SONGS locked.
Proof.
  assert (locked = run SONGS ops_locked initial) as ->
    by (vm_compute; reflexivity).
  apply reachable_run. constructor.
Qed.

Lemma round_one_reachable : reachable ten_tracks round_one.
Proof.
  assert (round_one = run ten_tracks ops_round_one initial) as ->
    by (vm_compute; reflexivity).
  apply reachable_run. constructor.
Qed.

Lemma last_round_reachable : reachable SONGS last_round.
Proof.
  assert (last_round = run SONGS ops_last_round initial) as ->
    by (vm_compute; reflexivity).
  apply reachable_run. constructor.
Qed.

(** ** The buzz race *)

Lemma handleBuzz_room_closed playerId now room :
  state room ≠ ROUND_PLAYING ∨ currentRound room = None ∨
    (∃ round p, currentRound room = Some round ∧ buzzedPlayerId round = Some p) →
  handleBuzz_room playerId now room = (Return false, room).
Proof.
  unfold handleBuzz_room. intros [H|[H|(round & p & H1 & H2)]].
  - by case_decide.
  - case_decide; [done |]. by rewrite H.
  - case_decide; [done |]. by rewrite H1, H2.
Qed.

Lemma handleBuzz_room_open playerId now room round :
  state room = ROUND_PLAYING → currentRound room = Some round →
  buzzedPlayerId round = None →
  handleBuzz_room playerId now room =
    (Return true,
     set_room_state ROUND_LOCKED
       (set_currentRound (Some (set_buzz playerId now round)) room)).
Proof.
  unfold handleBuzz_room. intros H1 H2 H3. case_decide; [done |].
  by rewrite H2, H3.
Qed.

Lemma handleBuzz_closed code playerId now m room :
  rooms m !! code = Some room →
  state room ≠ ROUND_PLAYING ∨ currentRound room = None ∨
    (∃ round p, currentRound room = Some round ∧ buzzedPlayerId round = Some p) →
  handleBuzz code playerId now m = (Return false, m).
Proof.
  intros E Hclosed. unfold handleBuzz.
  rewrite (with_room_found _ _ _ _ E), handleBuzz_room_closed by done.
  simpl. by rewrite put_room_same.
Qed.

(** C1 (as amended). [handleBuzz] throws RoomNotFound when there is no
    such room. For a room that exists it returns [false], changing
    nothing and throwing nothing, when the state is not ROUND_PLAYING,
    when there is no round, or when a buzz is already recorded; and it
    returns [true] when the round is playing and unbuzzed, recording the
    caller and the time of the call, moving the room to ROUND_LOCKED and
    touching nothing else, after which a further call returns [false]. *)
Theorem handleBuzz_outcome code playerId now m :
  (rooms m !! code = None →
     handleBuzz code playerId now m = (Throw RoomNotFound, m)) ∧
  (∀ room, rooms m !! code = Some room →
     state room ≠ ROUND_PLAYING ∨ currentRound room = None ∨
       (∃ round p, currentRound room = Some round ∧
                   buzzedPlayerId round = Some p) →
     handleBuzz code playerId now m = (Return false, m)) ∧
  (∀ room round, rooms m !! code = Some room →
     state room = ROUND_PLAYING → currentRound room = Some round →
     buzzedPlayerId round = None →
     ∃ room' round',
       handleBuzz code playerId now m = (Return true, put_room code room' m) ∧
       state room' = ROUND_LOCKED ∧
       currentRound room' = Some round' ∧
       buzzedPlayerId round' = Some playerId ∧ buzzTime round' = Some now ∧
       song round' = song round ∧ startTime round' = startTime round ∧
       isKaraoke round' = isKaraoke round ∧
       same_members room room' ∧ roundNumber room' = roundNumber room ∧
       totalRounds room' = totalRounds room ∧
       songsPlayed room' = songsPlayed room ∧
       ∀ other later,
         handleBuzz code other later (put_room code room' m) =
           (Return false, put_room code room' m)).
Proof.
  split; [| split].
  - apply with_room_missing.
  - intros room. apply handleBuzz_closed.
  - intros room round E Hst Hround Hnone. unfold handleBuzz.
    rewrite (with_room_found _ _ _ _ E).
    rewrite (handleBuzz_room_open _ _ _ _ Hst Hround Hnone). simpl.
    eexists _, _. split; [done |]. repeat (split; [done |]).
    intros other later.
    assert (E' : rooms (put_room code
                   (set_room_state ROUND_LOCKED
                      (set_currentRound (Some (set_buzz playerId now round)) room))
                   m) !! code =
                 Some (set_room_state ROUND_LOCKED
                      (set_currentRound (Some (set_buzz playerId now round)) room))).
    { rewrite lookup_put_room. by case_decide. }
    apply (handleBuzz_closed _ _ _ _ _ E'). by left.
Qed.

(** A buzz for a room that does not exist is a thrown error, not a
    [false]. *)
Lemma handleBuzz_unknown_room_throws :
  rooms initial !! "ROOM01" = None ∧
  (handleBuzz "ROOM01" "leo" 3500%Z initial).1 = Throw RoomNotFound ∧
  (handleBuzz "ROOM01" "leo" 3500%Z initial).1 ≠ Return false.
Proof. split; [done |]. split; [done |]. discriminate. Qed.

Lemma handleBuzz_outcome_witness :
  reachable SONGS playing ∧
  ∃ room round room',
    rooms playing !! "ROOM01" = Some room ∧
    state room = ROUND_PLAYING ∧ currentRound room = Some round ∧
    buzzedPlayerId round = None ∧
    handleBuzz "ROOM01" "leo" 3500%Z playing =
      (Return true, put_room "ROOM01" room' playing) ∧
    state room' = ROUND_LOCKED ∧
    (buzzedPlayerId <$> currentRound room') = Some (Some "leo").
Proof.
  split; [exact playing_reachable |].
  destruct (handleBuzz_outcome "ROOM01" "leo" 3500%Z playing) as (_ & _ & Hopen).
  eexists _, _.
  assert (E : rooms playing !! "ROOM01" = Some _) by (vm_compute; reflexivity).
  destruct (Hopen _ _ E eq_refl eq_refl eq_refl)
    as (room' & round' & H1 & H2 & H3 & H4 & _).
  exists room'. repeat (split; [first [exact E | eassumption | reflexivity] |]).
  rewrite H3. simpl. by rewrite H4.
Defined.

(** C10. [handleBuzz] does not look at who is buzzing: in a room that is
    playing a round nobody has buzzed in, a call with any identifier
    whatsoever, member of the room or not, returns [true] and records
    that identifier as the winner of the round. *)
Theorem handleBuzz_ignores_membership code playerId now m room round :
  rooms m !! code = Some room →
  state room = ROUND_PLAYING →
  currentRound room = Some round →
  buzzedPlayerId round = None →
  (handleBuzz code playerId now m).1 = Return true ∧
  ∃ room' round',
    rooms (handleBuzz code playerId now m).2 !! code = Some room' ∧
    state room' = ROUND_LOCKED ∧
    currentRound room' = Some round' ∧
    buzzedPlayerId round' = Some playerId.
Proof.
  intros E Hst Hround Hnone. unfold handleBuzz.
  rewrite (with_room_found _ _ _ _ E).
  rewrite (handleBuzz_room_open _ _ _ _ Hst Hround Hnone). simpl.
  split; [done |]. eexists _, _. rewrite lookup_insert_eq. done.
Qed.

(** "zoe" never joined anything, and still wins the round of ROOM01. *)
Lemma handleBuzz_ignores_membership_witness :
  reachable SONGS playing ∧
  players playing !! "zoe" = None ∧
  ∃ room,
    rooms playing !! "ROOM01" = Some room ∧
    JsMap.get "zoe" (room_players room) = None ∧
    (handleBuzz "ROOM01" "zoe" 3500%Z playing).1 = Return true ∧
    ∃ room' round',
      rooms (handleBuzz "ROOM01" "zoe" 3500%Z playing).2 !! "ROOM01" = Some room' ∧
      state room' = ROUND_LOCKED ∧
      currentRound room' = Some round' ∧
      buzzedPlayerId round' = Some "zoe".
Proof.
  split; [exact playing_reachable |].
  split; [vm_compute; reflexivity |]. eexists.
  assert (E : rooms playing !! "ROOM01" = Some _) by (vm_compute; reflexivity).
  split; [exact E |]. split; [reflexivity |].
  exact (handleBuzz_ignores_membership "ROOM01" "zoe" 3500%Z playing _ _
           E eq_refl eq_refl eq_refl).
Defined.

(** *** The winner of a round cannot change *)

Lemma startGame_keeps_buzz : keeps_buzz startGame_room.
Proof.
  intros room round'. unfold startGame_room.
  repeat case_decide; simpl; intros E; exists round'; by split.
Qed.

Lemma startRoundPlaying_keeps_buzz now : keeps_buzz (startRoundPlaying_room now).
Proof.
  intros room round'. unfold startRoundPlaying_room.
  case_decide; [intros E; exists round'; by split |].
  destruct (currentRound room) as [round|] eqn:E; [| simpl; by rewrite E].
  simpl. intros [= <-]. by exists round.
Qed.

Lemma handleBuzz_keeps_buzz playerId now : keeps_buzz (handleBuzz_room playerId now).
Proof.
  intros room round'. unfold handleBuzz_room.
  case_decide; [intros E; exists round'; by split |].
  destruct (currentRound room) as [round|] eqn:E; [| simpl; by rewrite E].
  destruct (buzzedPlayerId round) eqn:Eb; simpl.
  - rewrite E. intros [= <-]. by exists round.
  - intros [= <-]. exists round. split; [done |]. congruence.
Qed.

Lemma showRoundResult_keeps_buzz : keeps_buzz showRoundResult_room.
Proof.
  intros room round'. unfold showRoundResult_room.
  case_decide; simpl; intros E; exists round'; by split.
Qed.

Lemma with_room_winner_is {A : Type} c (body : GameRoom → outcome A * GameRoom)
    code winner t m :
  keeps_buzz body → winner_is code winner t m →
  winner_is code winner t (with_room c body m).2.
Proof.
  intros Hkeep Hw.
  destruct (rooms m !! c) as [room|] eqn:E;
    [rewrite (with_room_found _ _ _ _ E)
    | by rewrite (with_room_missing _ _ _ E)].
  simpl. intros room' round'. rewrite lookup_put_room. case_decide; subst.
  - intros [= <-] Hr. destruct (Hkeep _ _ Hr) as (round & Hround & Hsame).
    destruct (Hw _ _ E Hround) as [Hb Ht].
    destruct (Hsame _ Hb). split; congruence.
  - apply Hw.
Qed.

Lemma with_room_other_winner_is {A : Type} c (body : GameRoom → outcome A * GameRoom)
    code winner t m :
  c ≠ code → winner_is code winner t m →
  winner_is code winner t (with_room c body m).2.
Proof.
  intros Hne Hw.
  destruct (rooms m !! c) as [room|] eqn:E;
    [rewrite (with_room_found _ _ _ _ E)
    | by rewrite (with_room_missing _ _ _ E)].
  simpl. intros room' round'. rewrite lookup_put_room.
  case_decide; [done | apply Hw].
Qed.

Lemma createRoom_winner_is host hostName desired idText avatarDraw code winner t m :
  winner_is code winner t m →
  winner_is code winner t (createRoom host hostName desired idText avatarDraw m).2.
Proof.
  intros Hw. unfold createRoom.
  set (newRoomId := match desired with Some _ => _ | None => _ end).
  destruct (rooms m !! newRoomId) eqn:E; [done |]. simpl.
  intros room round. simpl. rewrite lookup_insert. case_decide; subst.
  - by intros [= <-].
  - apply Hw.
Qed.

Lemma addPlayer_winner_is sid playerName c avatarDraw code winner t m :
  winner_is code winner t m →
  winner_is code winner t (addPlayer sid playerName c avatarDraw m).2.
Proof.
  intros Hw. unfold addPlayer.
  destruct (rooms m !! c) as [room|] eqn:E; [| done].
  destruct (JsMap.get sid (room_players room)); [done |]. simpl.
  intros room' round. simpl. rewrite lookup_insert. case_decide; subst.
  - intros [= <-]. simpl. by apply Hw.
  - apply Hw.
Qed.

Lemma removePlayer_winner_is sid code winner t m :
  winner_is code winner t m → winner_is code winner t (removePlayer sid m).2.
Proof.
  intros Hw. unfold removePlayer.
  destruct (players m !! sid) as [l|]; [| done].
  destruct (heap m !! l) as [player|]; [| done].
  destruct (rooms m !! roomId player) as [room|] eqn:Er; [| done].
  assert (Hins : ∀ room', currentRound room' = currentRound room →
            winner_is code winner t
              {| rooms := <[roomId player := room']> (rooms m);
                 players := delete sid (players m); heap := heap m |}).
  { intros room' Hsame r round. simpl. rewrite lookup_insert.
    case_decide; subst.
    - intros [= <-]. rewrite Hsame. by apply Hw.
    - apply Hw. }
  case_decide; [| by apply Hins].
  destruct (JsMap.values _) as [|l0 rest]; simpl.
  - intros r round. simpl. rewrite lookup_delete. case_decide; [done |].
    rewrite lookup_insert. case_decide; subst.
    + intros [= <-]. simpl. by apply Hw.
    + apply Hw.
  - apply Hins. by destruct (heap m !! l0).
Qed.

Lemma updateScore_rooms c playerId points m :
  rooms (updateScore c playerId points m).2 = rooms m.
Proof.
  unfold updateScore. destruct (rooms m !! c) as [room|]; [| done].
  by destruct (JsMap.get playerId (room_players room)).
Qed.

Lemma giveScore_rooms c playerId scoreAmount m :
  rooms (giveScore c playerId scoreAmount m).2 = rooms m.
Proof. unfold giveScore. destruct (number_lt _ _ || number_lt _ _); [done | apply updateScore_rooms]. Qed.

Section with_catalog.
Variable catalog : list Song.

Lemma exec_winner_is o code winner t m :
  round_untouched_by code o → winner_is code winner t m →
  winner_is code winner t (exec catalog o m).
Proof.
  destruct o; simpl; intros Hun Hw.
  - by apply createRoom_winner_is.
  - by apply addPlayer_winner_is.
  - by apply removePlayer_winner_is.
  - by apply with_room_winner_is, Hw; apply startGame_keeps_buzz.
  - by apply with_room_other_winner_is.
  - by apply with_room_winner_is, Hw; apply startRoundPlaying_keeps_buzz.
  - by apply with_room_winner_is, Hw; apply handleBuzz_keeps_buzz.
  - by apply with_room_winner_is, Hw; apply showRoundResult_keeps_buzz.
  - unfold winner_is. by rewrite updateScore_rooms.
  - unfold winner_is. by rewrite giveScore_rooms.
  - by apply with_room_other_winner_is.
Qed.

Lemma run_winner_is ops code winner t m :
  Forall (round_untouched_by code) ops → winner_is code winner t m →
  winner_is code winner t (run catalog ops m).
Proof.
  intros Hops. revert m. induction Hops as [|o ops Ho _ IH]; intros m Hw; [done |].
  simpl. apply IH. by apply exec_winner_is.
Qed.

(** C2. Once a buzz is recorded in the round of a room, then after any
    calls that do not replace that round (any calls but [nextRound] and
    [resetRound] on that room), the round found in the room still names
    the same winner with the same buzz time, and [handleBuzz] on it
    returns [false] and changes nothing. *)
Theorem buzz_winner_is_final code winner m room round ops :
  rooms m !! code = Some room →
  currentRound room = Some round →
  buzzedPlayerId round = Some winner →
  Forall (round_untouched_by code) ops →
  ∀ room' round',
    rooms (run catalog ops m) !! code = Some room' →
    currentRound room' = Some round' →
    buzzedPlayerId round' = Some winner ∧
    buzzTime round' = buzzTime round ∧
    ∀ playerId now,
      handleBuzz code playerId now (run catalog ops m) =
        (Return false, run catalog ops m).
Proof.
  intros E Hround Hb Hops room' round' E' Hround'.
  assert (Hw : winner_is code winner (buzzTime round) m).
  { intros r rd Er Hrd. split; congruence. }
  destruct (run_winner_is _ _ _ _ _ Hops Hw _ _ E' Hround') as [Hb' Ht'].
  split; [done |]. split; [done |]. intros playerId now.
  apply (handleBuzz_closed _ _ _ _ _ E'). right. right. by exists round', winner.
Qed.
End with_catalog.

Lemma buzz_winner_is_final_witness :
  reachable SONGS locked ∧
  ∃ room round room' round',
    rooms locked !! "ROOM01" = Some room ∧
    currentRound room = Some round ∧
    buzzedPlayerId round = Some "leo" ∧
    buzzTime round = Some 3500%Z ∧
    rooms (run SONGS ops_after_buzz locked) !! "ROOM01" = Some room' ∧
    currentRound room' = Some round' ∧
    buzzedPlayerId round' = Some "leo" ∧
    buzzTime round' = Some 3500%Z ∧
    handleBuzz "ROOM01" "ana" 9500%Z (run SONGS ops_after_buzz locked) =
      (Return false, run SONGS ops_after_buzz locked).
Proof.
  split; [exact locked_reachable |]. eexists _, _, _, _.
  assert (E : rooms locked !! "ROOM01" = Some _) by (vm_compute; reflexivity).
  assert (E' : rooms (run SONGS ops_after_buzz locked) !! "ROOM01" = Some _)
    by (vm_compute; reflexivity).
  assert (Hops : Forall (round_untouched_by "ROOM01") ops_after_buzz)
    by (repeat constructor).
  destruct (buzz_winner_is_final SONGS "ROOM01" "leo" locked _ _ ops_after_buzz
              E eq_refl eq_refl Hops _ _ E' eq_refl) as (H1 & H2 & H3).
  split; [exact E |]. split; [reflexivity |]. split; [reflexivity |].
  split; [reflexivity |]. split; [exact E' |]. split; [reflexivity |].
  split; [exact H1 |]. split; [exact H2 |]. apply H3.
Defined.

(** ** Membership *)

Lemma removePlayer_last sid l player room m :
  invariant m →
  players m !! sid = Some l → heap m !! l = Some player →
  rooms m !! roomId player = Some room →
  JsMap.delete sid (room_players room) = [] →
  (removePlayer sid m).1 = (None, Some l) ∧
  rooms (removePlayer sid m).2 !! roomId player = None.
Proof.
  intros [[Hp _] Hrooms] El Ep Er Hempty.
  destruct (Hp _ _ El) as (p0 & Ep0 & Hsid).
  assert (p0 = player) as -> by congruence.
  destruct (Hrooms _ _ Er) as [(Hrid & Hhost & _) _].
  assert (Hh : hostId room = sid).
  { destruct (decide (hostId room = sid)) as [|Hne]; [done |]. exfalso.
    assert (Hg : JsMap.get (hostId room) (JsMap.delete sid (room_players room)) = None)
      by by rewrite Hempty.
    rewrite JsMapFacts.get_delete in Hg. case_decide; [done |].
    rewrite Hg in Hhost. by destruct Hhost. }
  unfold removePlayer. rewrite El, Ep, Er. simpl.
  case_decide; [| congruence]. rewrite Hempty. simpl.
  split; [done |]. rewrite Hrid. apply lookup_delete_eq.
Qed.

Section with_catalog.
Variable catalog : list Song.

(** C3. In every reachable state, every registered room has its host
    among its members, hence at least one member, and so has the state
    after any further call; and when [removePlayer] takes the last member
    out of a room, the room leaves the registry in that same call, which
    returns no room. *)
Theorem rooms_never_empty m :
  reachable catalog m →
  (∀ code room, rooms m !! code = Some room →
     JsMap.has (hostId room) (room_players room) = true ∧
     0 < JsMap.size (room_players room)) ∧
  (∀ o code room, rooms (exec catalog o m) !! code = Some room →
     0 < JsMap.size (room_players room)) ∧
  (∀ sid l player room,
     players m !! sid = Some l → heap m !! l = Some player →
     rooms m !! roomId player = Some room →
     JsMap.delete sid (room_players room) = [] →
     (removePlayer sid m).1 = (None, Some l) ∧
     rooms (removePlayer sid m).2 !! roomId player = None).
Proof.
  intros Hreach.
  assert (Hmem : ∀ m', invariant m' → ∀ code room,
            rooms m' !! code = Some room →
            JsMap.has (hostId room) (room_players room) = true ∧
            0 < JsMap.size (room_players room)).
  { intros m' [_ Hrooms] code room E.
    destruct (Hrooms _ _ E) as [(_ & Hhost & _) _].
    split; [by apply JsMapFacts.has_true |].
    destruct Hhost as [l Hl]. unfold JsMap.size.
    destruct (room_players room); [done | simpl; lia]. }
  pose proof (reachable_invariant _ _ Hreach) as Hinv.
  split; [by apply Hmem |]. split.
  - intros o code room E. by apply (Hmem _ (exec_invariant catalog o m Hinv) code).
  - intros sid l player room. by apply removePlayer_last.
Qed.

End with_catalog.

Lemma rooms_never_empty_witness :
  reachable SONGS solo ∧
  ∃ room,
    rooms solo !! "ROOM01" = Some room ∧
    JsMap.has (hostId room) (room_players room) = true ∧
    0 < JsMap.size (room_players room) ∧
    (removePlayer "ana" solo).1 = (None, Some 0) ∧
    rooms (removePlayer "ana" solo).2 !! "ROOM01" = None.
Proof.
  split; [exact solo_reachable |].
  destruct (rooms_never_empty SONGS solo solo_reachable) as (Hmem & _ & Hlast).
  eexists.
  assert (E : rooms solo !! "ROOM01" = Some _) by (vm_compute; reflexivity).
  split; [exact E |]. destruct (Hmem _ _ E) as [H1 H2].
  split; [exact H1 |]. split; [exact H2 |].
  eapply (Hlast "ana" 0); [vm_compute; reflexivity .. | reflexivity].
Defined.


(** ** Rounds *)

(** Rounding to the nearest integer overshoots by half a unit at most. *)
Lemma nearest_even_upper a b :
  (0 ≤ a)%Z → (0 < b)%Z → (2 * b * nearest_even a b ≤ 2 * a + b)%Z.
Proof.
  intros Ha Hb. unfold nearest_even.
  pose proof (Z.div_mod a b ltac:(lia)) as Hdm.
  pose proof (Z.mod_pos_bound a b Hb) as Hm.
  destruct (Z.compare_spec (2 * (a mod b)) b) as [Heq|Hlt|Hgt];
    [destruct (Z.even (a / b)) | |]; nia.
Qed.

Lemma nearest_even_nonneg a b : (0 ≤ a)%Z → (0 < b)%Z → (0 ≤ nearest_even a b)%Z.
Proof.
  intros Ha Hb. unfold nearest_even.
  pose proof (Z.div_pos a b Ha Hb).
  destruct (2 * (a mod b) ?= b)%Z; [destruct (Z.even (a / b)) | |]; lia.
Qed.

Lemma round53_upper p n :
  (0 ≤ p)%Z → (0 < n)%Z → (p ≤ (2 ^ 53 - 1) * n)%Z → (round53 p < 2 ^ 53 * n)%Z.
Proof.
  intros Hp Hn Hle. unfold round53.
  destruct (Z.leb_spec (Z.log2 p - 52) 0) as [Hs|Hs]; [lia |].
  set (s := (Z.log2 p - 52)%Z) in *.
  assert (Hpos : (0 < p)%Z).
  { destruct (Z.eq_dec p 0%Z) as [Hz|]; [| lia]. unfold s in Hs. rewrite Hz in Hs. simpl in Hs. lia. }
  pose proof (Z.log2_spec p Hpos) as [Hlow _].
  assert (Hlog : Z.log2 p = (s - 1 + 53)%Z) by lia.
  rewrite Hlog in Hlow. rewrite Z.pow_add_r in Hlow by lia.
  assert (H2s : (2 ^ s = 2 * 2 ^ (s - 1))%Z).
  { rewrite <- Z.pow_succ_r by lia. f_equal. lia. }
  assert (Hpow : (0 < 2 ^ (s - 1))%Z) by (apply Z.pow_pos_nonneg; lia).
  pose proof (nearest_even_upper p (2 ^ s) ltac:(lia) ltac:(lia)) as Hup.
  nia.
Qed.

Lemma floor_random_times_lt r n : 0 < n → floor_random_times r n < n.
Proof.
  intros Hn. unfold floor_random_times, mantissa.
  pose proof (N.mod_upper_bound r (2 ^ 53)%N ltac:(done)) as Hm.
  set (k := Z.of_N (r mod 2 ^ 53)).
  assert (Hk : (0 ≤ k < 2 ^ 53)%Z).
  { unfold k. split; [apply N2Z.is_nonneg |]. change (2 ^ 53)%Z with (Z.of_N (2 ^ 53)). apply N2Z.inj_lt, Hm. }
  assert (Hround : (round53 (k * Z.of_nat n) < 2 ^ 53 * Z.of_nat n)%Z).
  { apply round53_upper; nia. }
  assert (Hnonneg : (0 ≤ round53 (k * Z.of_nat n))%Z).
  { unfold round53. destruct (Z.leb_spec (Z.log2 (k * Z.of_nat n) - 52) 0); [nia |].
    apply Z.mul_nonneg_nonneg; [| apply Z.pow_nonneg; lia].
    apply nearest_even_nonneg; [nia |]. apply Z.pow_pos_nonneg; lia. }
  assert ((round53 (k * Z.of_nat n) / 2 ^ 53 < Z.of_nat n)%Z).
  { apply Z.div_lt_upper_bound; lia. }
  pose proof (Z.div_pos (round53 (k * Z.of_nat n)) (2 ^ 53) Hnonneg ltac:(done)).
  lia.
Qed.

(** [getRandomSong] reads [undefined] only from an empty catalog. *)
Lemma getRandomSong_None catalog r : getRandomSong catalog r = None → catalog = [].
Proof.
  unfold getRandomSong. intros E. destruct catalog as [|s catalog]; [done |].
  apply lookup_ge_None in E.
  pose proof (floor_random_times_lt r (length (s :: catalog)) ltac:(simpl; lia)).
  lia.
Qed.

Section with_catalog.
Variable catalog : list Song.

Lemma select_loop_None draws left k played :
  (select_loop catalog draws left k played).1 = None → catalog = [].
Proof.
  revert k. induction left as [|left IH]; intros k; simpl.
  - apply getRandomSong_None.
  - destruct (getRandomSong catalog (draws k)) as [s|] eqn:E;
      [| intros _; by eapply getRandomSong_None].
    case_bool_decide; [apply IH | done].
Qed.

(** Either the loop stops at a draw that is not in [played], which it
    leaves as it is, or every tested draw was in [played], and then the
    list is emptied and the draw after the discarded one is taken. *)
Lemma select_loop_cases draws left k played :
  ((select_loop catalog draws left k played).2 = played ∧
   ∀ s, (select_loop catalog draws left k played).1 = Some s →
        song_id s ∉ played) ∨
  ((∀ j, k ≤ j < k + left →
      ∃ s, getRandomSong catalog (draws j) = Some s ∧ song_id s ∈ played) ∧
   select_loop catalog draws left k played =
     (getRandomSong catalog (draws (S (k + left))), [])).
Proof.
  revert k. induction left as [|left IH]; intros k; simpl.
  - right. split; [intros j ?; lia |]. by rewrite Nat.add_0_r.
  - destruct (getRandomSong catalog (draws k)) as [s|] eqn:E.
    + case_bool_decide as Hin.
      * destruct (IH (S k)) as [Hfresh|[Hall Heq]]; [by left |]. right. split.
        -- intros j Hj. destruct (decide (j = k)) as [->|]; [by exists s |].
           apply Hall. lia.
        -- rewrite Heq. do 3 f_equal. lia.
      * left. simpl. split; [done |]. by intros ? [= <-].
    + left. by split.
Qed.
End with_catalog.

Section with_catalog.
Variable catalog : list Song.

Lemma select_loop_in_catalog draws left k played s :
  (select_loop catalog draws left k played).1 = Some s → s ∈ catalog.
Proof.
  revert k. induction left as [|left IH]; intros k; simpl.
  - unfold getRandomSong. apply list_elem_of_lookup_2.
  - destruct (getRandomSong catalog (draws k)) as [s'|] eqn:E; [| done].
    case_bool_decide; [apply IH |]. simpl. intros [= <-].
    by eapply list_elem_of_lookup_2.
Qed.

Lemma nextRound_room_unfold draws now room :
  nextRound_room catalog draws now room =
    if decide (state room = LOBBY) then
      if decide (JsMap.size (room_players room) < 2) then
        (Throw InsufficientPlayers, room)
      else
        advance_round catalog draws now
          (set_songsPlayed [] (set_roundNumber 0 (set_room_state ROUND_LOADING room)))
    else advance_round catalog draws now room.
Proof.
  unfold nextRound_room, advance_round, startGame_room.
  destruct (decide (state room = LOBBY)) as [HL|HL].
  - destruct (decide (state room ≠ LOBBY)); [done |].
    case_decide; [done |]. simpl.
    case_decide; [done |].
    by destruct (select_song catalog draws []) as [[s|] played].
  - case_decide; [done |].
    by destruct (select_song catalog draws (songsPlayed room)) as [[s|] played].
Qed.

Lemma advance_round_game_over draws now room :
  totalRounds room ≤ roundNumber room →
  advance_round catalog draws now room =
    (Return (), set_currentRound None (set_room_state GAME_OVER room)).
Proof. intros H. unfold advance_round. by case_decide. Qed.

Lemma advance_round_selection draws now room :
  ((advance_round catalog draws now room).1 = Throw NoContentAvailable → catalog = []) ∧
  (∀ round,
     (advance_round catalog draws now room).1 = Return () →
     currentRound (advance_round catalog draws now room).2 = Some round →
     song round ∈ catalog ∧
     isKaraoke round =
       Some (bool_decide (roundNumber (advance_round catalog draws now room).2 =
                          totalRounds (advance_round catalog draws now room).2)) ∧
     (((song_id (song round) ∉ songsPlayed room) ∧
       songsPlayed (advance_round catalog draws now room).2 =
         (songsPlayed room ++ [song_id (song round)])) ∨
      ((∀ k, k < maxAttempts - 1 →
          ∃ s, getRandomSong catalog (draws k) = Some s ∧
               song_id s ∈ songsPlayed room) ∧
       songsPlayed (advance_round catalog draws now room).2 = [song_id (song round)]))).
Proof.
  unfold advance_round. case_decide; [by split |].
  pose proof (select_loop_None catalog draws (maxAttempts - 1) 0 (songsPlayed room)) as HNone.
  pose proof (select_loop_in_catalog draws (maxAttempts - 1) 0 (songsPlayed room)) as Hin.
  pose proof (select_loop_cases catalog draws (maxAttempts - 1) 0 (songsPlayed room)) as Hcases.
  unfold select_song.
  destruct (select_loop catalog draws (maxAttempts - 1) 0 (songsPlayed room))
    as [[s|] played] eqn:E; simpl in *.
  - split; [done |]. intros round _ [= <-]. simpl.
    split; [by apply Hin |]. split; [done |].
    destruct Hcases as [[-> Hfresh]|[Hall [= _ ->]]].
    + left. split; [by apply Hfresh | done].
    + right. split; [| done]. intros k Hk. apply Hall. lia.
  - split; [intros _; by apply HNone | done].
Qed.
(** Which draw the loop ends on: the first of the 99 tested draws that
    is not in [played], or, when all of them are, the draw after the one
    that is discarded. *)
Lemma select_loop_pinned draws left k played :
  (∃ j, k ≤ j < k + left ∧
        (∀ i, k ≤ i < j →
           ∃ s, getRandomSong catalog (draws i) = Some s ∧ song_id s ∈ played) ∧
        (∀ s, getRandomSong catalog (draws j) = Some s → song_id s ∉ played) ∧
        select_loop catalog draws left k played =
          (getRandomSong catalog (draws j), played)) ∨
  ((∀ i, k ≤ i < k + left →
      ∃ s, getRandomSong catalog (draws i) = Some s ∧ song_id s ∈ played) ∧
   select_loop catalog draws left k played =
     (getRandomSong catalog (draws (S (k + left))), [])).
Proof.
  revert k. induction left as [|left IH]; intros k; simpl.
  - right. split; [intros i ?; lia |]. by rewrite Nat.add_0_r.
  - destruct (getRandomSong catalog (draws k)) as [s|] eqn:E.
    + case_bool_decide as Hin.
      * destruct (IH (S k)) as [(j & Hj & Hbefore & Hfresh & Heq)|[Hall Heq]].
        -- left. exists j. split; [lia |]. split; [| done].
           intros i Hi. destruct (decide (i = k)) as [->|]; [by exists s |].
           apply Hbefore. lia.
        -- right. split.
           ++ intros i Hi. destruct (decide (i = k)) as [->|]; [by exists s |].
              apply Hall. lia.
           ++ rewrite Heq. do 3 f_equal. lia.
      * left. exists k. split; [lia |]. split; [intros i ?; lia |].
        rewrite E. split; [by intros ? [= <-] | done].
    + left. exists k. split; [lia |]. split; [intros i ?; lia |].
      rewrite E. by split.
Qed.

Lemma advance_round_pinned draws now room round :
  (advance_round catalog draws now room).1 = Return () →
  currentRound (advance_round catalog draws now room).2 = Some round →
  (∃ k, k < 99 ∧
        (∀ j, j < k →
           ∃ s, getRandomSong catalog (draws j) = Some s ∧
                song_id s ∈ songsPlayed room) ∧
        getRandomSong catalog (draws k) = Some (song round) ∧
        (song_id (song round) ∉ songsPlayed room) ∧
        songsPlayed (advance_round catalog draws now room).2 =
          songsPlayed room ++ [song_id (song round)]) ∨
  ((∀ j, j < 99 →
      ∃ s, getRandomSong catalog (draws j) = Some s ∧
           song_id s ∈ songsPlayed room) ∧
   getRandomSong catalog (draws 100) = Some (song round) ∧
   songsPlayed (advance_round catalog draws now room).2 = [song_id (song round)]).
Proof.
  unfold advance_round. case_decide; [done |].
  pose proof (select_loop_pinned draws (maxAttempts - 1) 0 (songsPlayed room))
    as Hcases.
  unfold select_song.
  destruct (select_loop catalog draws (maxAttempts - 1) 0 (songsPlayed room))
    as [[s|] played] eqn:E; [| done].
  cbn [fst snd currentRound songsPlayed song]. intros _ [= <-]. cbn [song].
  destruct Hcases as [(j & Hj & Hbefore & Hfresh & [= Hs ->])|[Hall [= Hs ->]]].
  - left. exists j. unfold maxAttempts in Hj. split; [lia |].
    split; [intros i Hi; apply Hbefore; lia |].
    split; [done |]. split; [by apply Hfresh | done].
  - right. split; [intros i Hi; apply Hall; unfold maxAttempts; lia |].
    split; [done | done].
Qed.
End with_catalog.

Section with_catalog.
Variable catalog : list Song.

(** C6. In every reachable state, the round in place in a room is
    flagged karaoke exactly when the round counter stands at the
    total-rounds target, which is the value the counter took when the
    round was installed; in particular the round [nextRound] installs is
    flagged exactly when the incremented counter equals the target. *)
Theorem karaoke_iff_final_round m :
  reachable catalog m →
  (∀ code room round,
     rooms m !! code = Some room → currentRound room = Some round →
     (isKaraoke round = Some true ↔ roundNumber room = totalRounds room) ∧
     (isKaraoke round = Some false ↔ roundNumber room ≠ totalRounds room)) ∧
  (∀ code draws now room room' round,
     rooms m !! code = Some room →
     (nextRound catalog code draws now m).1 = Return () →
     rooms (nextRound catalog code draws now m).2 !! code = Some room' →
     currentRound room' = Some round →
     totalRounds room' = totalRounds room ∧
     roundNumber room' =
       S (if decide (state room = LOBBY) then 0 else roundNumber room) ∧
     (isKaraoke round = Some true ↔ roundNumber room' = totalRounds room')).
Proof.
  intros Hreach.
  assert (Hflag : ∀ m', reachable catalog m' → ∀ code room round,
            rooms m' !! code = Some room → currentRound room = Some round →
            (isKaraoke round = Some true ↔ roundNumber room = totalRounds room) ∧
            (isKaraoke round = Some false ↔ roundNumber room ≠ totalRounds room)).
  { intros m' Hm' code room round E Hround.
    destruct (reachable_invariant _ _ Hm') as [_ Hrooms].
    destruct (Hrooms _ _ E) as [_ (_ & _ & Hk)]. rewrite (Hk _ Hround).
    case_bool_decide; split; split; (done || by intros [= ?]). }
  split; [by apply Hflag |].
  intros code draws now room room' round E Hret E' Hround.
  split; [| split].
  - pose proof (nextRound_room_local catalog draws now room) as [_ Hr].
    destruct (reachable_invariant _ _ Hreach) as [_ Hrooms].
    destruct (Hrooms _ _ E) as [_ Hok]. pose proof (Hr Hok) as (Ht' & _).
    destruct Hok as (Ht & _). revert E'. unfold nextRound.
    rewrite (with_room_found _ _ _ _ E). cbn [fst snd].
    rewrite lookup_put_room, decide_True by done. intros [= <-]. congruence.
  - revert Hret E'. unfold nextRound. rewrite (with_room_found _ _ _ _ E). cbn [fst snd].
    rewrite lookup_put_room, decide_True by done.
    rewrite nextRound_room_unfold. unfold advance_round.
    destruct (decide (state room = LOBBY)).
    + case_decide; [done |]. simpl. case_decide.
      * intros _ [= <-]. done.
      * destruct (select_song catalog draws []) as [[s|] played]; [| done].
        by intros _ [= <-].
    + case_decide.
      * intros _ [= <-]. done.
      * destruct (select_song catalog draws (songsPlayed room)) as [[s|] played];
          [| done].
        by intros _ [= <-].
  - apply (Hflag _ (reachable_exec catalog (NextRound code draws now) m Hreach)
             code room' round E' Hround).
Qed.

(** C7. In a reachable state, for a room whose round counter has reached
    the total-rounds target, [nextRound], and [resetRound] from
    ROUND_LOCKED or ROUND_RESULT, return normally whatever the draws, and
    leave the room in GAME_OVER with no round; the used-set, the counter,
    the members and every player object are as before. *)
Theorem nextRound_game_over m code room draws now :
  reachable catalog m →
  rooms m !! code = Some room →
  totalRounds room ≤ roundNumber room →
  ∃ room',
    nextRound catalog code draws now m = (Return (), put_room code room' m) ∧
    (state room = ROUND_LOCKED ∨ state room = ROUND_RESULT →
       resetRound catalog code draws now m = (Return (), put_room code room' m)) ∧
    state room' = GAME_OVER ∧ currentRound room' = None ∧
    songsPlayed room' = songsPlayed room ∧
    roundNumber room' = roundNumber room ∧
    totalRounds room' = totalRounds room ∧
    same_members room room' ∧
    players (put_room code room' m) = players m ∧
    heap (put_room code room' m) = heap m.
Proof.
  intros Hreach E Hover.
  destruct (reachable_invariant _ _ Hreach) as [_ Hrooms].
  destruct (Hrooms _ _ E) as [_ (Ht & Hl & _)].
  assert (HL : state room ≠ LOBBY).
  { intros HL. destruct (Hl HL) as [_ H0]. lia. }
  exists (set_currentRound None (set_room_state GAME_OVER room)).
  split; [| split; [| by repeat split]].
  - unfold nextRound. rewrite (with_room_found _ _ _ _ E).
    rewrite nextRound_room_unfold, decide_False by done.
    by rewrite advance_round_game_over.
  - intros Hst. unfold resetRound. rewrite (with_room_found _ _ _ _ E).
    unfold resetRound_room. rewrite decide_True by done.
    rewrite nextRound_room_unfold. simpl. rewrite decide_False by done.
    by rewrite advance_round_game_over.
Qed.
End with_catalog.

(** The selection itself does not look at the size of the catalog: over
    a catalog of ten items for ten rounds, with the random source
    returning 0 every time, the second round would play the item of the
    first round again. *)
Lemma repeat_despite_large_catalog :
  reachable ten_tracks round_one ∧
  ∃ room room' round,
    rooms round_one !! "ROOM01" = Some room ∧
    (nextRound ten_tracks "ROOM01" quiet 5000%Z round_one).1 = Return () ∧
    rooms (nextRound ten_tracks "ROOM01" quiet 5000%Z round_one).2 !! "ROOM01" =
      Some room' ∧
    currentRound room' = Some round ∧
    song_id (song round) ∈ songsPlayed room ∧
    ¬ length ten_tracks < totalRounds room.
Proof.
  split; [exact round_one_reachable |]. eexists _, _, _.
  split; [vm_compute; reflexivity |]. split; [vm_compute; reflexivity |].
  split; [vm_compute; reflexivity |]. split; [reflexivity |].
  split; [by apply list_elem_of_singleton | simpl; lia].
Qed.

Lemma karaoke_iff_final_round_witness :
  reachable SONGS last_round ∧
  ∃ room round,
    rooms last_round !! "ROOM01" = Some room ∧
    currentRound room = Some round ∧
    roundNumber room = 10 ∧ totalRounds room = 10 ∧
    isKaraoke round = Some true.
Proof.
  split; [exact last_round_reachable |]. eexists _, _.
  assert (E : rooms last_round !! "ROOM01" = Some _) by (vm_compute; reflexivity).
  destruct (karaoke_iff_final_round SONGS last_round last_round_reachable)
    as [Hflag _].
  destruct (Hflag _ _ _ E eq_refl) as [[_ Hk] _].
  split; [exact E |]. split; [reflexivity |]. split; [reflexivity |].
  split; [reflexivity |]. exact (Hk eq_refl).
Defined.

Lemma nextRound_game_over_witness :
  reachable SONGS last_round ∧
  ∃ room room',
    rooms last_round !! "ROOM01" = Some room ∧
    state room = ROUND_LOCKED ∧ roundNumber room = 10 ∧ totalRounds room = 10 ∧
    nextRound SONGS "ROOM01" second 9000%Z last_round =
      (Return (), put_room "ROOM01" room' last_round) ∧
    resetRound SONGS "ROOM01" second 9000%Z last_round =
      (Return (), put_room "ROOM01" room' last_round) ∧
    state room' = GAME_OVER ∧ currentRound room' = None ∧
    songsPlayed room' = songsPlayed room ∧ roundNumber room' = 10.
Proof.
  split; [exact last_round_reachable |]. eexists.
  assert (E : rooms last_round !! "ROOM01" = Some _) by (vm_compute; reflexivity).
  destruct (nextRound_game_over SONGS last_round "ROOM01" _ second 9000%Z
              last_round_reachable E ltac:(simpl; lia))
    as (room' & Hnext & Hreset & Hst & Hround & Hsongs & Hnum & _).
  exists room'. split; [exact E |]. split; [reflexivity |].
  split; [reflexivity |]. split; [reflexivity |]. split; [exact Hnext |].
  split; [exact (Hreset (or_introl eq_refl)) |]. split; [exact Hst |].
  split; [exact Hround |]. split; [exact Hsongs |]. exact Hnum.
Defined.

(** ** Scores *)

(** *** Doubles *)

(** Rounding to the nearest integer is off by half a unit at most. *)
Lemma nearest_even_lower a b :
  (0 ≤ a)%Z → (0 < b)%Z → (2 * a ≤ 2 * b * nearest_even a b + b)%Z.
Proof.
  intros Ha Hb. unfold nearest_even.
  pose proof (Z.div_mod a b ltac:(lia)) as Hdm.
  pose proof (Z.mod_pos_bound a b Hb) as Hm.
  destruct (Z.compare_spec (2 * (a mod b)) b) as [Heq|Hlt|Hgt];
    [destruct (Z.even (a / b)) | |]; nia.
Qed.

(** [floor_log2 a b] is the exponent of [a / b]. *)
Lemma floor_log2_spec a b :
  (0 < a)%Z → (0 < b)%Z →
  let e := floor_log2 a b in
  ((0 ≤ e)%Z → (b * 2 ^ e ≤ a < b * 2 ^ (e + 1))%Z) ∧
  ((e < 0)%Z → (b ≤ a * 2 ^ (- e) < 2 * b)%Z).
Proof.
  intros Ha Hb.
  pose proof (Z.log2_spec a Ha) as [Ha1 Ha2].
  pose proof (Z.log2_spec b Hb) as [Hb1 Hb2].
  pose proof (Z.log2_nonneg a) as Hla. pose proof (Z.log2_nonneg b) as Hlb.
  unfold floor_log2. set (la := Z.log2 a) in *. set (lb := Z.log2 b) in *.
  rewrite <- Z.add_1_r in Ha2, Hb2. rewrite Z.pow_add_r in Ha2, Hb2 by lia.
  change (2 ^ 1)%Z with 2%Z in *.
  assert (Hpa : (0 < 2 ^ la)%Z) by (apply Z.pow_pos_nonneg; lia).
  assert (Hpb : (0 < 2 ^ lb)%Z) by (apply Z.pow_pos_nonneg; lia).
  destruct (Z.leb_spec 0 (la - lb)) as [He|He].
  - set (e0 := (la - lb)%Z) in *.
    assert (Hla' : (2 ^ la = 2 ^ lb * 2 ^ e0)%Z).
    { rewrite <- Z.pow_add_r by lia. f_equal. lia. }
    assert (Hpe : (0 < 2 ^ e0)%Z) by (apply Z.pow_pos_nonneg; lia).
    destruct (Z.ltb_spec a (b * 2 ^ e0)) as [Hlt|Hge]; cbv zeta.
    + split.
      * intros H0. replace (e0 - 1 + 1)%Z with e0 by lia. split; [| done].
        assert (H2 : (2 ^ e0 = 2 * 2 ^ (e0 - 1))%Z).
        { rewrite <- Z.pow_succ_r by lia. f_equal. lia. }
        assert (0 < 2 ^ (e0 - 1))%Z by (apply Z.pow_pos_nonneg; lia). nia.
      * intros H0. assert (e0 = 0%Z) as Hz by lia. rewrite Hz in *.
        change (- (0 - 1))%Z with 1%Z. change (2 ^ 1)%Z with 2%Z.
        change (2 ^ 0)%Z with 1%Z in *. nia.
    + split; [| lia]. intros _. split; [done |].
      rewrite Z.pow_add_r by lia. change (2 ^ 1)%Z with 2%Z. nia.
  - set (e0 := (la - lb)%Z) in *.
    assert (Hlb' : (2 ^ lb = 2 ^ la * 2 ^ (- e0))%Z).
    { rewrite <- Z.pow_add_r by lia. f_equal. lia. }
    assert (Hpe : (0 < 2 ^ (- e0))%Z) by (apply Z.pow_pos_nonneg; lia).
    destruct (Z.ltb_spec (a * 2 ^ (- e0)) b) as [Hlt|Hge]; cbv zeta.
    + split; [lia |]. intros _.
      replace (- (e0 - 1))%Z with (- e0 + 1)%Z by lia.
      rewrite Z.pow_add_r by lia. change (2 ^ 1)%Z with 2%Z. nia.
    + split; [lia |]. intros _. nia.
Qed.

Lemma pow2_split x y : (0 ≤ x)%Z → (0 ≤ y)%Z → (2 ^ (x + y) = 2 ^ x * 2 ^ y)%Z.
Proof. intros. by apply Z.pow_add_r. Qed.

(** Rounding to a double: the result [m * 2^u] has a significand of at
    most 53 bits (exactly 53 above the subnormal range), an exponent of
    at least -1074, and is off by half a unit of its last place at
    most. *)
Lemma nearest_double_spec a b :
  (0 < a)%Z → (0 < b)%Z →
  let m := (nearest_double a b).1 in
  let u := (nearest_double a b).2 in
  (-1074 ≤ u)%Z ∧ (0 ≤ m ≤ 2 ^ 53)%Z ∧ ((-1074 < u)%Z → (2 ^ 52 ≤ m)%Z) ∧
  ((0 ≤ u)%Z → (Z.abs (a - m * (b * 2 ^ u)) * 2 ≤ b * 2 ^ u)%Z) ∧
  ((u < 0)%Z → (Z.abs (a * 2 ^ (- u) - m * b) * 2 ≤ b)%Z).
Proof.
  intros Ha Hb. pose proof (floor_log2_spec a b Ha Hb) as [Hpos Hneg].
  unfold nearest_double. cbn [fst snd].
  set (e := floor_log2 a b) in *. cbv zeta in *.
  set (u := (Z.max (e - 52) (-1074))%Z).
  assert (Hu : (-1074 ≤ u)%Z) by lia.
  split; [done |].
  destruct (Z.leb_spec 0 u) as [Hu0|Hu0].
  - (* integers of more than 53 bits *)
    assert (He : (e = u + 52)%Z) by lia.
    destruct (Hpos ltac:(lia)) as [Hlo Hhi].
    rewrite He, pow2_split in Hlo by lia.
    replace (e + 1)%Z with (u + 53)%Z in Hhi by lia. rewrite pow2_split in Hhi by lia.
    assert (Hpu : (0 < 2 ^ u)%Z) by (apply Z.pow_pos_nonneg; lia).
    set (b' := (b * 2 ^ u)%Z) in *.
    assert (Hb' : (0 < b')%Z) by (unfold b'; nia).
    pose proof (nearest_even_upper a b' ltac:(lia) Hb') as Hup.
    pose proof (nearest_even_lower a b' ltac:(lia) Hb') as Hdown.
    pose proof (nearest_even_nonneg a b' ltac:(lia) Hb') as Hnn.
    set (m := nearest_even a b') in *.
    assert (H52 : (2 ^ 53 = 2 * 2 ^ 52)%Z) by done.
    split; [nia |]. split; [intros _; nia |]. split; [intros _; nia | lia].
  - set (a' := (a * 2 ^ (- u))%Z).
    assert (Hpu : (0 < 2 ^ (- u))%Z) by (apply Z.pow_pos_nonneg; lia).
    assert (Ha' : (0 < a')%Z) by (unfold a'; nia).
    pose proof (nearest_even_upper a' b ltac:(lia) Hb) as Hup.
    pose proof (nearest_even_lower a' b ltac:(lia) Hb) as Hdown.
    pose proof (nearest_even_nonneg a' b ltac:(lia) Hb) as Hnn.
    set (m := nearest_even a' b) in *.
    assert (H52 : (2 ^ 53 = 2 * 2 ^ 52)%Z) by done.
    assert (Hrange : (a' < b * 2 ^ 53)%Z ∧ ((-1074 < u)%Z → (b * 2 ^ 52 ≤ a')%Z)).
    { destruct (Z.le_gt_cases 0 e) as [He|He].
      - destruct (Hpos He) as [Hlo Hhi].
        assert (Hu' : (- u = 52 - e)%Z) by lia.
        assert (H1 : (2 ^ 52 = 2 ^ e * 2 ^ (- u))%Z).
        { rewrite <- pow2_split by lia. f_equal. lia. }
        rewrite pow2_split in Hhi by lia. change (2 ^ 1)%Z with 2%Z in Hhi.
        assert (0 < 2 ^ e)%Z by (apply Z.pow_pos_nonneg; lia).
        unfold a'. split; [| intros _]; nia.
      - destruct (Hneg He) as [Hlo Hhi].
        assert (0 < 2 ^ (- e))%Z by (apply Z.pow_pos_nonneg; lia).
        destruct (Z.le_gt_cases (-1074) (e - 52)) as [Hn|Hsub].
        + assert (Hu' : (- u = - e + 52)%Z) by lia.
          unfold a'. rewrite Hu', pow2_split by lia. split; [| intros _]; nia.
        + assert (Hu' : u = (-1074)%Z) by lia. split; [| lia].
          destruct (Z.le_gt_cases (- e) (- u)) as [Hd|Hd].
          * assert (H1 : (2 ^ (- u) = 2 ^ (- e) * 2 ^ (- u + e))%Z).
            { rewrite <- pow2_split by lia. f_equal. lia. }
            assert (H2 : (2 ^ (- u + e) ≤ 2 ^ 51)%Z) by (apply Z.pow_le_mono_r; lia).
            assert (0 < 2 ^ (- u + e))%Z by (apply Z.pow_pos_nonneg; lia).
            assert (H3 : (2 ^ 53 = 4 * 2 ^ 51)%Z) by done.
            unfold a'. nia.
          * assert (H1 : (2 ^ (- e) = 2 ^ (- u) * 2 ^ (- e + u))%Z).
            { rewrite <- pow2_split by lia. f_equal. lia. }
            assert (0 < 2 ^ (- e + u))%Z by (apply Z.pow_pos_nonneg; lia).
            unfold a'. nia. }
    destruct Hrange as [Hhi Hlo].
    split; [nia |]. split; [intros Hn; specialize (Hlo Hn); nia |].
    split; [lia | intros _; fold a'; nia].
Qed.

Lemma Q2Qc_nonneg q : (0 <= q)%Q → (0 ≤ Q2Qc q)%Qc.
Proof.
  intros H. unfold Qcle. simpl. rewrite !Qred_correct. exact H.
Qed.

Lemma double_of_nonneg m u q : (0 ≤ m)%Z → double_of m u = Some q → (0 ≤ q)%Qc.
Proof.
  intros Hm. unfold double_of.
  destruct (0 <=? u)%Z eqn:Eu.
  - destruct (2 ^ 1024 <=? m * 2 ^ u)%Z; [done |]. intros [= <-].
    apply Q2Qc_nonneg. unfold Qle. simpl.
    assert (0 ≤ 2 ^ u)%Z by (apply Z.pow_nonneg; lia). nia.
  - intros [= <-]. apply Q2Qc_nonneg. unfold Qle. simpl. lia.
Qed.

Lemma nearest_double_nonneg a b :
  (0 < a)%Z → (0 < b)%Z → (0 ≤ (nearest_double a b).1)%Z.
Proof.
  intros Ha Hb. unfold nearest_double. simpl.
  destruct (0 <=? _)%Z eqn:Eu.
  - apply nearest_even_nonneg; [lia |].
    apply Z.mul_pos_pos; [done |]. apply Z.pow_pos_nonneg; lia.
  - apply nearest_even_nonneg; [| done].
    apply Z.mul_nonneg_nonneg; [lia |]. apply Z.pow_nonneg. lia.
Qed.

(** Rounding keeps the sign. *)
Lemma to_double_sign x :
  match to_double x with
  | NaN => False
  | NegInfinity => (x < 0)%Qc
  | Finite q => ((0 ≤ x)%Qc → (0 ≤ q)%Qc) ∧ ((x ≤ 0)%Qc → (q ≤ 0)%Qc)
  | Infinity => (0 < x)%Qc
  end.
Proof.
  unfold to_double. destruct x as [[n d] Hcanon]. cbn [this Qnum Qden].
  destruct n as [|a|a].
  - split; intros _; apply Qcle_refl.
  - pose proof (nearest_double_nonneg (Z.pos a) (Z.pos d) ltac:(done) ltac:(done)) as Hm.
    destruct (nearest_double _ _) as [m u]. cbn [fst] in Hm. cbv beta iota.
    destruct (double_of m u) as [q|] eqn:Eq.
    + pose proof (double_of_nonneg _ _ _ Hm Eq) as Hq.
      split; [done |]. intros Hx. exfalso. revert Hx. unfold Qcle, Qle. simpl. lia.
    + unfold Qclt, Qlt. simpl. lia.
  - pose proof (nearest_double_nonneg (Z.pos a) (Z.pos d) ltac:(done) ltac:(done)) as Hm.
    destruct (nearest_double _ _) as [m u]. cbn [fst] in Hm. cbv beta iota.
    destruct (double_of m u) as [q|] eqn:Eq.
    + pose proof (double_of_nonneg _ _ _ Hm Eq) as Hq.
      split.
      * intros Hx. exfalso. revert Hx. unfold Qcle, Qle. simpl. lia.
      * intros _. apply Qcopp_le_compat in Hq. exact Hq.
    + unfold Qclt, Qlt. simpl. lia.
Qed.

Lemma number_add_NaN_r x : number_add x NaN = NaN.
Proof. by destruct x. Qed.

Lemma Math_max_NaN_r x : Math_max x NaN = NaN.
Proof. by destruct x. Qed.

(** [Math.max(0, x)] is never below 0: it is [NaN] or at least 0. *)
Lemma Math_max_clamped x : number_lt (Math_max (Finite 0) x) (Finite 0) = false.
Proof.
  destruct x as [| |q|]; try done. simpl.
  destruct (bool_decide (0 < q)%Qc) eqn:E; simpl.
  - apply bool_decide_eq_false. apply bool_decide_eq_true in E.
    intros H. by eapply Qclt_not_le, Qclt_le_weak.
  - done.
Qed.

Lemma Math_max_at_least x :
  x ≠ NaN → number_le (Finite 0) (Math_max (Finite 0) x) = true.
Proof.
  destruct x as [| |q|]; try done. intros _. simpl.
  destruct (bool_decide (0 < q)%Qc) eqn:E; simpl; [| done].
  apply negb_true_iff, bool_decide_eq_false. apply bool_decide_eq_true in E.
  intros H. by eapply Qclt_not_le, Qclt_le_weak.
Qed.

(** [Math.max(0, x)] is [x] itself unless [x < 0]. *)
Lemma Math_max_keeps x : number_lt x (Finite 0) = false → Math_max (Finite 0) x = x.
Proof.
  destruct x as [| |q|]; try done. simpl. intros H.
  apply bool_decide_eq_false in H. apply Qcnot_lt_le in H.
  destruct (bool_decide (0 < q)%Qc) eqn:E; [done |].
  apply bool_decide_eq_false in E. apply Qcnot_lt_le in E.
  f_equal. by apply Qcle_antisym.
Qed.

Lemma number_add_clamped x y :
  number_lt x (Finite 0) = false → number_lt y (Finite 0) = false →
  number_lt (number_add x y) (Finite 0) = false.
Proof.
  destruct x as [| |a|], y as [| |b|]; try done. simpl. intros Ha Hb.
  apply bool_decide_eq_false, Qcnot_lt_le in Ha.
  apply bool_decide_eq_false, Qcnot_lt_le in Hb.
  assert (H0 : (0 ≤ a + b)%Qc).
  { rewrite <- (Qcplus_0_l 0). by apply Qcplus_le_compat. }
  pose proof (to_double_sign (a + b)) as Hs.
  destruct (to_double (a + b)) as [| |q|]; try done.
  - exfalso. by eapply Qclt_not_le.
  - simpl. apply bool_decide_eq_false. destruct Hs as [Hs _].
    intros Hq. eapply Qclt_not_le; [exact Hq | by apply Hs].
Qed.

(** A sum of finite numbers is a number. *)
Lemma number_add_finite a b : number_add (Finite a) (Finite b) ≠ NaN.
Proof.
  simpl. pose proof (to_double_sign (a + b)) as Hs.
  by destruct (to_double (a + b)).
Qed.

(** A delta of [- score] or below takes a finite score to 0. *)
Lemma Math_max_floor s d :
  (d ≤ - s)%Qc → Math_max (Finite 0) (number_add (Finite s) (Finite d)) = Finite 0.
Proof.
  intros Hd. simpl.
  assert (H0 : (s + d ≤ 0)%Qc).
  { apply (Qcplus_le_mono_l _ _ s) in Hd. by rewrite Qcplus_opp_r in Hd. }
  pose proof (to_double_sign (s + d)) as Hs.
  destruct (to_double (s + d)) as [| |q|]; try done.
  - simpl. destruct Hs as [_ Hs]. specialize (Hs H0).
    rewrite bool_decide_eq_false_2; [done |]. by apply Qcle_not_lt.
  - exfalso. by eapply Qclt_not_le.
Qed.

Lemma update_at_least s d :
  s ≠ NaN → isFinite d = true →
  number_le (Finite 0) (Math_max (Finite 0) (number_add s d)) = true.
Proof.
  intros Hs Hd. apply Math_max_at_least.
  destruct d as [| |b|]; try done. destruct s as [| |a|]; try done.
  apply number_add_finite.
Qed.

Lemma number_le_not_NaN x y : number_le x y = true → y ≠ NaN.
Proof. destruct x, y; done. Qed.

Lemma number_le_not_lt x : number_le (Finite 0) x = true → number_lt x (Finite 0) = false.
Proof. destruct x; try done. simpl. by intros ->%negb_true_iff. Qed.

(** [to_double] reads the canonical form of [z / 1]. *)
Lemma Qred_inject_Z z : Qred (inject_Z z) = inject_Z z.
Proof. apply Qred_identity. simpl. apply Z.gcd_1_r. Qed.

Lemma nearest_even_1 a : nearest_even a 1 = a.
Proof.
  unfold nearest_even. rewrite Z.mod_1_r, Z.div_1_r. done.
Qed.

(** An integer of at most 53 bits is a double. *)
Lemma to_double_of_Z z :
  (Z.abs z ≤ 2 ^ 53)%Z → to_double (Q2Qc (inject_Z z)) = of_Z z.
Proof.
  intros Hz. unfold to_double, of_Z. cbn [this Q2Qc].
  rewrite Qred_inject_Z. cbn [Qnum Qden inject_Z].
  assert (Hpos : ∀ a, (Z.pos a ≤ 2 ^ 53)%Z →
            let '(m, u) := nearest_double (Z.pos a) 1 in
            double_of m u = Some (Q2Qc (inject_Z (Z.pos a)))).
  { intros a Ha.
    destruct (Z.eq_dec (Z.pos a) (2 ^ 53)%Z) as [->|Hne]; [vm_compute; f_equal; by apply Qc_is_canon |].
    assert (Hlt : (Z.pos a < 2 ^ 53)%Z) by lia.
    pose proof (Z.log2_nonneg (Z.pos a)) as H0.
    assert (Hlog : (Z.log2 (Z.pos a) < 53)%Z) by (apply Z.log2_lt_pow2; lia).
    pose proof (Z.log2_spec (Z.pos a) ltac:(done)) as [Hlow _].
    unfold nearest_double, floor_log2.
    change (Z.log2 1) with 0%Z. rewrite Z.sub_0_r.
    rewrite (proj2 (Z.leb_le _ _) H0).
    rewrite (proj2 (Z.ltb_ge _ _)) by lia.
    rewrite Z.max_l by lia.
    set (u := (Z.log2 (Z.pos a) - 52)%Z).
    destruct (Z.leb_spec 0 u) as [Hu|Hu].
    - assert (u = 0%Z) as -> by lia.
      change (1 * 2 ^ 0)%Z with 1%Z. rewrite nearest_even_1.
      unfold double_of. change (0 <=? 0)%Z with true. cbv beta iota.
      rewrite (proj2 (Z.leb_gt _ _)) by (change (2 ^ 1024)%Z with (2 ^ 53 * 2 ^ 971)%Z; nia).
      by rewrite Z.mul_1_r.
    - rewrite nearest_even_1. unfold double_of.
      rewrite (proj2 (Z.leb_gt _ _)) by lia.
      f_equal. apply Q2Qc_eq_iff. unfold Qeq. simpl.
      assert (0 < 2 ^ (- u))%Z by (apply Z.pow_pos_nonneg; lia).
      rewrite Z2Pos.id by done. lia. }
  destruct z as [|a|a].
  - done.
  - specialize (Hpos a ltac:(lia)). destruct (nearest_double _ _) as [m u].
    by rewrite Hpos.
  - specialize (Hpos a ltac:(lia)). destruct (nearest_double _ _) as [m u].
    rewrite Hpos. f_equal. apply Qc_is_canon.
    unfold Qcopp. cbn [this Q2Qc]. rewrite !Qred_correct. reflexivity.
Qed.

(** Sums of integers are exact as long as they have at most 53 bits. *)
Lemma number_add_of_Z a b :
  (Z.abs (a + b) ≤ 2 ^ 53)%Z → number_add (of_Z a) (of_Z b) = of_Z (a + b).
Proof.
  intros H. unfold of_Z at 1 2. cbn [number_add].
  rewrite <- (to_double_of_Z (a + b)) by done. f_equal.
  apply Qc_is_canon. simpl. rewrite !Qred_correct. unfold Qeq. simpl. lia.
Qed.

Example sum_rounds_to_even :
  number_add (of_Z (2 ^ 53)) (of_Z 1) = of_Z (2 ^ 53) ∧
  number_add (of_Z (2 ^ 53)) (of_Z 3) = of_Z (2 ^ 53 + 4).
Proof. split; vm_compute; f_equal; apply Qc_is_canon; reflexivity. Qed.

Example sum_of_tenths :
  number_add (Finite (Q2Qc (3602879701896397 # 36028797018963968)))
             (Finite (Q2Qc (3602879701896397 # 18014398509481984))) =
  Finite (Q2Qc (1351079888211149 # 4503599627370496)).
Proof. vm_compute; f_equal; apply Qc_is_canon; reflexivity. Qed.

Example sum_overflows :
  number_add (of_Z ((2 ^ 53 - 1) * 2 ^ 971)) (of_Z (2 ^ 970)) = Infinity ∧
  number_add Infinity NegInfinity = NaN ∧
  Math_max (Finite 0) NaN = NaN.
Proof. split; [| done]. vm_compute. reflexivity. Qed.

(** *** [updateScore] *)

Lemma updateScore_found code playerId points m room l :
  rooms m !! code = Some room →
  JsMap.get playerId (room_players room) = Some l →
  updateScore code playerId points m =
    (Return (),
     {| rooms := rooms m; players := players m;
        heap := alter (λ p, set_score
                              (Math_max (Finite 0) (number_add (score p) points)) p)
                  l (heap m) |}).
Proof. intros E Hget. unfold updateScore. by rewrite E, Hget. Qed.

Lemma updateScore_each_clamped code playerId deltas m room l p :
  rooms m !! code = Some room →
  JsMap.get playerId (room_players room) = Some l →
  heap m !! l = Some p →
  ∃ p', heap (updateScore_each code playerId deltas m) !! l = Some p' ∧
        (deltas ≠ [] ∨ number_lt (score p) (Finite 0) = false →
         number_lt (score p') (Finite 0) = false) ∧
        (Forall (λ d, isFinite d = true) deltas → score p ≠ NaN →
         deltas ≠ [] ∨ number_le (Finite 0) (score p) = true →
         number_le (Finite 0) (score p') = true).
Proof.
  revert m p. induction deltas as [|d deltas IH]; intros m p E Hget Hp; simpl.
  - exists p. split; [done |]. split; [by intros [?|?] | by intros _ _ [?|?]].
  - rewrite (updateScore_found _ _ _ _ _ _ E Hget). simpl.
    set (m1 := {| rooms := rooms m |}).
    destruct (IH m1 (set_score (Math_max (Finite 0) (number_add (score p) d)) p))
      as (p' & Hp' & Hnn & Hfin).
    + done.
    + done.
    + unfold m1. simpl. by rewrite list_lookup_alter_eq, Hp.
    + exists p'. split; [done |]. split.
      * intros _. apply Hnn. right. simpl. apply Math_max_clamped.
      * intros Hall Hs _. apply Forall_cons in Hall as [Hd Hall].
        assert (H0 : number_le (Finite 0)
                       (Math_max (Finite 0) (number_add (score p) d)) = true)
          by by apply update_at_least.
        apply Hfin; [done | | by right].
        simpl. by eapply number_le_not_NaN.
Qed.

(** What holds of [updateScore] on doubles. It throws RoomNotFound for a
    missing room and PlayerNotInRoom for a player who is not a member;
    otherwise, in any room state, it replaces the score of the named
    player by [Math.max(0, score + delta)], the sum being rounded, and
    changes nothing else: not the rooms, not the index, not another
    player object, not another field. The new score is never below 0: it
    is [NaN] or at least 0. For a finite score and a finite delta it is at
    least 0, and exactly 0 when [delta ≤ - score]; a score that is a
    number is at least 0 after any sequence of finite deltas. *)
Lemma updateScore_outcome code playerId m :
  (rooms m !! code = None →
     ∀ points, updateScore code playerId points m = (Throw RoomNotFound, m)) ∧
  (∀ room, rooms m !! code = Some room →
     JsMap.get playerId (room_players room) = None →
     ∀ points, updateScore code playerId points m = (Throw PlayerNotInRoom, m)) ∧
  (∀ room l p,
     rooms m !! code = Some room →
     JsMap.get playerId (room_players room) = Some l →
     heap m !! l = Some p →
     (∀ points,
        let score' := Math_max (Finite 0) (number_add (score p) points) in
        (updateScore code playerId points m).1 = Return () ∧
        rooms (updateScore code playerId points m).2 = rooms m ∧
        players (updateScore code playerId points m).2 = players m ∧
        length (heap (updateScore code playerId points m).2) = length (heap m) ∧
        heap (updateScore code playerId points m).2 !! l =
          Some (set_score score' p) ∧
        (∀ l', l' ≠ l →
           heap (updateScore code playerId points m).2 !! l' = heap m !! l') ∧
        number_lt score' (Finite 0) = false ∧
        (score p ≠ NaN → isFinite points = true →
         number_le (Finite 0) score' = true) ∧
        (∀ s d, score p = Finite s → points = Finite d → (d ≤ - s)%Qc →
           score' = Finite 0)) ∧
     (∀ deltas,
        ∃ p', heap (updateScore_each code playerId deltas m) !! l = Some p' ∧
              (deltas ≠ [] ∨ number_lt (score p) (Finite 0) = false →
               number_lt (score p') (Finite 0) = false) ∧
              (Forall (λ d, isFinite d = true) deltas → score p ≠ NaN →
               deltas ≠ [] ∨ number_le (Finite 0) (score p) = true →
               number_le (Finite 0) (score p') = true))).
Proof.
  split; [| split].
  - intros E points. unfold updateScore. by rewrite E.
  - intros room E Hget points. unfold updateScore. by rewrite E, Hget.
  - intros room l p E Hget Hp. split.
    + intros points score'. rewrite (updateScore_found _ _ _ _ _ _ E Hget). simpl.
      split; [done |]. split; [done |]. split; [done |].
      split; [apply length_alter |].
      split; [by rewrite list_lookup_alter_eq, Hp |].
      split; [intros l' Hne; by apply list_lookup_alter_ne |].
      split; [apply Math_max_clamped |].
      split; [apply update_at_least |].
      intros s d Hs Hd Hle. unfold score'. rewrite Hs, Hd. by apply Math_max_floor.
    + intros deltas. by eapply updateScore_each_clamped.
Qed.

(** C8. The clamp of [updateScore] misses [NaN]. Leo is a member of room
    ROOM01 with score 0. [updateScore] with [NaN] (a number, and what a
    missing [points] becomes in the sum) returns normally and leaves his
    score [NaN], for which [score >= 0] is false; every later update
    leaves it [NaN], whatever the delta. The deltas [Infinity] and then
    [-Infinity] do the same, and so does the request update_score of the
    host, Ana, when it carries no points. *)
Theorem updateScore_NaN_not_clamped :
  reachable SONGS playing ∧
  (score <$> getPlayer "leo" playing) = Some (Finite 0) ∧
  (updateScore "ROOM01" "leo" NaN playing).1 = Return () ∧
  (score <$> getPlayer "leo" (updateScore "ROOM01" "leo" NaN playing).2) = Some NaN ∧
  number_le (Finite 0) NaN = false ∧
  (∀ delta, Math_max (Finite 0) (number_add NaN delta) = NaN) ∧
  (score <$> getPlayer "leo"
     (updateScore_each "ROOM01" "leo" [Infinity; NegInfinity] playing)) = Some NaN ∧
  (score <$> getPlayer "leo"
     (dispatch SONGS "ana" (update_score "ROOM01" "leo" NaN) true playing).2) =
    Some NaN.
Proof.
  split; [exact playing_reachable |].
  split; [reflexivity |]. split; [reflexivity |]. split; [reflexivity |].
  split; [reflexivity |]. split; [done |]. split; [reflexivity |].
  vm_compute. reflexivity.
Qed.

(** ** Room codes *)

Lemma length_toUpperCase s : String.length (toUpperCase s) = String.length s.
Proof. induction s as [|c s IH]; simpl; [done | by rewrite IH]. Qed.

Lemma length_substring n k s :
  String.length (substring n k s) = k `min` (String.length s - n).
Proof.
  revert n k. induction s as [|c s IH]; intros [|n] [|k]; simpl;
    rewrite ?IH; try done; try lia.
Qed.

(** [substring(2, 8)] yields six characters only from a text of at least
    eight. *)
Lemma generateRoomId_length text :
  String.length (generateRoomId text) = 6 `min` (String.length text - 2).
Proof. unfold generateRoomId. by rewrite length_toUpperCase, length_substring. Qed.

(** What [createRoom] builds when no code is asked for and the generated
    one is free. *)
Lemma createRoom_generated host hostName idText avatarDraw m :
  rooms m !! generateRoomId idText = None →
  ∃ m',
    createRoom host hostName None idText avatarDraw m =
      (Return (generateRoomId idText), m') ∧
    rooms m' !! generateRoomId idText =
      Some {| room_id := generateRoomId idText; hostId := host; state := LOBBY;
              room_players := [(host, length (heap m))];
              currentRound := None; roundNumber := 0; totalRounds := 10;
              songsPlayed := [] |} ∧
    players m' !! host = Some (length (heap m)) ∧
    heap m' !! length (heap m) =
      Some {| player_id := host; socketId := host; name := hostName;
              score := Finite 0; avatar := generateAvatar avatarDraw;
              roomId := generateRoomId idText |}.
Proof.
  intros E. unfold createRoom. rewrite E. eexists. split; [done |]. simpl.
  rewrite !lookup_insert_eq. split; [done |]. split; [done |].
  rewrite lookup_app_r by lia. by rewrite Nat.sub_diag.
Qed.

(** C9 at the draw 1/2. [Math.random()] returns 0.5, which prints as
    "0.i" in radix 36; [createRoom] without a code then registers the
    room, with its host as sole member, in LOBBY, at round 0 of 10 and
    with score 0, under the one-character code "I". *)
Theorem createRoom_code_too_short :
  toString36_exact (2 ^ 52)%N = "0.i" ∧
  ∃ m',
    createRoom "ana" "Ana" None "0.i" 0%N initial = (Return "I", m') ∧
    String.length "I" = 1 ∧
    rooms m' !! "I" =
      Some {| room_id := "I"; hostId := "ana"; state := LOBBY;
              room_players := [("ana", 0)];
              currentRound := None; roundNumber := 0; totalRounds := 10;
              songsPlayed := [] |} ∧
    (score <$> getPlayer "ana" m') = Some (Finite 0).
Proof.
  split; [vm_compute; reflexivity |].
  destruct (createRoom_generated "ana" "Ana" "0.i" 0%N initial)
    as (m' & Hc & Hroom & Hidx & Hobj); [done |].
  exists m'. split; [exact Hc |]. split; [done |]. split; [exact Hroom |].
  unfold getPlayer. simpl in *. rewrite Hidx. simpl. by rewrite Hobj.
Qed.

(** ** Well-formed states are kept *)

(* ===== DEFS ===== *)

(* ===== LEMMAS ===== *)

Lemma room_phase_ok_weaken (P : Prop) room :
  room_phase_ok P room → room_phase_ok False room.
Proof.
  unfold room_phase_ok. destruct (state room); try done.
  all: intros [H _]; split; [done | by intros []].
Qed.

Lemma startGame_room_shape catalog room :
  room_shape catalog room → room_shape catalog (startGame_room room).2.
Proof.
  unfold startGame_room. repeat case_decide; try done. simpl.
  intros [(Hle & Hlen & Hids & Hround) Hphase].
  assert (HL : state room = LOBBY) by (by destruct (state room)).
  unfold room_phase_ok in Hphase. rewrite HL in Hphase. destruct Hphase as [Hnone _].
  split.
  - split; [simpl; lia |]. split; [simpl; lia |]. split.
    + simpl. intros i Hi. by apply elem_of_nil in Hi.
    + simpl. intros round Hr. congruence.
  - unfold room_phase_ok. simpl. intros round Hr. congruence.
Qed.

Lemma advance_round_shape catalog draws now room :
  state room ≠ LOBBY →
  room_counts_ok catalog room → room_phase_ok False room →
  room_shape catalog (advance_round catalog draws now room).2.
Proof.
  intros HL (Hle & Hlen & Hids & Hround) Hphase.
  unfold advance_round. case_decide as Hover.
  - simpl. split.
    + split; [done |]. split; [done |]. split; [done |]. simpl. by intros ? ?.
    + unfold room_phase_ok. simpl. split; [done | lia].
  - pose proof (select_loop_None catalog draws (maxAttempts - 1) 0 (songsPlayed room)) as HNone.
    pose proof (select_loop_in_catalog catalog draws (maxAttempts - 1) 0 (songsPlayed room)) as Hin.
    pose proof (select_loop_cases catalog draws (maxAttempts - 1) 0 (songsPlayed room)) as Hcases.
    unfold select_song.
    destruct (select_loop catalog draws (maxAttempts - 1) 0 (songsPlayed room))
      as [[s|] played] eqn:E; clear E; cbn [fst snd] in *.
    + assert (Hplayed : played = songsPlayed room ∨ played = []).
      { destruct Hcases as [[-> _]|[_ [= _ ->]]]; auto. }
      split.
      * split; [simpl; lia |]. split.
        { simpl. rewrite length_app. simpl. destruct Hplayed as [->| ->]; simpl; lia. }
        split.
        { simpl. intros i. rewrite elem_of_app, list_elem_of_singleton.
          intros [Hi| ->]; [| exists s; split; [by apply Hin | done]].
          destruct Hplayed as [->| ->]; [by apply Hids | by apply elem_of_nil in Hi]. }
        simpl. intros round [= <-]. simpl. split; [lia |]. split; [by apply Hin |].
        by rewrite last_snoc.
      * unfold room_phase_ok. simpl. by intros round [= <-].
    + assert (Hempty : catalog = []) by by apply HNone.
      assert (Hnoround : currentRound room = None).
      { destruct (currentRound room) as [round|] eqn:Er; [| done].
        destruct (Hround _ eq_refl) as (_ & Hc & _). rewrite Hempty in Hc.
        by apply elem_of_nil in Hc. }
      assert (Hplayed : played = songsPlayed room ∨ played = []).
      { destruct Hcases as [[-> _]|[_ [= _ ->]]]; auto. }
      split.
      * split; [done |]. split.
        { simpl. destruct Hplayed as [->| ->]; simpl; lia. }
        split.
        { simpl. intros i Hi.
          destruct Hplayed as [->| ->]; [by apply Hids | by apply elem_of_nil in Hi]. }
        simpl. rewrite Hnoround. by intros ? ?.
      * unfold room_phase_ok in *. simpl.
        destruct (state room); try done;
          destruct Hphase as [H1 H2];
          first [ split; [done |]; intros Hne; by destruct Hne | lia ].
Qed.

Lemma nextRound_room_shape catalog draws now room :
  room_shape catalog room → room_shape catalog (nextRound_room catalog draws now room).2.
Proof.
  intros Hshape. rewrite nextRound_room_unfold.
  destruct (decide (state room = LOBBY)) as [HL|HL].
  - case_decide; [done |].
    pose proof (startGame_room_shape catalog room Hshape) as Hs.
    unfold startGame_room in Hs.
    rewrite decide_False, decide_False in Hs by (done || by intros ?).
    destruct Hs as [Hc Hp]. apply advance_round_shape; [done | done |].
    by eapply room_phase_ok_weaken.
  - destruct Hshape as [Hc Hp]. apply advance_round_shape; [done | done |].
    by eapply room_phase_ok_weaken.
Qed.

Lemma resetRound_room_shape catalog draws now room :
  room_shape catalog room → room_shape catalog (resetRound_room catalog draws now room).2.
Proof.
  intros Hshape. unfold resetRound_room. case_decide as Hst; [| done].
  rewrite nextRound_room_unfold. simpl.
  rewrite decide_False by (destruct Hst; congruence).
  destruct Hshape as [(Hle & Hlen & Hids & Hround) Hp].
  apply advance_round_shape.
  - simpl. destruct Hst; congruence.
  - split; [done |]. split; [done |]. split; [done |]. simpl. by intros ? ?.
  - unfold room_phase_ok. simpl.
    destruct Hst as [-> | ->]; (split; [by intros ? ? | by intros []]).
Qed.

Lemma startRoundPlaying_room_shape catalog now room :
  room_shape catalog room → room_shape catalog (startRoundPlaying_room now room).2.
Proof.
  unfold startRoundPlaying_room. case_decide as Hst; [done |].
  destruct (currentRound room) as [round|] eqn:Er; [| done]. simpl.
  assert (HL : state room = ROUND_LOADING) by (by destruct (state room)).
  intros [(Hle & Hlen & Hids & Hround) Hp].
  unfold room_phase_ok in Hp. rewrite HL in Hp. destruct (Hp _ Er) as [Hb Ht].
  split.
  - split; [done |]. split; [done |]. split; [done |].
    simpl. intros ? [= <-]. simpl. by apply Hround.
  - unfold room_phase_ok. simpl. by eexists.
Qed.

Lemma handleBuzz_room_shape catalog playerId now room :
  room_shape catalog room → room_shape catalog (handleBuzz_room playerId now room).2.
Proof.
  unfold handleBuzz_room. case_decide as Hst; [done |].
  destruct (currentRound room) as [round|] eqn:Er; [| done].
  destruct (buzzedPlayerId round) eqn:Eb; [done |]. simpl.
  intros [(Hle & Hlen & Hids & Hround) Hp]. split.
  - split; [done |]. split; [done |]. split; [done |].
    simpl. intros ? [= <-]. simpl. by apply Hround.
  - unfold room_phase_ok. simpl. split; [| by eauto].
    intros ? [= <-]. simpl. by eauto.
Qed.

Lemma showRoundResult_room_shape catalog room :
  room_shape catalog room → room_shape catalog (showRoundResult_room room).2.
Proof.
  unfold showRoundResult_room. case_decide as Hst; [done |]. simpl.
  assert (HL : state room = ROUND_LOCKED) by (by destruct (state room)).
  intros [Hc Hp]. split; [done |].
  unfold room_phase_ok in *. simpl. by rewrite HL in Hp.
Qed.

(** *** Preservation of [wellformed] *)

Lemma with_room_wellformed {A : Type} catalog code
    (body : GameRoom → outcome A * GameRoom) m :
  room_local body →
  (∀ room, room_shape catalog room → room_shape catalog (body room).2) →
  wellformed catalog m → wellformed catalog (with_room code body m).2.
Proof.
  intros Hlocal Hshape (Hinv & Hmem & Hidx & Hsc & Hsh).
  split; [by apply with_room_invariant |].
  destruct (rooms m !! code) as [room|] eqn:E;
    [rewrite (with_room_found _ _ _ _ E)
    | by rewrite (with_room_missing _ _ _ E)].
  destruct (Hlocal room) as [(Hid & Hhost & Hps) _]. cbn [fst snd].
  split; [| split; [| split]].
  - intros c r sid l. rewrite lookup_put_room. case_decide; subst.
    + intros [= <-]. rewrite Hps. apply (Hmem _ _ _ _ E).
    + apply Hmem.
  - intros sid l Hl. destruct (Hidx _ _ Hl) as (p & r & Hp & Hpid & Hr & Hget).
    destruct (decide (code = roomId p)) as [->|Hne].
    + exists p, (body room).2. split; [done |]. split; [done |].
      rewrite lookup_put_room, decide_True by done. split; [done |].
      rewrite Hps. congruence.
    + exists p, r. split; [done |]. split; [done |].
      rewrite lookup_put_room, decide_False by done. done.
  - done.
  - intros c r. rewrite lookup_put_room. case_decide; subst.
    + intros [= <-]. apply Hshape. by apply Hsh in E.
    + apply Hsh.
Qed.

Lemma heap_app_lookup_old (h : list GamePlayer) p0 l p :
  h !! l = Some p → (h ++ [p0]) !! l = Some p.
Proof. intros E. rewrite lookup_app_l; [done |]. by eapply lookup_lt_Some. Qed.

Lemma heap_app_lookup_new (h : list GamePlayer) p0 :
  (h ++ [p0]) !! length h = Some p0.
Proof. rewrite lookup_app_r by lia. by rewrite Nat.sub_diag. Qed.

Lemma heap_app_lookup_inv (h : list GamePlayer) p0 l p :
  (h ++ [p0]) !! l = Some p → h !! l = Some p ∨ (l = length h ∧ p = p0).
Proof.
  intros E. destruct (decide (l < length h)) as [Hlt|Hge].
  - left. by rewrite lookup_app_l in E.
  - right. rewrite lookup_app_r in E by lia.
    destruct (l - length h) as [|k] eqn:Ek; simpl in E; [| by destruct k].
    split; [lia | congruence].
Qed.

Lemma createRoom_wellformed catalog host hostName desired idText avatarDraw m :
  wellformed catalog m →
  wellformed catalog (createRoom host hostName desired idText avatarDraw m).2.
Proof.
  intros (Hinv & Hmem & Hidx & Hsc & Hsh).
  split; [by apply createRoom_invariant |].
  unfold createRoom.
  set (newRoomId := match desired with Some _ => _ | None => _ end).
  destruct (rooms m !! newRoomId) eqn:E; [done |]. cbn [fst snd].
  set (hostPlayer := {| player_id := host |}).
  unfold members_placed, index_placed, scores_clamped.
  split; [| split; [| split]]; simpl.
  - intros c r sid l. rewrite lookup_insert. case_decide; subst.
    + intros [= <-]. simpl. case_decide; [| done]. intros [= <-]. subst.
      exists hostPlayer. by rewrite heap_app_lookup_new.
    + intros E1 E2. destruct (Hmem _ _ _ _ E1 E2) as (p & Hp & ?).
      exists p. split; [by apply heap_app_lookup_old | done].
  - intros sid l. rewrite lookup_insert. case_decide; subst.
    + intros [= <-]. eexists hostPlayer, _. rewrite heap_app_lookup_new.
      split; [done |]. split; [done |]. unfold hostPlayer. simpl.
      rewrite lookup_insert_eq.
      split; [done |]. simpl. by rewrite decide_True.
    + intros Hl. destruct (Hidx _ _ Hl) as (p & r & Hp & Hpid & Hr & Hget).
      exists p, r. split; [by apply heap_app_lookup_old |]. split; [done |].
      rewrite lookup_insert_ne; [done |]. intros Heq. rewrite <- Heq in Hr.
      congruence.
  - intros l p Hl. apply heap_app_lookup_inv in Hl as [Hl|[_ ->]]; [by eapply Hsc |].
    done.
  - intros c r. rewrite lookup_insert. case_decide; subst.
    + intros [= <-]. split.
      * split; [simpl; lia |]. split; [simpl; lia |]. split.
        -- simpl. intros i Hi. by apply elem_of_nil in Hi.
        -- simpl. by intros ? ?.
      * by unfold room_phase_ok.
    + apply Hsh.
Qed.

Lemma addPlayer_wellformed catalog sid playerName code avatarDraw m :
  wellformed catalog m →
  wellformed catalog (addPlayer sid playerName code avatarDraw m).2.
Proof.
  intros (Hinv & Hmem & Hidx & Hsc & Hsh).
  split; [by apply addPlayer_invariant |].
  unfold addPlayer.
  destruct (rooms m !! code) as [room|] eqn:E; [| done].
  destruct (JsMap.get sid (room_players room)) eqn:Eget; [done |]. cbn [fst snd].
  set (player := {| player_id := sid |}).
  unfold members_placed, index_placed, scores_clamped.
  split; [| split; [| split]]; simpl.
  - intros c r s l. rewrite lookup_insert. case_decide; subst.
    + intros [= <-]. simpl. rewrite JsMapFacts.get_set. case_decide; subst.
      * intros [= <-]. exists player. by rewrite heap_app_lookup_new.
      * intros E2. destruct (Hmem _ _ _ _ E E2) as (p & Hp & ?).
        exists p. split; [by apply heap_app_lookup_old | done].
    + intros E1 E2. destruct (Hmem _ _ _ _ E1 E2) as (p & Hp & ?).
      exists p. split; [by apply heap_app_lookup_old | done].
  - intros s l. rewrite lookup_insert. case_decide; subst.
    + intros [= <-]. eexists player, _. rewrite heap_app_lookup_new.
      split; [done |]. split; [done |]. unfold player. simpl.
      rewrite lookup_insert_eq.
      split; [done |]. simpl. rewrite JsMapFacts.get_set. by rewrite decide_True.
    + intros Hl. destruct (Hidx _ _ Hl) as (p & r & Hp & Hpid & Hr & Hget).
      destruct (decide (code = roomId p)) as [->|Hne].
      * eexists p, _. split; [by apply heap_app_lookup_old |]. split; [done |].
        rewrite lookup_insert_eq. split; [done |]. simpl.
        rewrite JsMapFacts.get_set, decide_False by done. congruence.
      * exists p, r. split; [by apply heap_app_lookup_old |]. split; [done |].
        by rewrite lookup_insert_ne.
  - intros l p Hl. apply heap_app_lookup_inv in Hl as [Hl|[_ ->]]; [by eapply Hsc |].
    done.
  - intros c r. rewrite lookup_insert. case_decide; subst.
    + intros [= <-]. by apply Hsh in E.
    + apply Hsh.
Qed.

(** Replacing the room of a departing member by one that no longer lists
    it. *)
Lemma wellformed_shrink_room catalog m code room room' sid :
  members_placed m → index_placed m → scores_clamped m →
  (∀ c r, rooms m !! c = Some r → room_shape catalog r) →
  rooms m !! code = Some room →
  room_players room' = JsMap.delete sid (room_players room) →
  (room_shape catalog room → room_shape catalog room') →
  let m' := {| rooms := <[code := room']> (rooms m);
               players := delete sid (players m); heap := heap m |} in
  members_placed m' ∧ index_placed m' ∧ scores_clamped m' ∧
  ∀ c r, rooms m' !! c = Some r → room_shape catalog r.
Proof.
  intros Hmem Hidx Hsc Hsh E Hps Hshape.
  unfold members_placed, index_placed, scores_clamped.
  split; [| split; [| split]]; simpl.
  - intros c r s l. rewrite lookup_insert. case_decide; subst.
    + intros [= <-]. rewrite Hps, JsMapFacts.get_delete.
      case_decide; [done |]. apply (Hmem _ _ _ _ E).
    + apply Hmem.
  - intros s l. rewrite lookup_delete. case_decide as Hs; [done |].
    intros Hl. destruct (Hidx _ _ Hl) as (p & r & Hp & Hpid & Hr & Hget).
    destruct (decide (code = roomId p)) as [->|Hne].
    + exists p, room'. split; [done |]. split; [done |].
      rewrite lookup_insert_eq. split; [done |].
      rewrite Hps, JsMapFacts.get_delete, decide_False by done. congruence.
    + exists p, r. split; [done |]. split; [done |].
      by rewrite lookup_insert_ne.
  - done.
  - intros c r. rewrite lookup_insert. case_decide; subst.
    + intros [= <-]. apply Hshape. by apply Hsh in E.
    + apply Hsh.
Qed.

Lemma removePlayer_wellformed catalog sid m :
  wellformed catalog m → wellformed catalog (removePlayer sid m).2.
Proof.
  intros (Hinv & Hmem & Hidx & Hsc & Hsh).
  split; [by apply removePlayer_invariant |].
  unfold removePlayer.
  destruct (players m !! sid) as [l|] eqn:El; [| done].
  destruct (heap m !! l) as [player|] eqn:Ep; [| done].
  destruct (Hidx _ _ El) as (p0 & room & Ep0 & Hsid & Er & Hget).
  assert (p0 = player) as -> by congruence. rewrite Er.
  case_decide as Hishost.
  - destruct (JsMap.values _) as [|l0 rest] eqn:Ev; cbn [fst snd].
    + (* the room is deleted *)
      destruct Hinv as [_ Hrooms].
      destruct (Hrooms _ _ Er) as [(Hrid & _ & _) _]. simpl in Ev.
      apply JsMapFacts.values_nil in Ev.
      unfold members_placed, index_placed, scores_clamped.
      simpl. rewrite Hrid, delete_insert_eq.
      split; [| split; [| split]]; simpl.
      * intros c r s l'. rewrite lookup_delete. case_decide; [done |]. apply Hmem.
      * intros s l'. rewrite lookup_delete. case_decide as Hs; [done |].
        intros Hl. destruct (Hidx _ _ Hl) as (p & r & Hp & Hpid & Hr & Hg).
        exists p, r. split; [done |]. split; [done |].
        rewrite lookup_delete. case_decide as Hc; [| done]. exfalso.
        rewrite <- Hc in Hr. assert (r = room) as -> by congruence.
        assert (Hg' : JsMap.get s (JsMap.delete sid (room_players room)) = None)
          by by rewrite Ev.
        rewrite JsMapFacts.get_delete, decide_False in Hg' by done. congruence.
      * done.
      * intros c r. rewrite lookup_delete. case_decide; [done |]. apply Hsh.
    + eapply (wellformed_shrink_room catalog m _ room _ sid); try done;
        by destruct (heap m !! l0).
  - cbn [fst snd]. by eapply (wellformed_shrink_room catalog m _ room _ sid).
Qed.

Lemma updateScore_wellformed catalog code playerId points m :
  wellformed catalog m → wellformed catalog (updateScore code playerId points m).2.
Proof.
  intros (Hinv & Hmem & Hidx & Hsc & Hsh).
  split; [by apply updateScore_invariant |].
  unfold updateScore.
  destruct (rooms m !! code) as [room|]; [| done].
  destruct (JsMap.get playerId (room_players room)) as [l|]; [| done].
  cbn [fst snd].
  pose proof (heap_extends_alter_score (heap m) l
                (λ p, Math_max (Finite 0) (number_add (score p) points))) as Hext.
  unfold members_placed, index_placed, scores_clamped.
  split; [| split; [| split]]; simpl.
  - intros c r s l' E1 E2. destruct (Hmem _ _ _ _ E1 E2) as (p & Hp & ? & ? & ?).
    destruct (Hext _ _ Hp) as (p' & ? & ? & ? & ?). exists p'.
    split; [done |]. split; [congruence |]. split; congruence.
  - intros s l' Hl. destruct (Hidx _ _ Hl) as (p & r & Hp & Hpid & Hr & Hg).
    destruct (Hext _ _ Hp) as (p' & ? & ? & ? & Hroom). exists p', r.
    split; [done |]. split; [congruence |]. rewrite Hroom. done.
  - intros l' p. destruct (decide (l = l')) as [->|Hne].
    + rewrite list_lookup_alter_eq. destruct (heap m !! l'); [| done].
      simpl. intros [= <-]. simpl. apply Math_max_clamped.
    + rewrite list_lookup_alter_ne by done. apply Hsc.
  - done.
Qed.

Lemma giveScore_wellformed catalog code playerId scoreAmount m :
  wellformed catalog m → wellformed catalog (giveScore code playerId scoreAmount m).2.
Proof.
  intros H. unfold giveScore. destruct (number_lt _ _ || number_lt _ _); [done |]. by apply updateScore_wellformed.
Qed.

Lemma initial_wellformed catalog : wellformed catalog initial.
Proof.
  split; [apply initial_invariant |].
  unfold members_placed, index_placed, scores_clamped.
  split; [| split; [| split]]; simpl; intros *; by rewrite ?lookup_empty.
Qed.

Lemma exec_wellformed catalog o m :
  wellformed catalog m → wellformed catalog (exec catalog o m).
Proof.
  destruct o; simpl.
  - apply createRoom_wellformed.
  - apply addPlayer_wellformed.
  - apply removePlayer_wellformed.
  - apply with_room_wellformed;
      [apply startGame_room_local | apply startGame_room_shape].
  - apply with_room_wellformed;
      [apply nextRound_room_local | apply nextRound_room_shape].
  - apply with_room_wellformed;
      [apply startRoundPlaying_room_local | apply startRoundPlaying_room_shape].
  - apply with_room_wellformed;
      [apply handleBuzz_room_local | apply handleBuzz_room_shape].
  - apply with_room_wellformed;
      [apply showRoundResult_room_local | apply showRoundResult_room_shape].
  - apply updateScore_wellformed.
  - apply giveScore_wellformed.
  - apply with_room_wellformed;
      [apply resetRound_room_local | apply resetRound_room_shape].
Qed.

Lemma reachable_wellformed catalog m : reachable catalog m → wellformed catalog m.
Proof.
  induction 1 as [|o m _ IH]; [apply initial_wellformed | by apply exec_wellformed].
Qed.

(** C5. The catalog of the repository is smaller than the total-rounds
    target of every room, and a call of [nextRound] that selects an item
    does one of two things. Either it selects the first of its first 99
    draws that is not in the used-set of the room, and adds it to the
    used-set. Or each of these 99 draws hit an item of the used-set (the
    exhaustion path): the 100th draw is discarded, the used-set is reset,
    and the next draw is selected unconditionally, the used-set then
    holding it alone. [nextRound] throws 'No songs available' only if
    the catalog is empty. *)
Theorem nextRound_selection catalog code draws now m room :
  reachable catalog m →
  rooms m !! code = Some room →
  length SONGS < totalRounds room ∧
  ((nextRound catalog code draws now m).1 = Throw NoContentAvailable →
     catalog = []) ∧
  (∀ room' round,
     (nextRound catalog code draws now m).1 = Return () →
     rooms (nextRound catalog code draws now m).2 !! code = Some room' →
     currentRound room' = Some round →
     song round ∈ catalog ∧
     ((∃ k, k < 99 ∧
            (∀ j, j < k →
               ∃ s, getRandomSong catalog (draws j) = Some s ∧
                    song_id s ∈ songsPlayed room) ∧
            getRandomSong catalog (draws k) = Some (song round) ∧
            (song_id (song round) ∉ songsPlayed room) ∧
            songsPlayed room' = songsPlayed room ++ [song_id (song round)]) ∨
      ((∀ j, j < 99 →
          ∃ s, getRandomSong catalog (draws j) = Some s ∧
               song_id s ∈ songsPlayed room) ∧
       getRandomSong catalog (draws 100) = Some (song round) ∧
       songsPlayed room' = [song_id (song round)]))).
Proof.
  intros Hreach E.
  destruct (reachable_wellformed _ _ Hreach) as ([_ Hrooms] & _ & _ & _ & Hshape).
  destruct (Hrooms _ _ E) as [_ (Ht & _)].
  destruct (Hshape _ _ E) as [_ Hphase].
  split; [rewrite Ht; simpl; lia |].
  unfold nextRound. rewrite (with_room_found _ _ _ _ E). cbn [fst snd].
  rewrite lookup_put_room, decide_True by done.
  rewrite nextRound_room_unfold.
  destruct (decide (state room = LOBBY)) as [HL|HL].
  - unfold room_phase_ok in Hphase. rewrite HL in Hphase.
    destruct Hphase as [_ Hplayed].
    case_decide; [by split |].
    set (room1 := set_songsPlayed [] _).
    assert (Hsame : songsPlayed room1 = songsPlayed room) by by rewrite Hplayed.
    destruct (advance_round_selection catalog draws now room1) as [Hnone Hsel].
    split; [done |]. intros room' round Hret [= <-] Hround.
    destruct (Hsel _ Hret Hround) as (Hin & _). split; [done |].
    rewrite <- Hsame. by apply advance_round_pinned.
  - destruct (advance_round_selection catalog draws now room) as [Hnone Hsel].
    split; [done |]. intros room' round Hret [= <-] Hround.
    destruct (Hsel _ Hret Hround) as (Hin & _). split; [done |].
    by apply advance_round_pinned.
Qed.










(** The manager does not look at the index when a session joins: a
    session that is in one room is added to any other room it asks for,
    and is then listed in both. *)
Lemma addPlayer_second_room sid playerName code avatarDraw m room code' :
  rooms m !! code = Some room →
  JsMap.get sid (room_players room) = None →
  member_of sid code' m → code' ≠ code →
  (addPlayer sid playerName code avatarDraw m).1 = Return (length (heap m)) ∧
  member_of sid code (addPlayer sid playerName code avatarDraw m).2 ∧
  member_of sid code' (addPlayer sid playerName code avatarDraw m).2.
Proof.
  intros E Hget (room' & E' & Hhas) Hne. unfold addPlayer. rewrite E, Hget.
  cbn [fst snd]. split; [done |]. split.
  - eexists. cbn [rooms]. rewrite lookup_insert_eq. split; [done |].
    apply JsMapFacts.has_true. cbn [room_players set_room_players].
    rewrite JsMapFacts.get_set, decide_True by done. eauto.
  - exists room'. cbn [rooms]. by rewrite lookup_insert_ne.
Qed.

Lemma createRoom_second_room host hostName code idText avatarDraw m code' :
  code ≠ "" → rooms m !! code = None → member_of host code' m →
  (createRoom host hostName (Some code) idText avatarDraw m).1 = Return code ∧
  member_of host code (createRoom host hostName (Some code) idText avatarDraw m).2 ∧
  member_of host code' (createRoom host hostName (Some code) idText avatarDraw m).2.
Proof.
  intros Hcode E (room' & E' & Hhas). unfold createRoom.
  rewrite decide_False by done. rewrite E. cbn [fst snd].
  split; [done |]. split.
  - eexists. cbn [rooms]. rewrite lookup_insert_eq. split; [done |].
    apply JsMapFacts.has_true. cbn [room_players JsMap.set JsMap.get].
    rewrite decide_True by done. eauto.
  - exists room'. cbn [rooms]. rewrite lookup_insert_ne; [done |].
    intros ->. congruence.
Qed.


(* ===== EXTRAS: manager ===== *)

(** X1. In every reachable state an entry of the index leads to a player
    object that carries the session as its id, and the room that object
    names is registered and lists that very object under that session;
    [getPlayer] returns it. *)
Theorem index_refers_to_member catalog m sid l :
  reachable catalog m →
  players m !! sid = Some l →
  ∃ p room,
    heap m !! l = Some p ∧ getPlayer sid m = Some p ∧
    player_id p = sid ∧ socketId p = sid ∧
    rooms m !! roomId p = Some room ∧ room_id room = roomId p ∧
    JsMap.get sid (room_players room) = Some l.
Proof.
  intros Hreach Hl.
  destruct (reachable_wellformed _ _ Hreach) as ([_ Hrooms] & Hmem & Hidx & _).
  destruct (Hidx _ _ Hl) as (p & room & Hp & Hpid & Hr & Hget).
  destruct (Hmem _ _ _ _ Hr Hget) as (p' & Hp' & _ & _ & Hsock).
  assert (p' = p) as -> by congruence.
  destruct (Hrooms _ _ Hr) as [(Hrid & _) _].
  exists p, room. repeat (split; [done |]).
  split; [| done]. unfold getPlayer. rewrite Hl. simpl. done.
Qed.

Lemma removePlayer_found catalog m sid l :
  reachable catalog m →
  players m !! sid = Some l →
  ∃ p room,
    heap m !! l = Some p ∧ rooms m !! roomId p = Some room ∧
    match JsMap.delete sid (room_players room) with
    | [] =>
        hostId room = sid ∧
        removePlayer sid m =
          ((None, Some l),
           {| rooms := delete (roomId p) (rooms m);
              players := delete sid (players m); heap := heap m |})
    | (next, l') :: rest =>
        let room' :=
          set_hostId (if decide (hostId room = sid) then next else hostId room)
            (set_room_players ((next, l') :: rest) room) in
        removePlayer sid m =
          ((Some room', Some l),
           {| rooms := <[roomId p := room']> (rooms m);
              players := delete sid (players m); heap := heap m |})
    end.
Proof.
  intros Hreach Hl.
  destruct (reachable_wellformed _ _ Hreach) as ([_ Hrooms] & Hmem & Hidx & _).
  destruct (Hidx _ _ Hl) as (p & room & Hp & Hpid & Hr & Hget).
  destruct (Hrooms _ _ Hr) as [(Hrid & Hhost & _) _].
  exists p, room. split; [done |]. split; [done |].
  unfold removePlayer. rewrite Hl, Hp, Hr. rewrite Hpid. simpl.
  destruct (JsMap.delete sid (room_players room)) as [|[next l'] rest] eqn:Ed.
  - assert (Hh : hostId room = sid).
    { destruct (decide (hostId room = sid)) as [|Hne]; [done |]. exfalso.
      assert (Hg : JsMap.get (hostId room) (JsMap.delete sid (room_players room)) = None)
        by by rewrite Ed.
      rewrite JsMapFacts.get_delete, decide_False in Hg by done.
      rewrite Hg in Hhost. by destruct Hhost. }
    split; [done |]. rewrite decide_True by done. simpl.
    by rewrite Hrid, delete_insert_eq.
  - simpl. destruct (decide (sid = hostId room)) as [Heq|Hne].
    + rewrite decide_True by done. simpl.
      assert (Hg : JsMap.get next (JsMap.delete sid (room_players room)) = Some l').
      { rewrite Ed. simpl. by rewrite decide_True. }
      rewrite JsMapFacts.get_delete in Hg. case_decide; [done |].
      destruct (Hmem _ _ _ _ Hr Hg) as (newHost & -> & _ & _ & ->). done.
    + rewrite decide_False by done. done.
Qed.

(** X2. What [removePlayer] does for a session of the index, in a
    reachable state: the session leaves the index and the roster of its
    room; if nobody is left the room is deleted and no room is returned
    (and the leaver was the host); otherwise the room is returned with
    the others in their order, and the host is the first of them if the
    leaver was the host, and unchanged if not. Nothing else changes. *)
Theorem removePlayer_outcome catalog m sid l :
  reachable catalog m →
  players m !! sid = Some l →
  ∃ p room,
    heap m !! l = Some p ∧ rooms m !! roomId p = Some room ∧
    match JsMap.delete sid (room_players room) with
    | [] =>
        hostId room = sid ∧
        removePlayer sid m =
          ((None, Some l),
           {| rooms := delete (roomId p) (rooms m);
              players := delete sid (players m); heap := heap m |})
    | (next, l') :: rest =>
        let room' :=
          set_hostId (if decide (hostId room = sid) then next else hostId room)
            (set_room_players ((next, l') :: rest) room) in
        removePlayer sid m =
          ((Some room', Some l),
           {| rooms := <[roomId p := room']> (rooms m);
              players := delete sid (players m); heap := heap m |})
    end.
Proof. apply removePlayer_found. Qed.

(** X3. [removePlayer] for a session that is not in the index returns
    [{ room: null, player: null }] and changes nothing; and after
    [removePlayer] the session is not in the index, so that removing it
    again is such a no-op. *)
Theorem removePlayer_twice catalog m sid :
  reachable catalog m →
  (players m !! sid = None → removePlayer sid m = ((None, None), m)) ∧
  players (removePlayer sid m).2 !! sid = None ∧
  getPlayer sid (removePlayer sid m).2 = None ∧
  removePlayer sid (removePlayer sid m).2 = ((None, None), (removePlayer sid m).2).
Proof.
  intros Hreach.
  assert (Hunknown : ∀ m', players m' !! sid = None →
            removePlayer sid m' = ((None, None), m')).
  { intros m' E. unfold removePlayer. by rewrite E. }
  assert (Hgone : players (removePlayer sid m).2 !! sid = None).
  { destruct (players m !! sid) as [l|] eqn:Hl; [| by rewrite Hunknown].
    destruct (reachable_refs _ _ Hreach) as [Hvalid _].
    destruct (Hvalid _ _ Hl) as (p & Hp & _).
    unfold removePlayer. rewrite Hl, Hp.
    destruct (rooms m !! roomId p) as [room|]; [| apply lookup_delete_eq].
    case_decide; [| apply lookup_delete_eq].
    destruct (JsMap.values _); apply lookup_delete_eq. }
  split; [apply Hunknown |]. split; [done |]. split.
  - unfold getPlayer. by rewrite Hgone.
  - by apply Hunknown.
Qed.

Lemma JsMap_get_of_elem {V : Type} (m : JsMap.t V) k v :
  NoDup (JsMap.keys m) → (k, v) ∈ m → JsMap.get k m = Some v.
Proof.
  unfold JsMap.keys. induction m as [|[k0 v0] m IH]; simpl.
  - intros _ H. by apply elem_of_nil in H.
  - rewrite NoDup_cons. intros [Hk0 Hnd]. rewrite elem_of_cons.
    intros [[= -> ->]|Hin]; [by rewrite decide_True |].
    case_decide; subst; [| by apply IH].
    exfalso. apply Hk0. apply list_elem_of_fmap. by exists (k0, v).
Qed.

(** The roster of a room whose references are all valid: one object per
    member, in the order of the map. *)
Lemma roster_of_valid (h : list GamePlayer) (ps : JsMap.t nat) :
  (∀ k l, (k, l) ∈ ps → ∃ p, h !! l = Some p ∧ player_id p = k) →
  length (omap (λ l, h !! l) (JsMap.values ps)) = length ps ∧
  player_id <$> omap (λ l, h !! l) (JsMap.values ps) = JsMap.keys ps.
Proof.
  unfold JsMap.values, JsMap.keys. induction ps as [|[k l] ps IH]; intros H; [done |].
  destruct (H k l) as (p & Hp & Hid); [by left |].
  destruct IH as [IH1 IH2].
  { intros k' l' Hin. apply H. by right. }
  simpl. rewrite Hp. simpl. split; [by f_equal | by f_equal].
Qed.

Lemma wellformed_roster catalog m code room :
  wellformed catalog m → rooms m !! code = Some room →
  length (getPlayersInRoom code m) = JsMap.size (room_players room) ∧
  player_id <$> getPlayersInRoom code m = JsMap.keys (room_players room) ∧
  ∀ p, p ∈ getPlayersInRoom code m →
       ∃ l, JsMap.get (player_id p) (room_players room) = Some l ∧
            heap m !! l = Some p ∧ roomId p = code ∧ socketId p = player_id p.
Proof.
  intros ([_ Hrooms] & Hmem & _) E.
  destruct (Hrooms _ _ E) as [(_ & _ & Hnd) _].
  unfold getPlayersInRoom. rewrite E.
  assert (Hvalid : ∀ k l, (k, l) ∈ room_players room →
            ∃ p, heap m !! l = Some p ∧ player_id p = k).
  { intros k l Hin. pose proof (JsMap_get_of_elem _ _ _ Hnd Hin) as Hget.
    destruct (Hmem _ _ _ _ E Hget) as (p & ? & ? & ? & ?). by exists p. }
  destruct (roster_of_valid _ _ Hvalid) as [H1 H2].
  split; [done |]. split; [done |].
  intros p Hp. apply list_elem_of_omap in Hp as (l & Hl & Hhp).
  unfold JsMap.values in Hl. apply list_elem_of_fmap in Hl as ([k l'] & -> & Hin).
  simpl in *. pose proof (JsMap_get_of_elem _ _ _ Hnd Hin) as Hget.
  destruct (Hmem _ _ _ _ E Hget) as (p' & Hp' & ? & ? & ?).
  assert (p' = p) as -> by congruence. exists l'.
  split; [congruence |]. split; [done |]. split; congruence.
Qed.

Lemma with_room_heap {A : Type} code (body : GameRoom → outcome A * GameRoom) m :
  heap (with_room code body m).2 = heap m.
Proof.
  unfold with_room. destruct (rooms m !! code) as [room|]; [| done].
  by destruct (body room).
Qed.

Lemma removePlayer_heap sid m : heap (removePlayer sid m).2 = heap m.
Proof.
  unfold removePlayer.
  destruct (players m !! sid) as [l|]; [| done].
  destruct (heap m !! l) as [player|]; [| done].
  destruct (rooms m !! roomId player) as [room|]; [| done].
  case_decide; [| done]. by destruct (JsMap.values _).
Qed.

(** A call leaves in the object store the scores it found, a score 0 in
    a new object, or the score [updateScore] computes from the amount of
    the call. *)
Lemma exec_scores (P : number → Prop) catalog o m :
  P (Finite 0) →
  (∀ a x, amount_of o = Some a → P x →
     P (Math_max (Finite 0) (number_add x a))) →
  (∀ l p, heap m !! l = Some p → P (score p)) →
  ∀ l p, heap (exec catalog o m) !! l = Some p → P (score p).
Proof.
  intros H0 Hstep Hm.
  assert (Hupd : ∀ code playerId a l p,
            (∀ x, P x → P (Math_max (Finite 0) (number_add x a))) →
            heap (updateScore code playerId a m).2 !! l = Some p → P (score p)).
  { intros code playerId a l p Ha. unfold updateScore.
    destruct (rooms m !! code) as [room|]; [| apply Hm].
    destruct (JsMap.get playerId (room_players room)) as [l0|]; [| apply Hm].
    cbn [snd heap]. destruct (decide (l0 = l)) as [->|Hne].
    - rewrite list_lookup_alter_eq. destruct (heap m !! l) as [p0|] eqn:E; [| done].
      simpl. intros [= <-]. simpl. by eapply Ha, Hm.
    - rewrite list_lookup_alter_ne by done. apply Hm. }
  destruct o; simpl;
    unfold startGame, nextRound, startRoundPlaying, handleBuzz, showRoundResult,
      resetRound;
    rewrite ?with_room_heap, ?removePlayer_heap; try apply Hm.
  - unfold createRoom. destruct (rooms m !! _); [apply Hm |]. cbn [snd heap].
    intros l p [Hl|[_ ->]]%heap_app_lookup_inv; [by eapply Hm | done].
  - unfold addPlayer. destruct (rooms m !! code) as [room|]; [| apply Hm].
    destruct (JsMap.get sid (room_players room)); [apply Hm |]. cbn [snd heap].
    intros l p [Hl|[_ ->]]%heap_app_lookup_inv; [by eapply Hm | done].
  - intros l p. apply Hupd. intros x. by apply Hstep.
  - unfold giveScore. destruct (number_lt _ _ || number_lt _ _); [apply Hm |].
    intros l p. apply Hupd. intros x. by apply Hstep.
Qed.

Lemma run_scores_at_least_zero catalog ops m :
  finite_amounts ops → scores_at_least_zero m →
  scores_at_least_zero (run catalog ops m).
Proof.
  revert m. induction ops as [|o ops IH]; intros m Hfin Hm; [done |].
  apply Forall_cons in Hfin as [Ho Hfin]. simpl. apply IH; [done |].
  unfold scores_at_least_zero.
  apply (exec_scores (λ x, number_le (Finite 0) x = true)); [done | | done].
  intros a x Ha Hx. apply update_at_least; [by eapply number_le_not_NaN | by apply Ho].
Qed.

Lemma heap_of_getPlayer sid m p :
  getPlayer sid m = Some p → ∃ l, heap m !! l = Some p.
Proof.
  unfold getPlayer. destruct (players m !! sid) as [l|]; [| done].
  simpl. by exists l.
Qed.

Lemma heap_of_getPlayersInRoom code m p :
  p ∈ getPlayersInRoom code m → ∃ l, heap m !! l = Some p.
Proof.
  unfold getPlayersInRoom.
  destruct (rooms m !! code) as [room|]; [| by intros H%elem_of_nil].
  intros (l & _ & Hl)%list_elem_of_omap. by exists l.
Qed.

(** X4. In every reachable state no score is below 0, whether the player
    is read from the index or from the roster of a room: [score < 0] is
    false, the score being [NaN] or at least 0. From a state in which
    every score is at least 0, such as the initial one, calls whose
    amounts are all finite numbers leave every score at least 0. *)
Theorem scores_never_negative catalog m :
  reachable catalog m →
  (∀ sid p, getPlayer sid m = Some p → number_lt (score p) (Finite 0) = false) ∧
  (∀ code p, p ∈ getPlayersInRoom code m →
     number_lt (score p) (Finite 0) = false) ∧
  (∀ ops, finite_amounts ops → scores_at_least_zero m →
     (∀ sid p, getPlayer sid (run catalog ops m) = Some p →
        number_le (Finite 0) (score p) = true) ∧
     (∀ code p, p ∈ getPlayersInRoom code (run catalog ops m) →
        number_le (Finite 0) (score p) = true)).
Proof.
  intros Hreach.
  destruct (reachable_wellformed _ _ Hreach) as (_ & _ & _ & Hsc & _).
  split; [| split].
  - intros sid p [l Hl]%heap_of_getPlayer. by eapply Hsc.
  - intros code p [l Hl]%heap_of_getPlayersInRoom. by eapply Hsc.
  - intros ops Hfin Hm.
    pose proof (run_scores_at_least_zero catalog ops m Hfin Hm) as Hrun.
    split.
    + intros sid p [l Hl]%heap_of_getPlayer. by eapply Hrun.
    + intros code p [l Hl]%heap_of_getPlayersInRoom. by eapply Hrun.
Qed.

Lemma giveScore_passes code playerId amount m :
  number_lt amount (Finite 0) = false → number_lt (of_Z 10) amount = false →
  giveScore code playerId amount m = updateScore code playerId amount m.
Proof. intros H0 H10. unfold giveScore. by rewrite H0, H10. Qed.

(** X5. [giveScore] rejects an amount for which [amount < 0] or
    [amount > 10] holds, before it looks at the room, changing nothing.
    Every other amount, [NaN] included, goes to [updateScore]: in a
    reachable state, for a member of the room, the call returns and the
    score becomes the sum of the old score and the amount, rounded to
    the nearest double (the floor at 0 never applies). With the amount
    [NaN] the score becomes [NaN]; with integers whose sum has at most
    53 bits it is exactly the sum. A second amount is added to the
    rounded sum in the same way. *)
Theorem giveScore_adds catalog m code playerId :
  reachable catalog m →
  (∀ amount,
     number_lt amount (Finite 0) = true ∨ number_lt (of_Z 10) amount = true →
     giveScore code playerId amount m = (Throw InvalidScoreAmount, m)) ∧
  (∀ room l p amount,
     rooms m !! code = Some room →
     JsMap.get playerId (room_players room) = Some l →
     heap m !! l = Some p →
     number_lt amount (Finite 0) = false → number_lt (of_Z 10) amount = false →
     (giveScore code playerId amount m).1 = Return () ∧
     heap (giveScore code playerId amount m).2 !! l =
       Some (set_score (number_add (score p) amount) p) ∧
     (amount = NaN →
      heap (giveScore code playerId amount m).2 !! l = Some (set_score NaN p)) ∧
     (∀ a b, score p = of_Z a → amount = of_Z b → (Z.abs (a + b) ≤ 2 ^ 53)%Z →
        heap (giveScore code playerId amount m).2 !! l =
          Some (set_score (of_Z (a + b)) p)) ∧
     ∀ amount',
       number_lt amount' (Finite 0) = false →
       number_lt (of_Z 10) amount' = false →
       heap (giveScore code playerId amount'
               (giveScore code playerId amount m).2).2 !! l =
         Some (set_score (number_add (number_add (score p) amount) amount') p)).
Proof.
  intros Hreach.
  destruct (reachable_wellformed _ _ Hreach) as (_ & _ & _ & Hsc & _).
  split.
  - intros amount Hbad. unfold giveScore. by destruct Hbad as [-> | ->]; rewrite ?orb_true_r.
  - intros room l p amount E Hget Hp H0 H10.
    assert (Hgive : ∀ m' p' a, rooms m' !! code = Some room →
              heap m' !! l = Some p' → number_lt (score p') (Finite 0) = false →
              number_lt a (Finite 0) = false → number_lt (of_Z 10) a = false →
              giveScore code playerId a m' =
                (Return (),
                 {| rooms := rooms m'; players := players m';
                    heap := alter (λ q, set_score
                                          (Math_max (Finite 0)
                                             (number_add (score q) a)) q)
                              l (heap m') |}) ∧
              alter (λ q, set_score (Math_max (Finite 0) (number_add (score q) a)) q)
                l (heap m') !! l =
                Some (set_score (number_add (score p') a) p')).
    { intros m' p' a E' Hp' Hs Ha0 Ha10.
      rewrite giveScore_passes by done.
      rewrite (updateScore_found _ _ _ _ _ _ E' Hget). split; [done |].
      rewrite list_lookup_alter_eq, Hp'. cbn [fmap option_fmap option_map].
      by rewrite Math_max_keeps by by apply number_add_clamped. }
    destruct (Hgive m p amount E Hp (Hsc _ _ Hp) H0 H10) as [Hg1 Hl1].
    rewrite Hg1. cbn [fst snd].
    remember {| rooms := rooms m; players := players m;
                heap := alter (λ q, set_score
                                      (Math_max (Finite 0)
                                         (number_add (score q) amount)) q)
                          l (heap m) |} as m1 eqn:Hm1.
    assert (E1 : rooms m1 !! code = Some room) by (by rewrite Hm1).
    assert (Hl1' : heap m1 !! l = Some (set_score (number_add (score p) amount) p))
      by (by rewrite Hm1).
    split; [done |]. split; [exact Hl1' |]. split.
    { intros ->. by rewrite Hl1', number_add_NaN_r. }
    split.
    { intros a b Ha Hb Hsum. rewrite Hl1', Ha, Hb. by rewrite number_add_of_Z. }
    intros amount' H0' H10'.
    destruct (Hgive m1 _ amount' E1 Hl1') as [Hg2 Hl2]; [| done | done |].
    + simpl. apply number_add_clamped; [by eapply Hsc | done].
    + rewrite Hg2. exact Hl2.
Qed.

Lemma allowed_refl s : allowed s s = true.
Proof. by destruct s. Qed.

Lemma advance_round_state catalog draws now room :
  (totalRounds room ≤ roundNumber room ∧
   state (advance_round catalog draws now room).2 = GAME_OVER) ∨
  (¬ totalRounds room ≤ roundNumber room ∧
   (state (advance_round catalog draws now room).2 = state room ∨
    state (advance_round catalog draws now room).2 = ROUND_LOADING)).
Proof.
  unfold advance_round. case_decide; [by left |]. right. split; [done |].
  destruct (select_song catalog draws (songsPlayed room)) as [[s|] played]; simpl; auto.
Qed.

Lemma nextRound_room_allowed catalog draws now room :
  room_rounds_ok room → room_shape catalog room →
  allowed (state room) (state (nextRound_room catalog draws now room).2) = true.
Proof.
  intros (Ht & Hl & _) [(Hle & _) Hphase]. rewrite nextRound_room_unfold.
  destruct (decide (state room = LOBBY)) as [HL|HL].
  - case_decide; [apply allowed_refl |]. destruct (Hl HL) as [_ H0]. rewrite HL.
    match goal with |- context [advance_round _ _ _ ?r] =>
      destruct (advance_round_state catalog draws now r) as [[Hover _]|[_ [->| ->]]]
    end; simpl in *; [lia | done | done].
  - destruct (advance_round_state catalog draws now room) as [[Hover ->]|[Hn [->| ->]]].
    + by destruct (state room).
    + apply allowed_refl.
    + unfold room_phase_ok in Hphase.
      destruct (state room); try done. destruct Hphase as [_ Heq]. lia.
Qed.

Lemma resetRound_room_allowed catalog draws now room :
  room_rounds_ok room → room_shape catalog room →
  allowed (state room) (state (resetRound_room catalog draws now room).2) = true.
Proof.
  intros Hok Hshape. unfold resetRound_room.
  case_decide as Hst; [| apply allowed_refl].
  rewrite nextRound_room_unfold. simpl.
  rewrite decide_False by (destruct Hst; congruence).
  match goal with |- context [advance_round _ _ _ ?r] =>
    destruct (advance_round_state catalog draws now r) as [[_ ->]|[_ [->| ->]]]
  end; simpl; destruct Hst as [-> | ->]; done.
Qed.

Lemma with_room_allowed {A : Type} catalog c
    (body : GameRoom → outcome A * GameRoom) m code room room' :
  (∀ r, room_rounds_ok r → room_shape catalog r →
        allowed (state r) (state (body r).2) = true) →
  wellformed catalog m →
  rooms m !! code = Some room →
  rooms (with_room c body m).2 !! code = Some room' →
  allowed (state room) (state room') = true.
Proof.
  intros Hbody ([_ Hrooms] & _ & _ & _ & Hsh) E.
  destruct (rooms m !! c) as [r|] eqn:Ec;
    [rewrite (with_room_found _ _ _ _ Ec)
    | rewrite (with_room_missing _ _ _ Ec)]; cbn [fst snd].
  - rewrite lookup_put_room. case_decide; subst.
    + intros [= <-]. assert (r = room) as -> by congruence.
      apply Hbody; [by destruct (Hrooms _ _ E) | by apply Hsh in E].
    + intros E'. assert (room' = room) as -> by congruence. apply allowed_refl.
  - intros E'. assert (room' = room) as -> by congruence. apply allowed_refl.
Qed.

(** X6. The state of a room only ever moves along the edges of
    [allowed], whatever method is called with whatever arguments: from
    LOBBY only to ROUND_LOADING; to ROUND_PLAYING only from
    ROUND_LOADING; to ROUND_LOCKED only from ROUND_PLAYING; to
    ROUND_RESULT only from ROUND_LOCKED; never back to LOBBY; and never
    out of GAME_OVER. *)
Theorem state_moves_along_allowed catalog m o code room room' :
  reachable catalog m →
  rooms m !! code = Some room →
  rooms (exec catalog o m) !! code = Some room' →
  allowed (state room) (state room') = true.
Proof.
  intros Hreach E.
  pose proof (reachable_wellformed _ _ Hreach) as Hwf.
  assert (Hsame : ∀ r, state r = state room → allowed (state room) (state r) = true).
  { intros r ->. apply allowed_refl. }
  destruct o; simpl.
  - unfold createRoom.
    set (newRoomId := match desired with Some _ => _ | None => _ end).
    destruct (rooms m !! newRoomId) eqn:En; simpl.
    + intros E'. apply Hsame. congruence.
    + rewrite lookup_insert. case_decide; subst; [congruence |].
      intros E'. apply Hsame. congruence.
  - unfold addPlayer. destruct (rooms m !! code0) as [r|] eqn:Ec; simpl;
      [| simpl; intros E'; apply Hsame; congruence].
    destruct (JsMap.get sid (room_players r)); simpl;
      [intros E'; apply Hsame; congruence |].
    rewrite lookup_insert. case_decide; subst.
    + intros [= <-]. apply Hsame. simpl. congruence.
    + intros E'. apply Hsame. congruence.
  - unfold removePlayer.
    destruct (players m !! sid) as [l|]; [| simpl; intros E'; apply Hsame; congruence].
    destruct (heap m !! l) as [player|]; [| simpl; intros E'; apply Hsame; congruence].
    destruct (rooms m !! roomId player) as [r|] eqn:Er;
      [| simpl; intros E'; apply Hsame; congruence].
    assert (Hins : ∀ r', state r' = state r →
              <[roomId player := r']> (rooms m) !! code = Some room' →
              allowed (state room) (state room') = true).
    { intros r' Hst. rewrite lookup_insert. case_decide; subst.
      - intros [= <-]. apply Hsame. congruence.
      - intros E'. apply Hsame. congruence. }
    case_decide; [| simpl; by apply Hins].
    destruct (JsMap.values _) as [|l0 rest]; simpl.
    + rewrite lookup_delete. case_decide; [done |]. by apply Hins.
    + apply Hins. by destruct (heap m !! l0).
  - apply (with_room_allowed catalog); try done.
    intros r _ _. unfold startGame_room. repeat case_decide; try apply allowed_refl.
    assert (Hs : state r = LOBBY) by (by destruct (state r)).
    simpl. by rewrite Hs.
  - apply (with_room_allowed catalog); try done.
    intros r. apply nextRound_room_allowed.
  - apply (with_room_allowed catalog); try done.
    intros r _ _. unfold startRoundPlaying_room. case_decide; [apply allowed_refl |].
    assert (Hs : state r = ROUND_LOADING) by (by destruct (state r)).
    destruct (currentRound r); simpl; by rewrite Hs.
  - apply (with_room_allowed catalog); try done.
    intros r _ _. unfold handleBuzz_room. case_decide; [apply allowed_refl |].
    assert (Hs : state r = ROUND_PLAYING) by (by destruct (state r)).
    destruct (currentRound r) as [rd|]; [| simpl; by rewrite Hs].
    destruct (buzzedPlayerId rd); simpl; by rewrite Hs.
  - apply (with_room_allowed catalog); try done.
    intros r _ _. unfold showRoundResult_room. case_decide; [apply allowed_refl |].
    assert (Hs : state r = ROUND_LOCKED) by (by destruct (state r)).
    simpl. by rewrite Hs.
  - rewrite updateScore_rooms. intros E'. apply Hsame. congruence.
  - rewrite giveScore_rooms. intros E'. apply Hsame. congruence.
  - apply (with_room_allowed catalog); try done.
    intros r. apply resetRound_room_allowed.
Qed.

(** X7. In a reachable state [handleBuzz] returns [true] exactly for a
    room in ROUND_PLAYING: such a room always has a round in place, with
    no buzz in it. The round in place carries a buzz exactly in
    ROUND_LOCKED and ROUND_RESULT, and then also the time of the buzz. *)
Theorem buzz_open_iff_playing catalog m code room :
  reachable catalog m →
  rooms m !! code = Some room →
  (∀ playerId now,
     (handleBuzz code playerId now m).1 = Return true ↔
     state room = ROUND_PLAYING) ∧
  (state room = ROUND_PLAYING → is_Some (currentRound room)) ∧
  (∀ round, currentRound room = Some round →
     (is_Some (buzzedPlayerId round) ↔
      state room = ROUND_LOCKED ∨ state room = ROUND_RESULT) ∧
     (is_Some (buzzTime round) ↔ is_Some (buzzedPlayerId round))).
Proof.
  intros Hreach E.
  destruct (reachable_wellformed _ _ Hreach) as (_ & _ & _ & _ & Hsh).
  destruct (Hsh _ _ E) as [_ Hphase]. unfold room_phase_ok in Hphase.
  split; [| split].
  - intros playerId now. unfold handleBuzz.
    rewrite (with_room_found _ _ _ _ E). cbn [fst snd]. unfold handleBuzz_room.
    case_decide as Hst; [by split |].
    assert (HP : state room = ROUND_PLAYING) by (by destruct (state room)).
    rewrite HP in Hphase. destruct Hphase as (round & -> & -> & _). by split.
  - intros HP. rewrite HP in Hphase. destruct Hphase as (round & -> & _). by eexists.
  - intros round Hr.
    destruct (state room); try (rewrite Hr in Hphase; by destruct Hphase).
    + destruct (Hphase _ Hr) as [-> ->]. split; split; try by intros [? ?].
      by intros [?|?].
    + destruct Hphase as (round' & Hr' & Hb & Ht).
      assert (round' = round) as -> by congruence. rewrite Hb, Ht.
      split; split; try by intros [? ?]. by intros [?|?].
    + destruct Hphase as [Hphase _]. destruct (Hphase _ Hr) as [Hb Ht].
      split; split; auto.
    + destruct Hphase as [Hphase _]. destruct (Hphase _ Hr) as [Hb Ht].
      split; split; auto.
Qed.

(** X8. The bookkeeping of rounds in a reachable state: the counter never
    passes the target of 10; the played list is no longer than the
    counter and holds only ids of the catalog; the round in place plays a
    song of the catalog, the last one of the played list, and the counter
    is then at least 1; in LOBBY the counter is 0 and the list empty; in
    GAME_OVER the counter equals the target; neither has a round. *)
Theorem round_bookkeeping catalog m code room :
  reachable catalog m →
  rooms m !! code = Some room →
  totalRounds room = 10 ∧
  roundNumber room ≤ totalRounds room ∧
  length (songsPlayed room) ≤ roundNumber room ∧
  (∀ i, i ∈ songsPlayed room → ∃ s, s ∈ catalog ∧ song_id s = i) ∧
  (∀ round, currentRound room = Some round →
     1 ≤ roundNumber room ∧ song round ∈ catalog ∧
     last (songsPlayed room) = Some (song_id (song round))) ∧
  (state room = LOBBY →
     roundNumber room = 0 ∧ songsPlayed room = [] ∧ currentRound room = None) ∧
  (state room = GAME_OVER →
     roundNumber room = totalRounds room ∧ currentRound room = None).
Proof.
  intros Hreach E.
  destruct (reachable_wellformed _ _ Hreach) as ([_ Hrooms] & _ & _ & _ & Hsh).
  destruct (Hrooms _ _ E) as [_ (Ht & Hl & _)].
  destruct (Hsh _ _ E) as [(Hle & Hlen & Hids & Hround) Hphase].
  unfold room_phase_ok in Hphase.
  repeat (split; [done |]). split.
  - intros HL. rewrite HL in Hphase. destruct (Hl HL). by destruct Hphase.
  - intros HG. rewrite HG in Hphase. by destruct Hphase.
Qed.

Lemma with_room_thrown {A : Type} code (body : GameRoom → outcome A * GameRoom) m e :
  (∀ room e', thrown (body room).1 = Some e' → (body room).2 = room) →
  thrown (with_room code body m).1 = Some e → (with_room code body m).2 = m.
Proof.
  intros Hbody.
  destruct (rooms m !! code) as [room|] eqn:E;
    [rewrite (with_room_found _ _ _ _ E)
    | by rewrite (with_room_missing _ _ _ E)].
  cbn [fst snd]. intros Hthrown. rewrite (Hbody _ _ Hthrown).
  by apply put_room_same.
Qed.

Lemma advance_round_thrown catalog draws now room e :
  catalog ≠ [] → thrown (advance_round catalog draws now room).1 = Some e → False.
Proof.
  intros Hne. unfold advance_round. case_decide; [done |].
  pose proof (select_loop_None catalog draws (maxAttempts - 1) 0 (songsPlayed room)) as HNone.
  unfold select_song.
  destruct (select_loop catalog draws (maxAttempts - 1) 0 (songsPlayed room))
    as [[s|] played]; [done |]. intros _. by apply Hne, HNone.
Qed.

Lemma exec_thrown_unchanged catalog o m e :
  catalog ≠ [] →
  exec_error catalog o m = Some e →
  exec catalog o m = m.
Proof.
  intros Hne. destruct o; simpl.
  - unfold createRoom.
    set (newRoomId := match desired with Some _ => _ | None => _ end).
    by destruct (rooms m !! newRoomId).
  - unfold addPlayer. destruct (rooms m !! code) as [room|]; [| done].
    by destruct (JsMap.get sid (room_players room)).
  - done.
  - apply with_room_thrown. intros room e'. unfold startGame_room.
    by repeat case_decide.
  - apply with_room_thrown. intros room e'. rewrite nextRound_room_unfold.
    repeat case_decide; try done; intros Hthrown;
      by apply advance_round_thrown in Hthrown.
  - apply with_room_thrown. intros room e'. unfold startRoundPlaying_room.
    case_decide; [done |]. by destruct (currentRound room).
  - apply with_room_thrown. intros room e'. unfold handleBuzz_room.
    case_decide; [done |]. destruct (currentRound room) as [rd|]; [| done].
    by destruct (buzzedPlayerId rd).
  - apply with_room_thrown. intros room e'. unfold showRoundResult_room.
    by case_decide.
  - unfold updateScore. destruct (rooms m !! code) as [room|]; [| done].
    by destruct (JsMap.get playerId (room_players room)).
  - unfold giveScore. destruct (number_lt _ _ || number_lt _ _); [done |].
    unfold updateScore. destruct (rooms m !! code) as [room|]; [| done].
    by destruct (JsMap.get playerId (room_players room)).
  - apply with_room_thrown. intros room e'. unfold resetRound_room.
    case_decide as Hst; [| done]. rewrite nextRound_room_unfold. simpl.
    rewrite decide_False by (destruct Hst; congruence).
    intros Hthrown. by apply advance_round_thrown in Hthrown.
Qed.

(** X9. With a catalog that is not empty, a call that throws changes
    nothing: every method of the manager either completes or leaves the
    manager exactly as it was. *)
Theorem failed_call_changes_nothing catalog o m e :
  catalog ≠ [] →
  exec_error catalog o m = Some e →
  exec catalog o m = m.
Proof. apply exec_thrown_unchanged. Qed.

Lemma omap_lookup_ext (h h' : list GamePlayer) (ls : list nat) :
  (∀ l, l ∈ ls → h' !! l = h !! l) →
  omap (λ l, h' !! l) ls = omap (λ l, h !! l) ls.
Proof.
  induction ls as [|l ls IH]; intros H; [done |]. simpl.
  rewrite (H l) by by left.
  assert (Hrest : omap (λ l, h' !! l) ls = omap (λ l, h !! l) ls).
  { apply IH. intros l' Hl'. apply H. by right. }
  destruct (h !! l); [f_equal |]; exact Hrest.
Qed.

(** The roster of a room is the same in two managers that agree on the
    room and on the objects it lists. *)
Lemma roster_unchanged catalog m m' c :
  wellformed catalog m →
  rooms m' !! c = rooms m !! c →
  (∀ room sid l, rooms m !! c = Some room →
     JsMap.get sid (room_players room) = Some l → heap m' !! l = heap m !! l) →
  getPlayersInRoom c m' = getPlayersInRoom c m.
Proof.
  intros ([_ Hrooms] & _) Er Hh. unfold getPlayersInRoom. rewrite Er.
  destruct (rooms m !! c) as [room|] eqn:E; [| done].
  destruct (Hrooms _ _ E) as [(_ & _ & Hnd) _].
  apply omap_lookup_ext. intros l Hl. unfold JsMap.values in Hl.
  apply list_elem_of_fmap in Hl as ([k l'] & -> & Hin). simpl.
  by apply (Hh room k), JsMap_get_of_elem.
Qed.

(** X10. A call that works on one room leaves every other room as it
    is: its record, and in a reachable state also its roster, scores
    included. *)
Theorem other_rooms_untouched catalog m o c :
  reachable catalog m →
  target o m ≠ Some c →
  rooms (exec catalog o m) !! c = rooms m !! c ∧
  getPlayersInRoom c (exec catalog o m) = getPlayersInRoom c m.
Proof.
  intros Hreach Ht.
  pose proof (reachable_wellformed _ _ Hreach) as Hwf.
  pose proof Hwf as (_ & Hmem & _).
  assert (Hrooms : rooms (exec catalog o m) !! c = rooms m !! c).
  { destruct o; unfold target in Ht; simpl.
    - unfold createRoom.
      set (newRoomId := match desired with Some _ => _ | None => _ end) in *.
      destruct (rooms m !! newRoomId); [done |]. simpl.
      apply lookup_insert_ne. congruence.
    - unfold addPlayer. destruct (rooms m !! code) as [room|]; [| done].
      destruct (JsMap.get sid (room_players room)); [done |]. simpl.
      apply lookup_insert_ne. congruence.
    - unfold removePlayer.
      destruct (players m !! sid) as [l|] eqn:El; [| done].
      destruct (heap m !! l) as [player|] eqn:Ep; [| done].
      rewrite ?El in Ht. simpl in Ht. rewrite ?Ep in Ht. simpl in Ht.
      assert (Hne : roomId player ≠ c) by congruence.
      destruct (rooms m !! roomId player) as [room|] eqn:Er; [| done].
      case_decide; [| simpl; by apply lookup_insert_ne].
      destruct (JsMap.values _) as [|l0 rest]; simpl.
      + destruct (reachable_invariant _ _ Hreach) as [_ Hr].
        destruct (Hr _ _ Er) as [(Hrid & _) _]. rewrite Hrid.
        rewrite lookup_delete_ne by done. by apply lookup_insert_ne.
      + by apply lookup_insert_ne.
    - unfold startGame, with_room. destruct (rooms m !! code) as [room|]; [| done].
      destruct (startGame_room room). simpl. apply lookup_insert_ne. congruence.
    - unfold nextRound, with_room. destruct (rooms m !! code) as [room|]; [| done].
      destruct (nextRound_room _ _ _ room). simpl. apply lookup_insert_ne. congruence.
    - unfold startRoundPlaying, with_room.
      destruct (rooms m !! code) as [room|]; [| done].
      destruct (startRoundPlaying_room _ room). simpl.
      apply lookup_insert_ne. congruence.
    - unfold handleBuzz, with_room. destruct (rooms m !! code) as [room|]; [| done].
      destruct (handleBuzz_room _ _ room). simpl. apply lookup_insert_ne. congruence.
    - unfold showRoundResult, with_room.
      destruct (rooms m !! code) as [room|]; [| done].
      destruct (showRoundResult_room room). simpl. apply lookup_insert_ne. congruence.
    - by rewrite updateScore_rooms.
    - by rewrite giveScore_rooms.
    - unfold resetRound, with_room. destruct (rooms m !! code) as [room|]; [| done].
      destruct (resetRound_room _ _ _ room). simpl. apply lookup_insert_ne. congruence. }
  split; [done |].
  apply (roster_unchanged catalog); [done | done |].
  intros room sid l E Hget.
  destruct (Hmem _ _ _ _ E Hget) as (p & Hp & Hroom & _).
  assert (Hscore : ∀ code playerId points,
            code ≠ c → heap (updateScore code playerId points m).2 !! l = heap m !! l).
  { intros code playerId points Hne. unfold updateScore.
    destruct (rooms m !! code) as [r|] eqn:Ec; [| done].
    destruct (JsMap.get playerId (room_players r)) as [l0|] eqn:Eg; [| done].
    simpl. apply list_lookup_alter_ne. intros ->.
    destruct (Hmem _ _ _ _ Ec Eg) as (p' & Hp' & Hroom' & _). congruence. }
  destruct o; unfold target in Ht; simpl.
  - unfold createRoom.
    set (newRoomId := match desired with Some _ => _ | None => _ end) in *.
    destruct (rooms m !! newRoomId); [done |]. simpl.
    rewrite Hp. by apply heap_app_lookup_old.
  - unfold addPlayer. destruct (rooms m !! code) as [r|]; [| done].
    destruct (JsMap.get sid0 (room_players r)); [done |]. simpl.
    rewrite Hp. by apply heap_app_lookup_old.
  - unfold removePlayer.
    destruct (players m !! sid0) as [l1|]; [| done].
    destruct (heap m !! l1) as [player|]; [| done].
    destruct (rooms m !! roomId player) as [r|]; [| done].
    case_decide; [| done]. by destruct (JsMap.values _).
  - unfold startGame, with_room. destruct (rooms m !! code) as [r|]; [| done].
    by destruct (startGame_room r).
  - unfold nextRound, with_room. destruct (rooms m !! code) as [r|]; [| done].
    by destruct (nextRound_room _ _ _ r).
  - unfold startRoundPlaying, with_room. destruct (rooms m !! code) as [r|]; [| done].
    by destruct (startRoundPlaying_room _ r).
  - unfold handleBuzz, with_room. destruct (rooms m !! code) as [r|]; [| done].
    by destruct (handleBuzz_room _ _ r).
  - unfold showRoundResult, with_room. destruct (rooms m !! code) as [r|]; [| done].
    by destruct (showRoundResult_room r).
  - apply Hscore. congruence.
  - unfold giveScore. destruct (number_lt _ _ || number_lt _ _); [done |]. apply Hscore. congruence.
  - unfold resetRound, with_room. destruct (rooms m !! code) as [r|]; [| done].
    by destruct (resetRound_room _ _ _ r).
Qed.

(** X11. [getPlayersInRoom] returns the empty list for an unknown room.
    In a reachable state the roster of a room has one player per member,
    in the order in which they joined, each with the room's code and
    with equal [id] and [socketId]; no id occurs twice; and [isHost]
    holds of exactly one id, which is on the roster. *)
Theorem roster_and_host catalog m code :
  reachable catalog m →
  (rooms m !! code = None →
     getPlayersInRoom code m = [] ∧ ∀ sid, isHost code sid m = false) ∧
  (∀ room, rooms m !! code = Some room →
     length (getPlayersInRoom code m) = JsMap.size (room_players room) ∧
     player_id <$> getPlayersInRoom code m = JsMap.keys (room_players room) ∧
     NoDup (player_id <$> getPlayersInRoom code m) ∧
     (∀ p, p ∈ getPlayersInRoom code m →
        roomId p = code ∧ socketId p = player_id p) ∧
     (∀ sid, isHost code sid m = true ↔ sid = hostId room) ∧
     hostId room ∈ player_id <$> getPlayersInRoom code m).
Proof.
  intros Hreach. split.
  - intros E. unfold getPlayersInRoom, isHost. by rewrite E.
  - intros room E.
    pose proof (reachable_wellformed _ _ Hreach) as Hwf.
    destruct (wellformed_roster _ _ _ _ Hwf E) as (Hlen & Hids & Hmembers).
    destruct (reachable_invariant _ _ Hreach) as [_ Hrooms].
    destruct (Hrooms _ _ E) as [(_ & Hhost & Hnd) _].
    split; [done |]. split; [done |]. split; [by rewrite Hids |]. split.
    + intros p Hp. by destruct (Hmembers _ Hp) as (l & _ & _ & ? & ?).
    + split.
      * intros sid. unfold isHost. rewrite E. rewrite bool_decide_eq_true.
        split; congruence.
      * rewrite Hids. by apply JsMapFacts.get_Some_keys.
Qed.

Lemma JsMap_set_fresh {V : Type} (m : JsMap.t V) k v :
  JsMap.get k m = None → JsMap.set k v m = m ++ [(k, v)].
Proof.
  induction m as [|[k0 v0] m IH]; simpl; [done |].
  case_decide; [done |]. intros E. by rewrite IH.
Qed.

(** X12. [createRoom] with a code: if a room with that code exists it
    throws 'Room already exists' and changes nothing; otherwise it
    returns the code and registers a LOBBY room whose roster is the host
    alone, with score 0, who is host and is found by [getPlayer]; every
    other room and every other entry of the index stay as they were. *)
Theorem createRoom_with_code host hostName code idText avatarDraw m :
  code ≠ "" →
  (is_Some (rooms m !! code) →
     createRoom host hostName (Some code) idText avatarDraw m =
       (Throw RoomAlreadyExists, m)) ∧
  (rooms m !! code = None →
     let hostPlayer :=
       {| player_id := host; socketId := host; name := hostName;
          score := Finite 0; avatar := generateAvatar avatarDraw; roomId := code |} in
     (createRoom host hostName (Some code) idText avatarDraw m).1 = Return code ∧
     getRoom code (createRoom host hostName (Some code) idText avatarDraw m).2 =
       Some {| room_id := code; hostId := host; state := LOBBY;
               room_players := [(host, length (heap m))];
               currentRound := None; roundNumber := 0; totalRounds := 10;
               songsPlayed := [] |} ∧
     getPlayer host (createRoom host hostName (Some code) idText avatarDraw m).2 =
       Some hostPlayer ∧
     getPlayersInRoom code
       (createRoom host hostName (Some code) idText avatarDraw m).2 = [hostPlayer] ∧
     isHost code host
       (createRoom host hostName (Some code) idText avatarDraw m).2 = true ∧
     (∀ c, c ≠ code →
        rooms (createRoom host hostName (Some code) idText avatarDraw m).2 !! c =
          rooms m !! c) ∧
     (∀ sid, sid ≠ host →
        players (createRoom host hostName (Some code) idText avatarDraw m).2 !! sid =
          players m !! sid) ∧
     createRoom host hostName (Some code) idText avatarDraw
       (createRoom host hostName (Some code) idText avatarDraw m).2 =
       (Throw RoomAlreadyExists,
        (createRoom host hostName (Some code) idText avatarDraw m).2)).
Proof.
  intros Hcode. unfold createRoom at 1. rewrite decide_False by done. split.
  - intros [r ->]. done.
  - intros E. set (hostPlayer := {| player_id := host |}).
    assert (Hc : createRoom host hostName (Some code) idText avatarDraw m =
              (Return code,
               {| rooms := <[code :=
                     {| room_id := code; hostId := host; state := LOBBY;
                        room_players := [(host, length (heap m))];
                        currentRound := None; roundNumber := 0; totalRounds := 10;
                        songsPlayed := [] |}]> (rooms m);
                  players := <[host := length (heap m)]> (players m);
                  heap := heap m ++ [hostPlayer] |})).
    { unfold createRoom. rewrite decide_False by done. by rewrite E. }
    rewrite Hc. cbn [fst snd].
    split; [done |]. unfold getRoom, getPlayer, getPlayersInRoom, isHost. simpl.
    rewrite !lookup_insert_eq. simpl.
    rewrite lookup_app_r by lia. rewrite Nat.sub_diag. simpl.
    split; [done |]. split; [done |]. split; [done |].
    split; [by rewrite bool_decide_eq_true |].
    split; [intros c Hne; by apply lookup_insert_ne |].
    split; [intros sid Hne; by apply lookup_insert_ne |].
    unfold createRoom. rewrite decide_False by done. simpl.
    by rewrite lookup_insert_eq.
Qed.

(** X13. [addPlayer] throws 'Room not found' for an unknown room,
    changing nothing. In a reachable state, a session that is not yet in
    the room is added in any state of the game: the roster grows by the
    new player at its end, with score 0; the room keeps its state, host,
    round and counters; and [getPlayer] finds the new player. *)
Theorem addPlayer_joins_at_end catalog m sid playerName code avatarDraw :
  reachable catalog m →
  (rooms m !! code = None →
     addPlayer sid playerName code avatarDraw m = (Throw RoomNotFound, m)) ∧
  (∀ room, rooms m !! code = Some room →
     JsMap.get sid (room_players room) = None →
     let player :=
       {| player_id := sid; socketId := sid; name := playerName;
          score := Finite 0; avatar := generateAvatar avatarDraw; roomId := code |} in
     (addPlayer sid playerName code avatarDraw m).1 = Return (length (heap m)) ∧
     getPlayersInRoom code (addPlayer sid playerName code avatarDraw m).2 =
       getPlayersInRoom code m ++ [player] ∧
     getPlayer sid (addPlayer sid playerName code avatarDraw m).2 = Some player ∧
     getRoom code (addPlayer sid playerName code avatarDraw m).2 =
       Some (set_room_players (room_players room ++ [(sid, length (heap m))]) room)).
Proof.
  intros Hreach. split.
  - intros E. unfold addPlayer. by rewrite E.
  - intros room E Hget player.
    pose proof (reachable_wellformed _ _ Hreach) as Hwf.
    pose proof Hwf as (_ & Hmem & _).
    unfold addPlayer. rewrite E, Hget. cbn [fst snd].
    rewrite (JsMap_set_fresh _ _ _ Hget).
    split; [done |].
    unfold getPlayer, getRoom, getPlayersInRoom. simpl.
    rewrite !lookup_insert_eq. simpl. rewrite E.
    rewrite lookup_app_r by lia. rewrite Nat.sub_diag. simpl.
    split; [| by split].
    unfold JsMap.values. rewrite fmap_app, omap_app. simpl.
    rewrite lookup_app_r by lia. rewrite Nat.sub_diag. simpl. f_equal.
    apply omap_lookup_ext. intros l Hl.
    apply list_elem_of_fmap in Hl as ([k l'] & -> & Hin). simpl.
    destruct (reachable_invariant _ _ Hreach) as [_ Hrooms].
    destruct (Hrooms _ _ E) as [(_ & _ & Hnd) _].
    destruct (Hmem _ _ _ _ E (JsMap_get_of_elem _ _ _ Hnd Hin)) as (p & Hp & _).
    rewrite Hp. by apply heap_app_lookup_old.
Qed.

(** ** The catalog queries *)

Lemma getSongById_Some catalog id s :
  getSongById catalog id = Some s → s ∈ catalog ∧ song_id s = id.
Proof.
  unfold getSongById. intros E. apply find_some in E as [Hin Hid].
  split; [by apply list_elem_of_In |]. by apply bool_decide_eq_true in Hid.
Qed.

Lemma getSongById_None catalog id :
  getSongById catalog id = None ↔ ∀ s, s ∈ catalog → song_id s ≠ id.
Proof.
  unfold getSongById. split.
  - intros E s Hin. apply list_elem_of_In in Hin.
    pose proof (find_none _ _ E s Hin) as Hb. simpl in Hb.
    by apply bool_decide_eq_false in Hb.
  - intros Hall. induction catalog as [|s0 catalog IH]; [done |]. simpl.
    rewrite bool_decide_eq_false_2 by (apply Hall; left).
    apply IH. intros s Hin. apply Hall. by right.
Qed.

(** X14. With song ids that are pairwise distinct, [getSongById] is the
    inverse of reading a song's id: it returns [s] exactly when [s] is
    the song of the catalog with that id, and [undefined] exactly when
    no song has it. The ids of [SONGS] are distinct. *)
Theorem getSongById_round_trip catalog :
  NoDup (song_id <$> catalog) →
  (∀ id s, getSongById catalog id = Some s ↔ s ∈ catalog ∧ song_id s = id) ∧
  (∀ id, getSongById catalog id = None ↔ id ∉ song_id <$> catalog) ∧
  (∀ s, s ∈ catalog → getSongById catalog (song_id s) = Some s).
Proof.
  intros Hnd.
  assert (Hback : ∀ s, s ∈ catalog → getSongById catalog (song_id s) = Some s).
  { induction catalog as [|s0 catalog IH]; intros s Hin; [by apply elem_of_nil in Hin |].
    apply NoDup_cons in Hnd as [Hfresh Hnd]. unfold getSongById. simpl.
    apply elem_of_cons in Hin as [->|Hin].
    - by rewrite bool_decide_eq_true_2.
    - rewrite bool_decide_eq_false_2; [by apply IH |].
      intros Heq. apply Hfresh. rewrite Heq. apply list_elem_of_fmap. eauto. }
  split; [| split; [| done]].
  - intros id s. split; [apply getSongById_Some |].
    intros [Hin <-]. by apply Hback.
  - intros id. rewrite getSongById_None. split.
    + intros Hall [s [-> Hin]]%list_elem_of_fmap. by apply (Hall s).
    + intros Hno s Hin <-. apply Hno, list_elem_of_fmap. eauto.
Qed.

Lemma getSongById_round_trip_witness :
  NoDup (song_id <$> SONGS) ∧
  getSongById SONGS "song-003" = SONGS !! 2 ∧
  getSongById SONGS "song-005" = None.
Proof.
  assert (Hnd : NoDup (song_id <$> SONGS))
    by (apply (bool_decide_unpack _); vm_compute; reflexivity).
  split; [exact Hnd |].
  destruct (getSongById_round_trip SONGS Hnd) as (_ & HNone & Hback).
  split.
  - assert (Hin : ∃ s, SONGS !! 2 = Some s) by (by eexists).
    destruct Hin as [s Es]. rewrite Es.
    assert (song_id s = "song-003") as <- by (by injection Es as <-).
    apply Hback. by eapply list_elem_of_lookup_2.
  - apply HNone. apply (bool_decide_unpack _). vm_compute. reflexivity.
Defined.

(** X15. [getSongsByType] and [getSongsByDifficulty] return exactly the
    songs of the catalog with that type (difficulty), in catalog order
    and as often as they are listed; every song is returned for exactly
    one type, so the three lists by type have [getTotalSongs] songs
    together. *)
Theorem getSongsBy_filters catalog :
  (∀ type s, s ∈ getSongsByType catalog type ↔ s ∈ catalog ∧ song_type s = type) ∧
  (∀ d s, s ∈ getSongsByDifficulty catalog d ↔ s ∈ catalog ∧ difficulty s = d) ∧
  (∀ type, getSongsByType catalog type `sublist_of` getAllSongs catalog) ∧
  (∀ d, getSongsByDifficulty catalog d `sublist_of` getAllSongs catalog) ∧
  length (getSongsByType catalog intro) + length (getSongsByType catalog reverse) +
    length (getSongsByType catalog emoji) = getTotalSongs catalog ∧
  length (getSongsByDifficulty catalog easy) +
    length (getSongsByDifficulty catalog medium) +
    length (getSongsByDifficulty catalog hard) = getTotalSongs catalog.
Proof.
  unfold getSongsByType, getSongsByDifficulty, getAllSongs, getTotalSongs.
  split; [| split; [| split; [| split; [| split]]]].
  - intros type s. rewrite list_elem_of_filter. tauto.
  - intros d s. rewrite list_elem_of_filter. tauto.
  - intros type. apply sublist_filter.
  - intros d. apply sublist_filter.
  - induction catalog as [|s catalog IH]; [done |].
    rewrite !filter_cons. destruct (song_type s); simpl;
      repeat case_decide; try done; simpl; lia.
  - induction catalog as [|s catalog IH]; [done |].
    rewrite !filter_cons. destruct (difficulty s); simpl;
      repeat case_decide; try done; simpl; lia.
Qed.

Lemma random_of_list_Some (songs : list Song) r :
  songs ≠ [] → is_Some (songs !! floor_random_times r (length songs)).
Proof.
  intros Hne. apply lookup_lt_is_Some, floor_random_times_lt.
  destruct songs; [done | simpl; lia].
Qed.

(** X16. Whatever the random source returns, [getRandomSongByType]
    returns a song of the catalog that has the requested type, and
    [undefined] only when the catalog has no song of that type; likewise
    [getRandomSongByDifficulty]. *)
Theorem getRandomSongBy_in_range catalog r :
  (∀ type,
     (getRandomSongByType catalog type r = None ↔
        ∀ s, s ∈ catalog → song_type s ≠ type) ∧
     (∀ s, getRandomSongByType catalog type r = Some s →
        s ∈ catalog ∧ song_type s = type)) ∧
  (∀ d,
     (getRandomSongByDifficulty catalog d r = None ↔
        ∀ s, s ∈ catalog → difficulty s ≠ d) ∧
     (∀ s, getRandomSongByDifficulty catalog d r = Some s →
        s ∈ catalog ∧ difficulty s = d)).
Proof.
  split.
  - intros type. unfold getRandomSongByType.
    set (songs := getSongsByType catalog type).
    assert (Hmem : ∀ s, s ∈ songs ↔ s ∈ catalog ∧ song_type s = type).
    { intros s. unfold songs, getSongsByType. rewrite list_elem_of_filter. tauto. }
    simpl. case_decide as Hlen.
    + apply nil_length_inv in Hlen. split; [| done]. split; [| done].
      intros _ s Hin Ht. assert (s ∈ songs) as Hs by (by apply Hmem).
      rewrite Hlen in Hs. by apply elem_of_nil in Hs.
    + assert (Hne : songs ≠ []) by (by intros ->).
      destruct (random_of_list_Some songs r Hne) as [s Es]. rewrite Es. split.
      * split; [done |]. intros Hall. exfalso.
        apply list_elem_of_lookup_2 in Es. apply Hmem in Es as [Hin Ht].
        by apply (Hall s).
      * intros s' [= <-]. apply list_elem_of_lookup_2 in Es. by apply Hmem in Es.
  - intros d. unfold getRandomSongByDifficulty.
    set (songs := getSongsByDifficulty catalog d).
    assert (Hmem : ∀ s, s ∈ songs ↔ s ∈ catalog ∧ difficulty s = d).
    { intros s. unfold songs, getSongsByDifficulty. rewrite list_elem_of_filter. tauto. }
    simpl. case_decide as Hlen.
    + apply nil_length_inv in Hlen. split; [| done]. split; [| done].
      intros _ s Hin Ht. assert (s ∈ songs) as Hs by (by apply Hmem).
      rewrite Hlen in Hs. by apply elem_of_nil in Hs.
    + assert (Hne : songs ≠ []) by (by intros ->).
      destruct (random_of_list_Some songs r Hne) as [s Es]. rewrite Es. split.
      * split; [done |]. intros Hall. exfalso.
        apply list_elem_of_lookup_2 in Es. apply Hmem in Es as [Hin Ht].
        by apply (Hall s).
      * intros s' [= <-]. apply list_elem_of_lookup_2 in Es. by apply Hmem in Es.
Qed.

(** X17. Whatever the random source returns, [getRandomSong] returns a
    song of the catalog ([undefined] only from an empty catalog), and
    [generateAvatar] returns one of the avatars of its list. *)
Theorem random_picks_in_range catalog r :
  (getRandomSong catalog r = None ↔ catalog = []) ∧
  (∀ s, getRandomSong catalog r = Some s → s ∈ catalog) ∧
  generateAvatar r ∈ avatars.
Proof.
  split; [| split].
  - split; [apply getRandomSong_None | by intros ->].
  - unfold getRandomSong. intros s Es. by eapply list_elem_of_lookup_2.
  - unfold generateAvatar.
    destruct (avatars !! floor_random_times r (length avatars)) as [a|] eqn:E.
    + simpl. by eapply list_elem_of_lookup_2.
    + apply lookup_ge_None in E.
      pose proof (floor_random_times_lt r (length avatars) ltac:(simpl; lia)). lia.
Qed.

(** ** The dispatcher *)

(** *** Running a handler body *)

Lemma run_bind {A B : Type} (c : Handler A) (k : A → Handler B) w :
  (c ≫= k) w =
    match c w with
    | (inl error, w') => (inl error, w')
    | (inr a, w') => k a w'
    end.
Proof. done. Qed.

Lemma run_ret {A : Type} (a : A) w : (mret a : Handler A) w = (inr a, w).
Proof. done. Qed.

Lemma run_throw {A : Type} error w : @throw A error w = (inl error, w).
Proof. done. Qed.

Lemma run_query {A : Type} (f : GameManager → A) w :
  query f w = (inr (f (manager w)), w).
Proof. done. Qed.

Lemma run_emit e w :
  emit e w = (inr (), {| manager := manager w; sent := sent w ++ [e] |}).
Proof. done. Qed.

Lemma run_call {A : Type} (f : GameManager → outcome A * GameManager) w :
  call f w =
    (match (f (manager w)).1 with
     | Return a => inr a
     | Throw e => inl (message e)
     end,
     {| manager := (f (manager w)).2; sent := sent w |}).
Proof. unfold call. by destruct (f (manager w)). Qed.

Lemma run_reply socket has_callback r w :
  reply socket has_callback r w =
    (inr (), {| manager := manager w;
                sent := sent w ++ acknowledge socket has_callback r |}).
Proof.
  unfold reply, acknowledge. destruct has_callback; [done |].
  rewrite app_nil_r. by destruct w.
Qed.

Lemma run_emitGameState roomId w :
  emitGameState roomId w =
    (inr (), {| manager := manager w;
                sent := sent w ++ state_update roomId (manager w) |}).
Proof.
  unfold emitGameState, state_update, game_state_of.
  rewrite run_bind, run_query.
  destruct (getRoom roomId (manager w)) as [room|]; simpl.
  - by rewrite run_bind, run_query, run_emit.
  - rewrite run_ret, app_nil_r. by destruct w.
Qed.

Lemma run_host_only socket roomId denied w :
  host_only socket roomId denied w = (host_check socket roomId denied (manager w), w).
Proof.
  unfold host_only, host_check. rewrite run_bind, run_query.
  destruct (getPlayer socket (manager w)); [| done].
  rewrite run_bind, run_query.
  destruct (getRoom roomId (manager w)); [| done].
  rewrite run_bind, run_query.
  by destruct (isHost roomId socket (manager w)).
Qed.

Lemma run_defined_Some {A : Type} property (a : A) w :
  defined property (Some a) w = (inr a, w).
Proof. done. Qed.

Lemma run_defined_None {A : Type} property w :
  @defined A property None w =
    (inl ("Cannot read properties of undefined (reading '" ++ property ++ "')")%string,
     w).
Proof. done. Qed.

Ltac run_step :=
  repeat (progress
    (rewrite ?run_bind, ?run_host_only, ?run_emitGameState, ?run_reply,
             ?run_defined_Some, ?run_defined_None,
             ?run_query, ?run_emit, ?run_throw, ?run_ret, ?run_call;
     cbn [manager sent fst snd])).

Ltac run_handler :=
  unfold dispatch, caught, handler, on_join_game, on_start_game,
       on_next_round, on_buzz, on_show_result, on_update_score, on_host_give_score,
       on_reset_round, on_get_room_state, on_timeout, on_disconnect;
  unfold try_catch, unguarded;
  run_step.

(** *** Properties every handler keeps *)

Lemma preserves_ret {A : Type} P (a : A) : preserves P (mret a).
Proof. by intros w Hw. Qed.

Lemma preserves_throw {A : Type} P error : preserves P (@throw A error).
Proof. by intros w Hw. Qed.

Lemma preserves_query {A : Type} P (f : GameManager → A) : preserves P (query f).
Proof. by intros w Hw. Qed.

Lemma preserves_emit (P : World → Prop) e :
  (∀ w, P w → P {| manager := manager w; sent := sent w ++ [e] |}) →
  preserves P (emit e).
Proof. intros He w Hw. by apply He. Qed.

Lemma preserves_call {A : Type} (P : World → Prop)
    (f : GameManager → outcome A * GameManager) :
  (∀ w, P w → P {| manager := (f (manager w)).2; sent := sent w |}) →
  preserves P (call f).
Proof. intros Hf w Hw. rewrite run_call. by apply Hf. Qed.

Lemma preserves_bind {A B : Type} P (c : Handler A) (k : A → Handler B) :
  preserves P c → (∀ a, preserves P (k a)) → preserves P (c ≫= k).
Proof.
  intros Hc Hk w Hw. rewrite run_bind. specialize (Hc w Hw).
  destruct (c w) as [[error|a] w']; [done |]. by apply Hk.
Qed.

Lemma preserves_defined {A : Type} P property (x : option A) :
  preserves P (defined property x).
Proof. destruct x; [apply preserves_ret | apply preserves_throw]. Qed.

Lemma preserves_reply (P : World → Prop) socket has_callback r :
  (∀ w, P w → P {| manager := manager w;
                   sent := sent w ++ [callback socket r] |}) →
  preserves P (reply socket has_callback r).
Proof.
  intros He. destruct has_callback; [by apply preserves_emit | apply preserves_ret].
Qed.

Lemma preserves_emitGameState (P : World → Prop) roomId :
  (∀ w gameState, P w → game_state_of roomId (manager w) = Some gameState →
     P {| manager := manager w;
          sent := sent w ++ [io_to roomId (game_state_update gameState)] |}) →
  preserves P (emitGameState roomId).
Proof.
  intros He w Hw. rewrite run_emitGameState. unfold state_update. cbn [snd].
  destruct (game_state_of roomId (manager w)) as [gameState|] eqn:E.
  - by apply He.
  - rewrite app_nil_r. by destruct w.
Qed.

Lemma preserves_host_only P socket roomId denied :
  preserves P (host_only socket roomId denied).
Proof. intros w Hw. by rewrite run_host_only. Qed.

(** The shape of the handler bodies: [emits] and [calls] settle what an
    effect and a call of the manager do to the property. *)
Ltac preserves_step emits calls :=
  first
    [ apply preserves_ret | apply preserves_throw
    | apply preserves_query | apply preserves_defined
    | apply preserves_host_only
    | apply preserves_emit; emits
    | apply preserves_reply; emits
    | apply preserves_emitGameState; emits
    | apply preserves_call; calls
    | apply preserves_bind; [| intros ?]
    | match goal with
      | |- preserves _ (match ?x with _ => _ end) => destruct x
      | |- preserves _ (if ?x then _ else _) => destruct x
      | |- preserves _ (let '(_, _) := ?x in _) => destruct x
      end ].

Ltac preserves_all emits calls :=
  unfold handler, on_join_game, on_start_game, on_next_round, on_buzz,
         on_show_result, on_update_score, on_host_give_score, on_reset_round,
         on_get_room_state;
  repeat preserves_step emits calls.

(** A call of the manager in a handler is a step of a run. *)
Lemma call_is_exec catalog (P : GameManager → Prop) :
  (∀ o m, P m → P (exec catalog o m)) →
  (∀ a b c d e m, P m → P (createRoom a b c d e m).2) ∧
  (∀ a b c d m, P m → P (addPlayer a b c d m).2) ∧
  (∀ a m, P m → P (removePlayer a m).2) ∧
  (∀ a m, P m → P (startGame a m).2) ∧
  (∀ a b c m, P m → P (nextRound catalog a b c m).2) ∧
  (∀ a b m, P m → P (startRoundPlaying a b m).2) ∧
  (∀ a b c m, P m → P (handleBuzz a b c m).2) ∧
  (∀ a m, P m → P (showRoundResult a m).2) ∧
  (∀ a b c m, P m → P (updateScore a b c m).2) ∧
  (∀ a b c m, P m → P (giveScore a b c m).2) ∧
  (∀ a b c m, P m → P (resetRound catalog a b c m).2).
Proof.
  intros Hexec. repeat split; intros.
  - by apply (Hexec (CreateRoom a b c d e)).
  - by apply (Hexec (AddPlayer a b c d)).
  - by apply (Hexec (RemovePlayer a)).
  - by apply (Hexec (StartGame a)).
  - by apply (Hexec (NextRound a b c)).
  - by apply (Hexec (StartRoundPlaying a b)).
  - by apply (Hexec (HandleBuzz a b c)).
  - by apply (Hexec (ShowRoundResult a)).
  - by apply (Hexec (UpdateScore a b c)).
  - by apply (Hexec (GiveScore a b c)).
  - by apply (Hexec (ResetRound a b c)).
Qed.

(** Every handler keeps what every call of the manager keeps. *)
Lemma handler_preserves catalog (P : GameManager → Prop) socket request has_callback :
  (∀ o m, P m → P (exec catalog o m)) →
  preserves (on_manager P) (handler catalog socket request has_callback).
Proof.
  intros Hexec.
  destruct (call_is_exec catalog P Hexec)
    as (Hcreate & Hadd & _ & Hstart & Hnext & _ & Hbuzz & Hshow & Hupdate &
        Hgive & Hreset).
  destruct request;
    preserves_all ltac:(by intros)
                  ltac:(intros ? ?; unfold on_manager in *; cbn [manager]; eauto).
Qed.

Lemma on_timeout_preserves catalog (P : GameManager → Prop) roomId now m :
  (∀ o m, P m → P (exec catalog o m)) →
  P m → P (on_timeout roomId now m).2.2.
Proof.
  intros Hexec Hm.
  destruct (call_is_exec catalog P Hexec) as (_ & _ & _ & _ & _ & Hplay & _).
  unfold on_timeout, unguarded.
  set (body := _ ≫= _).
  assert (Hbody : preserves (on_manager P) body).
  { unfold body.
    repeat preserves_step ltac:(by intros)
             ltac:(intros ? ?; unfold on_manager in *; cbn [manager]; eauto). }
  specialize (Hbody {| manager := m; sent := [] |} Hm).
  by destruct (body _) as [r w].
Qed.

Lemma on_disconnect_preserves catalog (P : GameManager → Prop) socket m :
  (∀ o m, P m → P (exec catalog o m)) →
  P m → P (on_disconnect socket m).2.2.
Proof.
  intros Hexec Hm.
  destruct (call_is_exec catalog P Hexec) as (_ & _ & Hremove & _).
  unfold on_disconnect, unguarded.
  set (body := _ ≫= _).
  assert (Hbody : preserves (on_manager P) body).
  { unfold body.
    repeat preserves_step ltac:(by intros)
             ltac:(intros w Hw; unfold on_manager in *; cbn [manager];
                   specialize (Hremove socket _ Hw);
                   by destruct (removePlayer socket (manager w))). }
  specialize (Hbody {| manager := m; sent := [] |} Hm).
  by destruct (body _) as [r w].
Qed.

Lemma dispatch_preserves catalog (P : GameManager → Prop) socket request has_callback m :
  (∀ o m, P m → P (exec catalog o m)) →
  P m → P (dispatch catalog socket request has_callback m).2.
Proof.
  intros Hexec Hm. unfold dispatch, try_catch.
  pose proof (handler_preserves catalog P socket request has_callback Hexec
                {| manager := m; sent := [] |} Hm) as H'.
  by destruct (handler _ _ _ _ _) as [[error|[]] w].
Qed.

(** X18. Whatever event arrives, from whom and with what payload (the
    numbers in it being any doubles, [NaN] included), and whenever a
    timer fires, the dispatcher leaves the manager in a state that calls
    of its methods lead to from [new GameManager()]: what holds of all
    such states holds of the manager of a running server. *)
Theorem dispatcher_keeps_reachable catalog m :
  reachable catalog m →
  (∀ socket request has_callback,
     reachable catalog (dispatch catalog socket request has_callback m).2) ∧
  (∀ socket, reachable catalog (on_disconnect socket m).2.2) ∧
  (∀ roomId now, reachable catalog (on_timeout roomId now m).2.2).
Proof.
  intros Hm.
  assert (Hexec : ∀ o m, reachable catalog m → reachable catalog (exec catalog o m))
    by (intros; by constructor).
  split; [| split].
  - intros. by apply dispatch_preserves.
  - intros. by apply (on_disconnect_preserves catalog).
  - intros. by apply (on_timeout_preserves catalog).
Qed.

(** X19. The six requests reserved to the host (start_game, next_round,
    show_result, update_score, host_give_score, reset_round) are refused
    unless the sender is known to the manager and is the host of the
    room the payload names: the manager is left as it was, nothing is
    broadcast and no timer is set; the only effect is the failure
    acknowledgement, with 'Player not found', 'Room not found' or the
    handler's own refusal, checked in this order. *)
Theorem host_requests_guarded catalog m socket request has_callback roomId denied :
  host_request request = Some (roomId, denied) →
  getPlayer socket m = None ∨ isHost roomId socket m = false →
  dispatch catalog socket request has_callback m =
    (acknowledge socket has_callback
       (failed match getPlayer socket m, getRoom roomId m with
               | None, _ => "Player not found"
               | Some _, None => "Room not found"
               | Some _, Some _ => denied
               end),
     m).
Proof.
  intros Hreq Hnot.
  assert (Hcheck : host_check socket roomId denied m =
            inl match getPlayer socket m, getRoom roomId m with
                | None, _ => "Player not found"
                | Some _, None => "Room not found"
                | Some _, Some _ => denied
                end).
  { unfold host_check. destruct (getPlayer socket m); [| done].
    destruct (getRoom roomId m); [| done].
    destruct Hnot as [Hnot|Hnot]; [done | by rewrite Hnot]. }
  destruct request; simplify_eq/=; run_handler; by rewrite Hcheck.
Qed.

Lemma startRoundPlaying_ready roomId now m room round :
  rooms m !! roomId = Some room → state room = ROUND_LOADING →
  currentRound room = Some round →
  startRoundPlaying roomId now m =
    (Return (),
     put_room roomId
       (set_currentRound (Some (set_startTime now round))
          (set_room_state ROUND_PLAYING room)) m).
Proof.
  intros E Hs Hr. unfold startRoundPlaying.
  rewrite (with_room_found _ _ _ _ E). unfold startRoundPlaying_room.
  rewrite decide_False by (rewrite Hs; by intros ?). by rewrite Hr.
Qed.

Lemma startRoundPlaying_not_ready roomId now m room :
  rooms m !! roomId = Some room →
  state room ≠ ROUND_LOADING ∨ currentRound room = None →
  startRoundPlaying roomId now m = (Throw InvalidStateTransition, m).
Proof.
  intros E Hnot. unfold startRoundPlaying.
  rewrite (with_room_found _ _ _ _ E). unfold startRoundPlaying_room.
  destruct (decide (state room ≠ ROUND_LOADING)); simpl.
  - by rewrite put_room_same.
  - destruct Hnot as [Hnot|Hnot]; [done |]. rewrite Hnot. simpl.
    by rewrite put_room_same.
Qed.

(** X20. The timer callback set by start_game, next_round and
    reset_round runs outside any [try]. It moves a room that is in
    ROUND_LOADING with a round in place to ROUND_PLAYING, stamps the
    start time and broadcasts the new state; for a room that is gone it
    throws 'Room not found', and for a room in any other state it throws
    'Invalid state transition', changing and sending nothing. So the
    callback never completes twice in a row for the same room. *)
Theorem timeout_outcome m roomId now :
  (rooms m !! roomId = None →
     on_timeout roomId now m = (Some "Room not found", ([], m))) ∧
  (∀ room, rooms m !! roomId = Some room →
     state room ≠ ROUND_LOADING ∨ currentRound room = None →
     on_timeout roomId now m = (Some "Invalid state transition", ([], m))) ∧
  (∀ room round, rooms m !! roomId = Some room →
     state room = ROUND_LOADING → currentRound room = Some round →
     let m' := put_room roomId
                 (set_currentRound (Some (set_startTime now round))
                    (set_room_state ROUND_PLAYING room)) m in
     on_timeout roomId now m = (None, (state_update roomId m', m'))) ∧
  (∀ now', (on_timeout roomId now m).1 = None →
     on_timeout roomId now' (on_timeout roomId now m).2.2 =
       (Some "Invalid state transition", ([], (on_timeout roomId now m).2.2))).
Proof.
  assert (H1 : rooms m !! roomId = None →
            on_timeout roomId now m = (Some "Room not found", ([], m))).
  { intros E. run_handler. unfold startRoundPlaying.
    by rewrite (with_room_missing _ _ _ E). }
  assert (H2 : ∀ m now room, rooms m !! roomId = Some room →
            state room ≠ ROUND_LOADING ∨ currentRound room = None →
            on_timeout roomId now m = (Some "Invalid state transition", ([], m))).
  { intros m0 now0 room E Hnot. run_handler.
    by rewrite (startRoundPlaying_not_ready _ _ _ _ E Hnot). }
  assert (H3 : ∀ room round, rooms m !! roomId = Some room →
            state room = ROUND_LOADING → currentRound room = Some round →
            let m' := put_room roomId
                        (set_currentRound (Some (set_startTime now round))
                           (set_room_state ROUND_PLAYING room)) m in
            on_timeout roomId now m = (None, (state_update roomId m', m'))).
  { intros room round E Hs Hr m'. run_handler.
    by rewrite (startRoundPlaying_ready _ _ _ _ _ E Hs Hr). }
  split; [done |]. split; [by apply H2 |]. split; [done |].
  intros now' Hok.
  destruct (rooms m !! roomId) as [room|] eqn:E; [| by rewrite (H1 eq_refl) in Hok].
  destruct (decide (state room = ROUND_LOADING)) as [Hs|Hs];
    [| by rewrite (H2 _ _ _ E) in Hok by (by left)].
  destruct (currentRound room) as [round|] eqn:Hr;
    [| by rewrite (H2 _ _ _ E) in Hok by (by right)].
  rewrite (H3 _ _ eq_refl Hs Hr). cbn [fst snd].
  eapply H2; [by rewrite lookup_put_room, decide_True |]. by left.
Qed.

(** *** What the handlers know after a call of the manager *)

Lemma with_room_returned {A : Type} code (body : GameRoom → outcome A * GameRoom) m a :
  (with_room code body m).1 = Return a →
  ∃ room, rooms m !! code = Some room ∧ (body room).1 = Return a ∧
          (with_room code body m).2 = put_room code (body room).2 m ∧
          getRoom code (with_room code body m).2 = Some (body room).2.
Proof.
  destruct (rooms m !! code) as [room|] eqn:E.
  - rewrite (with_room_found _ _ _ _ E). cbn [fst snd]. intros Hr.
    exists room. unfold getRoom. by rewrite lookup_put_room, decide_True.
  - by rewrite (with_room_missing _ _ _ E).
Qed.

Lemma getPlayer_put_room sid code room m :
  getPlayer sid (put_room code room m) = getPlayer sid m.
Proof. done. Qed.

Lemma getPlayer_with_room {A : Type} sid code
    (body : GameRoom → outcome A * GameRoom) m :
  getPlayer sid (with_room code body m).2 = getPlayer sid m.
Proof. unfold with_room. destruct (rooms m !! code); [| done]. by destruct (body _). Qed.

Lemma nextRound_after_startGame catalog code draws now m :
  catalog ≠ [] → (startGame code m).1 = Return () →
  (nextRound catalog code draws now (startGame code m).2).1 = Return ().
Proof.
  intros Hne Hs. unfold startGame in *.
  destruct (with_room_returned _ _ _ _ Hs) as (room & E & Hb & -> & Hg).
  unfold nextRound. rewrite (with_room_found _ _ _ _ Hg). cbn [fst snd].
  rewrite nextRound_room_unfold.
  assert (Hst : state (startGame_room room).2 = ROUND_LOADING).
  { revert Hb. unfold startGame_room. by repeat case_decide. }
  rewrite decide_False by (by rewrite Hst).
  destruct (advance_round catalog draws now (startGame_room room).2).1 as [[]|e] eqn:Ea;
    [done |].
  exfalso. eapply advance_round_thrown; [done |]. by rewrite Ea.
Qed.

Lemma createRoom_returned host hostName desired idText avatarDraw m code :
  (createRoom host hostName desired idText avatarDraw m).1 = Return code →
  rooms m !! code = None ∧
  ∃ p, getPlayer host (createRoom host hostName desired idText avatarDraw m).2 = Some p ∧
       p = {| player_id := host; socketId := host; name := hostName;
              score := Finite 0; avatar := generateAvatar avatarDraw; roomId := code |} ∧
       getRoom code (createRoom host hostName desired idText avatarDraw m).2 =
         Some {| room_id := code; hostId := host; state := LOBBY;
                 room_players := [(host, length (heap m))];
                 currentRound := None; roundNumber := 0; totalRounds := 10;
                 songsPlayed := [] |} ∧
       getPlayersInRoom code (createRoom host hostName desired idText avatarDraw m).2 = [p].
Proof.
  unfold createRoom.
  set (newRoomId := match desired with Some _ => _ | None => _ end).
  destruct (rooms m !! newRoomId) eqn:E; [done |]. cbn [fst snd].
  intros [= <-]. split; [done |]. eexists. split; [| split; [done |]].
  - unfold getPlayer. simpl. rewrite lookup_insert_eq. simpl.
    rewrite lookup_app_r by lia. by rewrite Nat.sub_diag.
  - unfold getRoom, getPlayersInRoom. simpl. rewrite !lookup_insert_eq. simpl.
    rewrite lookup_app_r by lia. by rewrite Nat.sub_diag.
Qed.

Lemma JsMap_elem_of_get {V : Type} (m : JsMap.t V) k v :
  JsMap.get k m = Some v → (k, v) ∈ m.
Proof.
  induction m as [|[k0 v0] m IH]; simpl; [done |].
  case_decide; subst.
  - intros [= ->]. by left.
  - intros H'. right. by apply IH.
Qed.

Lemma member_in_roster code m room sid l p :
  rooms m !! code = Some room → JsMap.get sid (room_players room) = Some l →
  heap m !! l = Some p → p ∈ getPlayersInRoom code m.
Proof.
  intros E Hget Hp. unfold getPlayersInRoom. rewrite E.
  apply list_elem_of_omap. exists l. split; [| done].
  unfold JsMap.values. apply list_elem_of_fmap. exists (sid, l).
  split; [done |]. by apply JsMap_elem_of_get.
Qed.

Lemma addPlayer_returned catalog sid playerName code avatarDraw m l :
  reachable catalog m →
  (addPlayer sid playerName code avatarDraw m).1 = Return l →
  ∃ room room' p,
    rooms m !! code = Some room ∧
    getRoom code (addPlayer sid playerName code avatarDraw m).2 = Some room' ∧
    JsMap.get sid (room_players room') = Some l ∧
    heap (addPlayer sid playerName code avatarDraw m).2 !! l = Some p ∧
    player_id p = sid ∧ roomId p = code ∧
    p ∈ getPlayersInRoom code (addPlayer sid playerName code avatarDraw m).2 ∧
    hostId room' = hostId room ∧ state room' = state room ∧
    currentRound room' = currentRound room.
Proof.
  intros Hreach Hret.
  assert (Hwf : wellformed catalog (addPlayer sid playerName code avatarDraw m).2).
  { apply reachable_wellformed.
    apply (reachable_exec catalog (AddPlayer sid playerName code avatarDraw) m Hreach). }
  destruct Hwf as (_ & Hmem & _).
  assert (Hroom : ∃ room room', rooms m !! code = Some room ∧
            rooms (addPlayer sid playerName code avatarDraw m).2 !! code = Some room' ∧
            JsMap.get sid (room_players room') = Some l ∧
            hostId room' = hostId room ∧ state room' = state room ∧
            currentRound room' = currentRound room).
  { revert Hret. unfold addPlayer.
    destruct (rooms m !! code) as [room|] eqn:E; [| done].
    destruct (JsMap.get sid (room_players room)) as [l0|] eqn:Hget; cbn [fst snd].
    - intros [= ->]. by exists room, room.
    - intros [= <-]. eexists room, _. split; [done |]. simpl.
      rewrite lookup_insert_eq. split; [done |]. simpl.
      by rewrite JsMapFacts.get_set, decide_True. }
  destruct Hroom as (room & room' & E & E' & Hget & Hh & Hs & Hr).
  destruct (Hmem _ _ _ _ E' Hget) as (p & Hp & Hrid & Hpid & _).
  exists room, room', p. repeat split; try done.
  by eapply member_in_roster.
Qed.

Ltac unchanged Hsame o e Es :=
  let Hx := fresh in
  pose proof (Hsame o e) as Hx; cbn [exec exec_error] in Hx;
  rewrite Es in Hx; specialize (Hx eq_refl); rewrite Hx; clear Hx.

(** X21. With a catalog that is not empty, a request that fails has no
    other effect than its failure acknowledgement: whatever the event
    and the reason, the manager is exactly as before, nothing is
    broadcast to the room, the socket joins no channel and no timer is
    set. *)
Theorem failed_request_is_silent catalog m socket request has_callback error :
  catalog ≠ [] → reachable catalog m →
  caught catalog socket request has_callback m = Some error →
  dispatch catalog socket request has_callback m =
    (acknowledge socket has_callback (failed error), m).
Proof.
  intros Hne Hreach.
  assert (Hsame : ∀ o e, exec_error catalog o m = Some e → exec catalog o m = m)
    by (intros; by eapply exec_thrown_unchanged).
  destruct request
    as [payload idText avatarDraw | roomId draws now | roomId draws now
       | roomId now timestamp | roomId | roomId playerId points
       | roomId playerId scoreAmount | roomId draws now | roomId].
  - (* join_game *)
    run_handler.
    assert (Hadd : ∀ code,
      match (addPlayer socket (join_name payload) code avatarDraw m).1 with
      | Return l => is_Some (heap (addPlayer socket (join_name payload) code avatarDraw m).2 !! l) ∧
            is_Some (getRoom code (addPlayer socket (join_name payload) code avatarDraw m).2)
      | Throw e => (addPlayer socket (join_name payload) code avatarDraw m).2 = m
      end).
    { intros code.
      destruct (addPlayer socket (join_name payload) code avatarDraw m).1 as [l|e] eqn:Ea.
      - destruct (addPlayer_returned _ _ _ _ _ _ _ Hreach Ea)
          as (room & room' & p & _ & -> & _ & -> & _). eauto.
      - apply (Hsame (AddPlayer socket (join_name payload) code avatarDraw) e).
        cbn [exec_error]. by rewrite Ea. }
    assert (Hcreate : ∀ desired,
      match (createRoom socket (join_name payload) desired idText avatarDraw m).1 with
      | Return code =>
          is_Some (getPlayer socket
            (createRoom socket (join_name payload) desired idText avatarDraw m).2) ∧
          is_Some (getRoom code
            (createRoom socket (join_name payload) desired idText avatarDraw m).2)
      | Throw e => (createRoom socket (join_name payload) desired idText avatarDraw m).2 = m
      end).
    { intros desired.
      destruct (createRoom socket (join_name payload) desired idText avatarDraw m).1
        as [code|e] eqn:Ec.
      - destruct (createRoom_returned _ _ _ _ _ _ _ Ec) as (_ & p & -> & _ & -> & _).
        eauto.
      - apply (Hsame (CreateRoom socket (join_name payload) desired idText avatarDraw) e).
        cbn [exec_error]. by rewrite Ec. }
    destruct (join_role payload), (truthy (join_roomId payload)) as [code|];
      run_step; try (by intros [= <-]).
    + destruct (getRoom code m) eqn:Eg; run_step.
      * specialize (Hadd code).
        destruct (addPlayer socket (join_name payload) code avatarDraw m).1 as [l|e];
          run_step; [| rewrite Hadd; by intros [= <-]].
        destruct Hadd as [[p ->] [room' ->]].
        destruct has_callback; by run_step.
      * specialize (Hcreate (Some code)).
        destruct (createRoom socket (join_name payload) (Some code) idText avatarDraw m).1
          as [rid|e]; run_step; [| rewrite Hcreate; by intros [= <-]].
        destruct Hcreate as [[p ->] [room' ->]].
        destruct has_callback; by run_step.
    + specialize (Hcreate None).
      destruct (createRoom socket (join_name payload) None idText avatarDraw m).1
        as [rid|e]; run_step; [| rewrite Hcreate; by intros [= <-]].
      destruct Hcreate as [[p ->] [room' ->]].
      destruct has_callback; by run_step.
    + specialize (Hadd code).
      destruct (addPlayer socket (join_name payload) code avatarDraw m).1 as [l|e];
        run_step; [| rewrite Hadd; by intros [= <-]].
      destruct Hadd as [[p ->] [room' ->]].
      destruct has_callback; by run_step.
  - (* start_game *)
    run_handler.
    destruct (host_check _ _ _ m); [by intros [= <-] |].
    destruct (startGame roomId m).1 as [[]|e] eqn:Es; run_step.
    + rewrite (nextRound_after_startGame catalog roomId draws now m Hne Es). done.
    + unchanged Hsame (StartGame roomId) e Es.
      by intros [= <-].
  - (* next_round *)
    run_handler.
    destruct (host_check _ _ _ m); [by intros [= <-] |].
    destruct (nextRound catalog roomId draws now m).1 as [[]|e] eqn:Es; run_step.
    + destruct (with_room_returned _ _ _ _ Es) as (room & _ & _ & _ & Hg).
      unfold nextRound in *. rewrite Hg. run_step.
      case_decide; by run_step.
    + unchanged Hsame (NextRound roomId draws now) e Es.
      by intros [= <-].
  - (* buzz *)
    run_handler.
    destruct (getPlayer socket m) as [p|] eqn:Ep; run_step; [| by intros [= <-]].
    destruct (handleBuzz roomId socket now m).1 as [[|]|e] eqn:Es; run_step.
    + unfold handleBuzz in *. rewrite getPlayer_with_room, Ep.
      by run_step.
    + done.
    + unchanged Hsame (HandleBuzz roomId socket now) e Es.
      by intros [= <-].
  - (* show_result *)
    run_handler.
    destruct (host_check _ _ _ m); [by intros [= <-] |].
    destruct (showRoundResult roomId m).1 as [[]|e] eqn:Es; run_step; [done |].
    unchanged Hsame (ShowRoundResult roomId) e Es.
    by intros [= <-].
  - (* update_score *)
    run_handler.
    destruct (host_check _ _ _ m); [by intros [= <-] |].
    destruct (updateScore roomId playerId points m).1 as [[]|e] eqn:Es; run_step; [done |].
    unchanged Hsame (UpdateScore roomId playerId points) e Es.
    by intros [= <-].
  - (* host_give_score *)
    run_handler.
    destruct (host_check _ _ _ m); [by intros [= <-] |].
    case_decide; run_step; [by intros [= <-] |].
    destruct (number_lt _ _ || number_lt _ _); run_step; [by intros [= <-] |].
    destruct (giveScore roomId playerId scoreAmount m).1 as [[]|e] eqn:Es; run_step; [done |].
    unchanged Hsame (GiveScore roomId playerId scoreAmount) e Es.
    by intros [= <-].
  - (* reset_round *)
    run_handler.
    destruct (host_check _ _ _ m); [by intros [= <-] |].
    destruct (resetRound catalog roomId draws now m).1 as [[]|e] eqn:Es; run_step.
    + destruct (with_room_returned _ _ _ _ Es) as (room & _ & _ & _ & Hg).
      unfold resetRound in *. rewrite Hg. run_step.
      case_decide; by run_step.
    + unchanged Hsame (ResetRound roomId draws now) e Es.
      by intros [= <-].
  - (* get_room_state *)
    run_handler. destruct (getRoom roomId m); run_step; [done | by intros [= <-]].
Qed.

Lemma put_room_put_room code room room' m :
  put_room code room' (put_room code room m) = put_room code room' m.
Proof. unfold put_room, set_rooms. simpl. by rewrite insert_insert_eq. Qed.

Lemma host_check_passed socket roomId denied m room :
  is_Some (getPlayer socket m) → rooms m !! roomId = Some room →
  hostId room = socket →
  host_check socket roomId denied m = inr room.
Proof.
  intros [p Hp] E Hh. unfold host_check, getRoom, isHost. rewrite Hp, E.
  by rewrite bool_decide_eq_true_2.
Qed.

Lemma select_song_first catalog draws :
  select_song catalog draws [] = (getRandomSong catalog (draws 0), []).
Proof.
  unfold select_song. change (maxAttempts - 1) with (S 98).
  generalize 98. intros left. cbn [select_loop].
  destruct (getRandomSong catalog (draws 0)); [| done].
  rewrite bool_decide_eq_false_2; [done |]. apply not_elem_of_nil.
Qed.

Lemma startGame_ready roomId m room :
  rooms m !! roomId = Some room → state room = LOBBY →
  2 ≤ JsMap.size (room_players room) →
  startGame roomId m =
    (Return (),
     put_room roomId
       (set_songsPlayed [] (set_roundNumber 0 (set_room_state ROUND_LOADING room))) m).
Proof.
  intros E Hs Hn. unfold startGame. rewrite (with_room_found _ _ _ _ E).
  unfold startGame_room. rewrite decide_False by (rewrite Hs; by intros ?).
  by rewrite decide_False by lia.
Qed.

Lemma startGame_started roomId m room :
  rooms m !! roomId = Some room → state room ≠ LOBBY →
  startGame roomId m = (Throw AlreadyStarted, m).
Proof.
  intros E Hs. unfold startGame. rewrite (with_room_found _ _ _ _ E).
  unfold startGame_room. rewrite decide_True by done. cbn [fst snd].
  by rewrite put_room_same.
Qed.

Lemma startGame_too_few roomId m room :
  rooms m !! roomId = Some room → state room = LOBBY →
  JsMap.size (room_players room) < 2 →
  startGame roomId m = (Throw InsufficientPlayers, m).
Proof.
  intros E Hs Hn. unfold startGame. rewrite (with_room_found _ _ _ _ E).
  unfold startGame_room. rewrite decide_False by (rewrite Hs; by intros ?).
  rewrite decide_True by done. cbn [fst snd]. by rewrite put_room_same.
Qed.

(** X22. start_game sent by the host of a room in LOBBY with at least
    two members starts round 1: the room is in ROUND_LOADING with the
    song of the first draw in place, unbuzzed and not the karaoke round;
    the timer is set, the new state is broadcast to the room and the
    sender gets 'Game started'; and when the timer fires next, the room
    moves to ROUND_PLAYING. With fewer than two members, or in a room
    that is not in LOBBY, the request fails and changes nothing. *)
Theorem start_game_outcome catalog m socket roomId draws now has_callback room :
  catalog ≠ [] → reachable catalog m →
  is_Some (getPlayer socket m) → rooms m !! roomId = Some room →
  hostId room = socket →
  (state room ≠ LOBBY →
     dispatch catalog socket (start_game roomId draws now) has_callback m =
       (acknowledge socket has_callback (failed "Game already started"), m)) ∧
  (state room = LOBBY → JsMap.size (room_players room) < 2 →
     dispatch catalog socket (start_game roomId draws now) has_callback m =
       (acknowledge socket has_callback (failed "Need at least 2 players to start"),
        m)) ∧
  (state room = LOBBY → 2 ≤ JsMap.size (room_players room) →
     ∃ s, getRandomSong catalog (draws 0) = Some s ∧
       let round :=
         {| song := s; buzzedPlayerId := None; startTime := now;
            buzzTime := None; isKaraoke := Some false |} in
       let room' :=
         {| room_id := room_id room; hostId := hostId room;
            state := ROUND_LOADING; room_players := room_players room;
            currentRound := Some round; roundNumber := 1; totalRounds := 10;
            songsPlayed := [song_id s] |} in
       let m' := put_room roomId room' m in
       dispatch catalog socket (start_game roomId draws now) has_callback m =
         (setTimeout roomId 2000 :: state_update roomId m' ++
            acknowledge socket has_callback (succeeded "Game started"),
          m') ∧
       ∀ now',
         let m'' :=
           put_room roomId
             (set_currentRound (Some (set_startTime now' round))
                (set_room_state ROUND_PLAYING room')) m in
         on_timeout roomId now' m' = (None, (state_update roomId m'', m''))).
Proof.
  intros Hne Hreach Hp E Hh.
  destruct (reachable_invariant _ _ Hreach) as [_ Hrooms].
  destruct (Hrooms _ _ E) as [_ (Htotal & Hlobby & _)].
  pose proof (host_check_passed socket roomId "Only the host can start the game"
                m room Hp E Hh) as Hcheck.
  split; [| split].
  - intros Hs. run_handler. rewrite Hcheck.
    by rewrite (startGame_started _ _ _ E Hs).
  - intros Hs Hn. run_handler. rewrite Hcheck.
    by rewrite (startGame_too_few _ _ _ E Hs Hn).
  - intros Hs Hn.
    destruct (random_of_list_Some catalog (draws 0) Hne) as [s Es].
    exists s. split; [done |]. intros round room' m'.
    assert (Hnext : nextRound catalog roomId draws now (startGame roomId m).2 =
              (Return (), m')).
    { rewrite (startGame_ready _ _ _ E Hs Hn). cbn [fst snd]. unfold nextRound.
      erewrite with_room_found by (by rewrite lookup_put_room, decide_True).
      rewrite nextRound_room_unfold. simpl.
      unfold advance_round. simpl. rewrite Htotal.
      rewrite decide_False by lia.
      rewrite select_song_first. unfold getRandomSong in Es |- *. rewrite Es.
      cbn [fst snd]. by rewrite put_room_put_room. }
    split.
    + run_handler. rewrite Hcheck, Hnext.
      rewrite (startGame_ready _ _ _ E Hs Hn). done.
    + intros now' m''. run_handler.
      erewrite startRoundPlaying_ready;
        [| by unfold m'; rewrite lookup_put_room, decide_True | done | done].
      cbn [fst snd]. unfold m'. by rewrite !put_room_put_room.
Qed.




Lemma handleBuzz_open code playerId now m room round :
  rooms m !! code = Some room → state room = ROUND_PLAYING →
  currentRound room = Some round → buzzedPlayerId round = None →
  handleBuzz code playerId now m =
    (Return true,
     put_room code
       (set_room_state ROUND_LOCKED
          (set_currentRound (Some (set_buzz playerId now round)) room)) m).
Proof.
  intros E Hs Hr Hb. unfold handleBuzz.
  by rewrite (with_room_found _ _ _ _ E), (handleBuzz_room_open _ _ _ _ Hs Hr Hb).
Qed.

(** X24. A buzz is accepted from any socket the manager knows, whether
    or not it is in the room named, exactly when that room is in
    ROUND_PLAYING: the room is locked with the sender as the one who
    buzzed, the new state and buzz_received with the sender's name are
    broadcast to the room, and the sender is acknowledged; every buzz
    that follows is refused with 'Round already locked or invalid
    state', changing and broadcasting nothing. In any other state the
    buzz is refused in the same way; from an unknown socket, or for an
    unknown room, it fails. *)
Theorem buzz_request_outcome catalog m socket roomId now timestamp has_callback :
  reachable catalog m →
  (getPlayer socket m = None →
     dispatch catalog socket (buzz roomId now timestamp) has_callback m =
       (acknowledge socket has_callback (failed "Player not found"), m)) ∧
  (∀ p, getPlayer socket m = Some p →
     (rooms m !! roomId = None →
        dispatch catalog socket (buzz roomId now timestamp) has_callback m =
          (acknowledge socket has_callback (failed "Room not found"), m)) ∧
     (∀ room, rooms m !! roomId = Some room →
        (state room ≠ ROUND_PLAYING →
           dispatch catalog socket (buzz roomId now timestamp) has_callback m =
             (acknowledge socket has_callback
                (refused "Round already locked or invalid state"), m)) ∧
        (state room = ROUND_PLAYING →
           ∃ round, currentRound room = Some round ∧
             let m' :=
               put_room roomId
                 (set_room_state ROUND_LOCKED
                    (set_currentRound (Some (set_buzz socket now round)) room)) m in
             dispatch catalog socket (buzz roomId now timestamp) has_callback m =
               (state_update roomId m' ++
                  [io_to roomId (buzz_received socket (name p) timestamp)] ++
                  acknowledge socket has_callback
                    (succeeded "Buzz registered successfully"),
                m') ∧
             ∀ socket' now' timestamp' has_callback',
               is_Some (getPlayer socket' m) →
               dispatch catalog socket' (buzz roomId now' timestamp')
                        has_callback' m' =
                 (acknowledge socket' has_callback'
                    (refused "Round already locked or invalid state"), m')))).
Proof.
  intros Hreach.
  destruct (reachable_wellformed _ _ Hreach) as (_ & _ & _ & _ & Hshape).
  split.
  - intros Hp. run_handler. by rewrite Hp.
  - intros p Hp. split.
    + intros E. run_handler. rewrite Hp. run_step. unfold handleBuzz.
      by rewrite (with_room_missing _ _ _ E).
    + intros room E. split.
      * intros Hs. run_handler. rewrite Hp. run_step.
        rewrite (handleBuzz_closed _ _ _ _ _ E) by (by left). by run_step.
      * intros Hs. destruct (Hshape _ _ E) as [_ Hphase].
        unfold room_phase_ok in Hphase. rewrite Hs in Hphase.
        destruct Hphase as (round & Hr & Hb & _).
        exists round. split; [done |]. intros m'. split.
        -- run_handler. rewrite Hp. run_step.
           rewrite (handleBuzz_open _ _ _ _ _ _ E Hs Hr Hb). run_step.
           rewrite getPlayer_put_room, Hp. run_step. fold m'.
           by rewrite <- app_assoc.
        -- intros socket' now' timestamp' has_callback' [p' Hp'].
           run_handler. unfold m' at 1. rewrite getPlayer_put_room, Hp'. run_step.
           erewrite handleBuzz_closed;
             [| by unfold m'; rewrite lookup_put_room, decide_True | by left].
           by run_step.
Qed.

(** X25. When a socket disconnects: if the manager does not know it,
    nothing happens; if it was the last member of its room, the room is
    deleted and nothing is sent; otherwise it is taken off the roster,
    the host role passes to the first remaining member if it was the
    host's, the new state is broadcast to the room and the others get
    player_left with the name of the one who left and the remaining
    roster, which no longer lists the socket. The handler never
    throws. *)
Theorem disconnect_outcome catalog m socket :
  reachable catalog m →
  (players m !! socket = None → on_disconnect socket m = (None, ([], m))) ∧
  (∀ l, players m !! socket = Some l →
     ∃ p room,
       heap m !! l = Some p ∧ rooms m !! roomId p = Some room ∧
       match JsMap.delete socket (room_players room) with
       | [] =>
           on_disconnect socket m =
             (None,
              ([], {| rooms := delete (roomId p) (rooms m);
                      players := delete socket (players m); heap := heap m |}))
       | (next, l') :: rest =>
           let room' :=
             set_hostId (if decide (hostId room = socket) then next else hostId room)
               (set_room_players ((next, l') :: rest) room) in
           let m' :=
             {| rooms := <[roomId p := room']> (rooms m);
                players := delete socket (players m); heap := heap m |} in
           on_disconnect socket m =
             (None,
              (state_update (roomId p) m' ++
                 [socket_to socket (roomId p)
                    (player_left socket (name p)
                       (view <$> getPlayersInRoom (roomId p) m'))],
               m')) ∧
           (socket ∉ player_id <$> getPlayersInRoom (roomId p) m') ∧
           (hostId room' ∈ player_id <$> getPlayersInRoom (roomId p) m')
       end).
Proof.
  intros Hreach. split.
  - intros E. run_handler. unfold removePlayer. by rewrite E.
  - intros l El.
    destruct (removePlayer_found _ _ _ _ Hreach El) as (p & room & Hp & E & Hrm).
    exists p, room. split; [done |]. split; [done |].
    destruct (reachable_invariant _ _ Hreach) as [_ Hrooms].
    destruct (Hrooms _ _ E) as [(Hrid & _) _].
    destruct (JsMap.delete socket (room_players room)) as [|[next l'] rest] eqn:Ed.
    + destruct Hrm as [_ Hrm]. run_handler. by rewrite Hrm.
    + simpl in Hrm. intros room' m'. fold room' in Hrm. fold m' in Hrm.
      assert (Hreach' : reachable catalog m').
      { replace m' with (exec catalog (RemovePlayer socket) m);
          [by constructor | simpl; by rewrite Hrm]. }
      assert (E' : rooms m' !! roomId p = Some room')
        by (unfold m'; simpl; by rewrite lookup_insert_eq).
      destruct (wellformed_roster _ _ _ _ (reachable_wellformed _ _ Hreach') E')
        as (_ & Hids & _).
      destruct (reachable_invariant _ _ Hreach') as [_ Hrooms'].
      destruct (Hrooms' _ _ E') as [(_ & Hhost' & _) _].
      split; [| split].
      * run_handler. rewrite Hrm. run_step.
        assert (Hrid' : room_id room' = roomId p) by done. rewrite Hrid'.
        assert (Hp' : heap m' !! l = Some p) by done. rewrite Hp'. by run_step.
      * rewrite Hids. apply JsMapFacts.get_None_keys.
        unfold room'. cbn [room_players set_hostId set_room_players].
        rewrite <- Ed. rewrite JsMapFacts.get_delete.
        by rewrite decide_True.
      * rewrite Hids. by apply JsMapFacts.get_Some_keys.
Qed.

Lemma advance_round_returned catalog draws now room :
  (advance_round catalog draws now room).1 = Return () →
  (totalRounds room ≤ roundNumber room ∧
   (advance_round catalog draws now room).2 =
     set_currentRound None (set_room_state GAME_OVER room)) ∨
  (roundNumber room < totalRounds room ∧
   state (advance_round catalog draws now room).2 = ROUND_LOADING ∧
   roundNumber (advance_round catalog draws now room).2 = S (roundNumber room) ∧
   ∃ round, currentRound (advance_round catalog draws now room).2 = Some round ∧
            buzzedPlayerId round = None ∧ buzzTime round = None ∧
            startTime round = now ∧ song round ∈ catalog).
Proof.
  unfold advance_round. case_decide as Hover; [by left |].
  destruct (select_song catalog draws (songsPlayed room)) as [[s|] played] eqn:Es;
    [| done].
  intros _. right. split; [lia |]. simpl. split; [done |]. split; [done |].
  eexists. split; [done |]. simpl. repeat split.
  apply (select_loop_in_catalog catalog draws (maxAttempts - 1) 0 (songsPlayed room)).
  unfold select_song in Es. by rewrite Es.
Qed.

(** What a room looks like after [nextRound] returned. *)
Lemma nextRound_room_returned catalog draws now room :
  (nextRound_room catalog draws now room).1 = Return () →
  (state (nextRound_room catalog draws now room).2 = GAME_OVER ∧
   currentRound (nextRound_room catalog draws now room).2 = None) ∨
  (state (nextRound_room catalog draws now room).2 = ROUND_LOADING ∧
   ∃ round, currentRound (nextRound_room catalog draws now room).2 = Some round ∧
            buzzedPlayerId round = None ∧ buzzTime round = None ∧
            startTime round = now ∧ song round ∈ catalog).
Proof.
  rewrite nextRound_room_unfold.
  destruct (decide (state room = LOBBY)); [case_decide; [done |] |];
    intros [[_ ->]|(_ & Hs & _ & Hr)]%advance_round_returned; auto.
Qed.

(** X26. next_round sent by the host. In a lobby with fewer than two
    members it fails with 'Need at least 2 players to start' and changes
    nothing. Otherwise it never fails: when the round counter has
    reached the target the room goes to GAME_OVER without a round, the
    state is broadcast with 'Game over' for the sender, and no timer is
    set; if not, the room is in ROUND_LOADING with the counter one
    higher and an unbuzzed round of a song of the catalog in place, the
    timer is set, the state is broadcast with 'Next round started', and
    the timer, when it fires next, moves the room to ROUND_PLAYING. *)
Theorem next_round_outcome catalog m socket roomId draws now has_callback room :
  catalog ≠ [] → reachable catalog m →
  is_Some (getPlayer socket m) → rooms m !! roomId = Some room →
  hostId room = socket →
  (state room = LOBBY → JsMap.size (room_players room) < 2 →
     dispatch catalog socket (next_round roomId draws now) has_callback m =
       (acknowledge socket has_callback (failed "Need at least 2 players to start"),
        m)) ∧
  (state room ≠ LOBBY ∨ 2 ≤ JsMap.size (room_players room) →
     let m' := (nextRound catalog roomId draws now m).2 in
     ∃ room', rooms m' !! roomId = Some room' ∧
       ((totalRounds room ≤ roundNumber room ∧
         room' = set_currentRound None (set_room_state GAME_OVER room) ∧
         dispatch catalog socket (next_round roomId draws now) has_callback m =
           (state_update roomId m' ++
              acknowledge socket has_callback (succeeded "Game over"), m')) ∨
        (roundNumber room < totalRounds room ∧
         state room' = ROUND_LOADING ∧ roundNumber room' = S (roundNumber room) ∧
         ∃ round,
           currentRound room' = Some round ∧ buzzedPlayerId round = None ∧
           buzzTime round = None ∧ startTime round = now ∧ song round ∈ catalog ∧
           dispatch catalog socket (next_round roomId draws now) has_callback m =
             (setTimeout roomId 2000 :: state_update roomId m' ++
                acknowledge socket has_callback (succeeded "Next round started"),
              m') ∧
           ∀ now',
             let m'' :=
               put_room roomId
                 (set_currentRound (Some (set_startTime now' round))
                    (set_room_state ROUND_PLAYING room')) m' in
             on_timeout roomId now' m' = (None, (state_update roomId m'', m''))))).
Proof.
  intros Hne Hreach Hp E Hh.
  destruct (reachable_invariant _ _ Hreach) as [_ Hrooms].
  destruct (Hrooms _ _ E) as [_ (Htotal & Hlobby & _)].
  pose proof (host_check_passed socket roomId "Only the host can advance to next round"
                m room Hp E Hh) as Hcheck.
  assert (Hcall : nextRound catalog roomId draws now m =
            ((nextRound_room catalog draws now room).1,
             put_room roomId (nextRound_room catalog draws now room).2 m))
    by (unfold nextRound; by rewrite (with_room_found _ _ _ _ E)).
  split.
  - intros Hs Hn. run_handler. rewrite Hcheck, Hcall. cbn [fst snd].
    rewrite nextRound_room_unfold, decide_True, decide_True by done.
    cbn [fst snd]. by rewrite put_room_same.
  - intros Hok. rewrite Hcall. cbn [fst snd].
    exists (nextRound_room catalog draws now room).2.
    split; [by rewrite lookup_put_room, decide_True |].
    set (room0 := if decide (state room = LOBBY)
                  then set_songsPlayed []
                         (set_roundNumber 0 (set_room_state ROUND_LOADING room))
                  else room).
    assert (Hunfold : nextRound_room catalog draws now room =
              advance_round catalog draws now room0).
    { rewrite nextRound_room_unfold. unfold room0.
      destruct (decide (state room = LOBBY)) as [Hs|Hs]; [| done].
      rewrite decide_False; [done |]. destruct Hok; [done | lia]. }
    assert (Hcount : roundNumber room0 = roundNumber room ∧
                     totalRounds room0 = totalRounds room ∧
                     (totalRounds room ≤ roundNumber room → room0 = room)).
    { unfold room0. destruct (decide (state room = LOBBY)) as [Hs|Hs]; [| done].
      destruct (Hlobby Hs) as [_ H0]. simpl. rewrite H0. split; [done |].
      split; [done |]. lia. }
    destruct Hcount as (Hnum & Htot & Hsame).
    assert (Hret : (advance_round catalog draws now room0).1 = Return ()).
    { destruct (advance_round catalog draws now room0).1 as [[]|e] eqn:Ea; [done |].
      exfalso. eapply advance_round_thrown; [done |]. by rewrite Ea. }
    rewrite Hunfold.
    destruct (advance_round_returned _ _ _ _ Hret)
      as [[Hover Hroom']|(Hless & Hst & Hnum' & round & Hr & Hb & Hbt & Hstart & Hsong)].
    + left. rewrite Htot, Hnum in Hover. split; [done |].
      rewrite Hroom', (Hsame Hover). split; [done |].
      run_handler. rewrite Hcheck, Hcall, Hunfold, Hret. cbn [fst snd]. run_step.
      unfold getRoom. rewrite lookup_put_room, decide_True by done. run_step.
      rewrite Hroom', (Hsame Hover). simpl. by run_step.
    + right. rewrite Htot, Hnum in Hless. split; [done |]. split; [done |].
      split; [congruence |]. exists round. repeat (split; [done |]). split.
      * run_handler. rewrite Hcheck, Hcall, Hunfold, Hret. cbn [fst snd]. run_step.
        unfold getRoom. rewrite lookup_put_room, decide_True by done. run_step.
        rewrite decide_False by (by rewrite Hst). by run_step.
      * intros now'. run_handler.
        erewrite startRoundPlaying_ready;
          [| by rewrite lookup_put_room, decide_True | done | done].
        done.
Qed.

Lemma resetRound_as_nextRound catalog draws now room :
  catalog ≠ [] → state room = ROUND_LOCKED ∨ state room = ROUND_RESULT →
  resetRound_room catalog draws now room = nextRound_room catalog draws now room.
Proof.
  intros Hne Hst. unfold resetRound_room. rewrite decide_True by done.
  rewrite !nextRound_room_unfold. simpl.
  rewrite !decide_False by (destruct Hst as [Hst|Hst]; by rewrite Hst).
  unfold advance_round. simpl. case_decide; [done |].
  pose proof (select_loop_None catalog draws (maxAttempts - 1) 0 (songsPlayed room)) as HNone.
  unfold select_song.
  destruct (select_loop catalog draws (maxAttempts - 1) 0 (songsPlayed room))
    as [[s|] played]; [done |].
  exfalso. by apply Hne, HNone.
Qed.

(** X27. reset_round sent by the host. From ROUND_LOCKED or ROUND_RESULT
    it does what next_round does: the round in place is dropped and the
    next one drawn, or the game is over. From GAME_OVER nothing changes
    and the sender gets 'Game over'. From LOBBY, ROUND_LOADING and
    ROUND_PLAYING the manager is left as it is, yet the timer is set and
    the sender gets 'Round reset successfully'; unless the room is in
    ROUND_LOADING then, the timer callback throws 'Invalid state
    transition' when it fires. *)
Theorem reset_round_outcome catalog m socket roomId draws now has_callback room :
  catalog ≠ [] → reachable catalog m →
  is_Some (getPlayer socket m) → rooms m !! roomId = Some room →
  hostId room = socket →
  (state room = ROUND_LOCKED ∨ state room = ROUND_RESULT →
     resetRound catalog roomId draws now m = nextRound catalog roomId draws now m ∧
     let m' := (nextRound catalog roomId draws now m).2 in
     ∃ room', rooms m' !! roomId = Some room' ∧
       (state room' = GAME_OVER ∨ state room' = ROUND_LOADING) ∧
       dispatch catalog socket (reset_round roomId draws now) has_callback m =
         ((if decide (state room' = GAME_OVER) then []
           else [setTimeout roomId 2000]) ++
          state_update roomId m' ++
          acknowledge socket has_callback
            (succeeded (if decide (state room' = GAME_OVER) then "Game over"
                        else "Round reset successfully")),
          m')) ∧
  (state room = GAME_OVER →
     dispatch catalog socket (reset_round roomId draws now) has_callback m =
       (state_update roomId m ++
          acknowledge socket has_callback (succeeded "Game over"), m)) ∧
  (state room = LOBBY ∨ state room = ROUND_LOADING ∨ state room = ROUND_PLAYING →
     dispatch catalog socket (reset_round roomId draws now) has_callback m =
       (setTimeout roomId 2000 :: state_update roomId m ++
          acknowledge socket has_callback (succeeded "Round reset successfully"),
        m) ∧
     (state room ≠ ROUND_LOADING →
        ∀ now', on_timeout roomId now' m =
                  (Some "Invalid state transition", ([], m)))).
Proof.
  intros Hne Hreach Hp E Hh.
  pose proof (host_check_passed socket roomId "Only the host can reset the round"
                m room Hp E Hh) as Hcheck.
  assert (Hidle : ¬ (state room = ROUND_LOCKED ∨ state room = ROUND_RESULT) →
            resetRound catalog roomId draws now m = (Return (), m)).
  { intros Hst. unfold resetRound. rewrite (with_room_found _ _ _ _ E).
    unfold resetRound_room. rewrite decide_False by done. cbn [fst snd].
    by rewrite put_room_same. }
  split; [| split].
  - intros Hst.
    assert (Heq : resetRound catalog roomId draws now m =
                  nextRound catalog roomId draws now m).
    { unfold resetRound, nextRound. rewrite !(with_room_found _ _ _ _ E).
      by rewrite resetRound_as_nextRound. }
    split; [done |].
    assert (Hcall : nextRound catalog roomId draws now m =
              ((nextRound_room catalog draws now room).1,
               put_room roomId (nextRound_room catalog draws now room).2 m))
      by (unfold nextRound; by rewrite (with_room_found _ _ _ _ E)).
    assert (Hret : (nextRound_room catalog draws now room).1 = Return ()).
    { rewrite nextRound_room_unfold.
      rewrite decide_False by (destruct Hst as [Hst|Hst]; by rewrite Hst).
      destruct (advance_round catalog draws now room).1 as [[]|e] eqn:Ea; [done |].
      exfalso. eapply advance_round_thrown; [done |]. by rewrite Ea. }
    rewrite Hcall. cbn [fst snd].
    exists (nextRound_room catalog draws now room).2.
    split; [by rewrite lookup_put_room, decide_True |].
    split.
    { destruct (nextRound_room_returned _ _ _ _ Hret) as [[? _]|[? _]]; auto. }
    run_handler. rewrite Hcheck, Heq, Hcall, Hret. cbn [fst snd]. run_step.
    unfold getRoom. rewrite lookup_put_room, decide_True by done. run_step.
    case_decide; by run_step.
  - intros Hs. run_handler. rewrite Hcheck, Hidle.
    + cbn [fst snd]. run_step. unfold getRoom. rewrite E. run_step.
      rewrite decide_True by done. by run_step.
    + rewrite Hs. by intros [|].
  - intros Hst. split.
    + run_handler. rewrite Hcheck, Hidle.
      * cbn [fst snd]. run_step. unfold getRoom. rewrite E. run_step.
        rewrite decide_False by (destruct Hst as [Hs|[Hs|Hs]]; by rewrite Hs).
        by run_step.
      * destruct Hst as [Hs|[Hs|Hs]]; rewrite Hs; by intros [|].
    + intros Hs now'. run_handler.
      rewrite (startRoundPlaying_not_ready _ _ _ _ E) by (by left). done.
Qed.

(** X28. join_game. A player must name a room ('Room ID is required for
    players') that exists ('Room not found'). Whoever names a room that
    exists, as player or as host, is added to it (or found in it): the
    room keeps its host and its state, the sender is on the roster that
    is sent, and the socket joins the room's channel, gets the
    acknowledgement with the roster and the state, the room gets the
    state update and the others player_joined. A host who names no room
    that exists creates one, under the code given or a generated one,
    and is its host and only member, in LOBBY; if the generated code is
    taken the request fails with 'Room already exists'. *)
Theorem join_game_outcome catalog m socket payload idText avatarDraw has_callback :
  reachable catalog m →
  (join_role payload = RolePlayer → truthy (join_roomId payload) = None →
     dispatch catalog socket (join_game payload idText avatarDraw) has_callback m =
       (acknowledge socket has_callback (failed "Room ID is required for players"),
        m)) ∧
  (∀ code, truthy (join_roomId payload) = Some code →
     (join_role payload = RolePlayer → rooms m !! code = None →
        dispatch catalog socket (join_game payload idText avatarDraw) has_callback m =
          (acknowledge socket has_callback (failed "Room not found"), m)) ∧
     (∀ room, rooms m !! code = Some room →
        let m' := (addPlayer socket (join_name payload) code avatarDraw m).2 in
        ∃ room' p,
          rooms m' !! code = Some room' ∧
          hostId room' = hostId room ∧ state room' = state room ∧
          p ∈ getPlayersInRoom code m' ∧ player_id p = socket ∧
          dispatch catalog socket (join_game payload idText avatarDraw)
                   has_callback m =
            (joined_effects socket code has_callback room' p m', m'))) ∧
  (∀ code desired,
     join_role payload = RoleHost →
     (truthy (join_roomId payload) = Some code ∧ desired = Some code) ∨
     (truthy (join_roomId payload) = None ∧ desired = None ∧
      code = generateRoomId idText) →
     (rooms m !! code = None →
        let m' := (createRoom socket (join_name payload) desired idText
                              avatarDraw m).2 in
        let p := {| player_id := socket; socketId := socket;
                    name := join_name payload; score := Finite 0;
                    avatar := generateAvatar avatarDraw; roomId := code |} in
        let room' := {| room_id := code; hostId := socket; state := LOBBY;
                        room_players := [(socket, length (heap m))];
                        currentRound := None; roundNumber := 0; totalRounds := 10;
                        songsPlayed := [] |} in
        rooms m' !! code = Some room' ∧ getPlayersInRoom code m' = [p] ∧
        dispatch catalog socket (join_game payload idText avatarDraw)
                 has_callback m =
          (joined_effects socket code has_callback room' p m', m')) ∧
     (desired = None → is_Some (rooms m !! code) →
        dispatch catalog socket (join_game payload idText avatarDraw)
                 has_callback m =
          (acknowledge socket has_callback (failed "Room already exists"), m))).
Proof.
  intros Hreach. split; [| split].
  - intros Hrole Hnone. run_handler. by rewrite Hrole, Hnone.
  - intros code Hcode. split.
    + intros Hrole E. run_handler. rewrite Hrole, Hcode. run_step.
      unfold addPlayer. by rewrite E.
    + intros room E.
      destruct (addPlayer socket (join_name payload) code avatarDraw m).1
        as [l|e] eqn:Ea;
        [| revert Ea; unfold addPlayer; rewrite E;
           by destruct (JsMap.get socket (room_players room))].
      destruct (addPlayer_returned _ _ _ _ _ _ _ Hreach Ea)
        as (room0 & room' & p & E0 & Hg & Hget & Hl & Hpid & _ & Hin & Hh & Hs & _).
      assert (room0 = room) as -> by congruence.
      assert (Hrid : room_id room' = code).
      { assert (Hreach' : reachable catalog
                  (addPlayer socket (join_name payload) code avatarDraw m).2)
          by apply (reachable_exec catalog
                      (AddPlayer socket (join_name payload) code avatarDraw) m Hreach).
        destruct (reachable_invariant _ _ Hreach') as [_ Hrooms'].
        by destruct (Hrooms' _ _ Hg) as [(? & _) _]. }
      exists room', p. repeat (split; [done |]).
      run_handler. rewrite Hcode.
      unfold joined_effects.
      destruct (join_role payload); run_step.
      * unfold getRoom at 1. rewrite E. run_step.
        rewrite Ea. run_step. rewrite Hl, Hg. run_step.
        destruct has_callback; run_step; rewrite ?Hrid; simpl;
          by rewrite <- ?app_assoc.
      * rewrite Ea. run_step. rewrite Hl, Hg. run_step.
        destruct has_callback; run_step; rewrite ?Hrid; simpl;
          by rewrite <- ?app_assoc.
  - intros code desired Hrole Hcase.
    assert (Hnew : match desired with
                   | Some code => if decide (code = "") then generateRoomId idText
                                  else code
                   | None => generateRoomId idText
                   end = code).
    { destruct Hcase as [[Hc ->]|(_ & -> & ->)]; [| done].
      unfold truthy in Hc. destruct (join_roomId payload) as [c|]; [| done].
      case_decide; [done |]. injection Hc as ->. by rewrite decide_False. }
    split.
    + intros E.
      assert (Hret : (createRoom socket (join_name payload) desired idText
                                 avatarDraw m).1 = Return code).
      { unfold createRoom. rewrite Hnew, E. done. }
      destruct (createRoom_returned _ _ _ _ _ _ _ Hret) as (_ & p & Hp & -> & Hg & Hps).
      split; [done |]. split; [done |].
      run_handler. rewrite Hrole. unfold joined_effects.
      destruct Hcase as [[Hc ->]|(Hc & -> & _)]; rewrite Hc; run_step.
      * unfold getRoom at 1. rewrite E. run_step. rewrite Hret. run_step.
        rewrite Hp, Hg, Hps. run_step.
        destruct has_callback; run_step; simpl; by rewrite <- ?app_assoc.
      * rewrite Hret. run_step. rewrite Hp, Hg, Hps. run_step.
        destruct has_callback; run_step; simpl; by rewrite <- ?app_assoc.
    + intros -> [room E].
      destruct Hcase as [[_ [=]]|(Hc & _ & _)].
      run_handler. rewrite Hrole, Hc. run_step.
      unfold createRoom. rewrite Hnew, E. by run_step.
Qed.

(** *** State updates show the state after the request *)

Lemma no_update_up_to_date w : no_update w → up_to_date w.
Proof. intros Hw roomId gameState Hin. by apply Hw in Hin. Qed.

Lemma settles_of_preserves {A : Type} (h : Handler A) :
  preserves up_to_date h → settles h.
Proof. intros Hh w Hw. by apply Hh, no_update_up_to_date. Qed.

Lemma settles_bind {A B : Type} (c : Handler A) (k : A → Handler B) :
  preserves no_update c → (∀ a, settles (k a)) → settles (c ≫= k).
Proof.
  intros Hc Hk w Hw. rewrite run_bind. specialize (Hc w Hw).
  destruct (c w) as [[error|a] w']; [by apply no_update_up_to_date | by apply Hk].
Qed.

Lemma up_to_date_emit e w :
  (∀ roomId gameState, e ≠ io_to roomId (game_state_update gameState)) →
  up_to_date w →
  up_to_date {| manager := manager w; sent := sent w ++ [e] |}.
Proof.
  intros He Hw roomId gameState. cbn [sent manager].
  intros [Hin|Hin%list_elem_of_singleton]%elem_of_app; [by apply Hw |].
  by destruct (He roomId gameState).
Qed.

Lemma up_to_date_update roomId gameState w :
  game_state_of roomId (manager w) = Some gameState →
  up_to_date w →
  up_to_date {| manager := manager w;
                sent := sent w ++ [io_to roomId (game_state_update gameState)] |}.
Proof.
  intros Hg Hw roomId' gameState'. cbn [sent manager].
  intros [Hin|Hin%list_elem_of_singleton]%elem_of_app; [by apply Hw |].
  by injection Hin as -> ->.
Qed.

Lemma no_update_emit e w :
  (∀ roomId gameState, e ≠ io_to roomId (game_state_update gameState)) →
  no_update w →
  no_update {| manager := manager w; sent := sent w ++ [e] |}.
Proof.
  intros He Hw roomId gameState. cbn [sent].
  intros [Hin|Hin%list_elem_of_singleton]%elem_of_app; [by apply Hw in Hin |].
  by destruct (He roomId gameState).
Qed.

Ltac keeps_up_to_date :=
  repeat preserves_step
    ltac:(first [ by intros; apply up_to_date_emit
                | by intros; apply up_to_date_update ])
    ltac:(fail).

Ltac keeps_no_update :=
  repeat preserves_step
    ltac:(by intros; apply no_update_emit)
    ltac:(by intros).

Ltac settles_step :=
  first
    [ solve [apply settles_of_preserves; keeps_up_to_date]
    | apply settles_bind; [solve [keeps_no_update] | intros ?]
    | match goal with
      | |- settles (match ?x with _ => _ end) => destruct x
      | |- settles (if ?x then _ else _) => destruct x
      | |- settles (let '(_, _) := ?x in _) => destruct x
      end ].

Lemma handler_settles catalog socket request has_callback :
  settles (handler catalog socket request has_callback).
Proof.
  destruct request;
    unfold handler, on_join_game, on_start_game, on_next_round, on_buzz,
           on_show_result, on_update_score, on_host_give_score, on_reset_round,
           on_get_room_state;
    repeat settles_step.
Qed.

Lemma no_update_start m : no_update {| manager := m; sent := [] |}.
Proof. intros roomId gameState. apply not_elem_of_nil. Qed.

(** X29. A state update always shows the room as the manager has it
    when the handler is done: whatever the event, the sender, the
    payload and the state, every game_state_update that is sent to a
    room while an event, a disconnection or a timer is handled carries
    the state, the counters, the round and the roster that the manager
    holds for that room afterwards. *)
Theorem state_updates_are_current catalog m :
  (∀ socket request has_callback roomId gameState,
     io_to roomId (game_state_update gameState) ∈
       (dispatch catalog socket request has_callback m).1 →
     game_state_of roomId (dispatch catalog socket request has_callback m).2 =
       Some gameState) ∧
  (∀ socket roomId gameState,
     io_to roomId (game_state_update gameState) ∈ (on_disconnect socket m).2.1 →
     game_state_of roomId (on_disconnect socket m).2.2 = Some gameState) ∧
  (∀ roomId' now roomId gameState,
     io_to roomId (game_state_update gameState) ∈ (on_timeout roomId' now m).2.1 →
     game_state_of roomId (on_timeout roomId' now m).2.2 = Some gameState).
Proof.
  split; [| split].
  - intros socket request has_callback roomId gameState.
    unfold dispatch, try_catch.
    pose proof (handler_settles catalog socket request has_callback
                  _ (no_update_start m)) as Hw.
    destruct (handler _ _ _ _ _) as [[error|[]] w]; cbn [fst snd] in *.
    + intros [Hin|Hin]%elem_of_app; [by apply Hw |].
      destruct has_callback; [| by apply elem_of_nil in Hin].
      by apply list_elem_of_singleton in Hin.
    + apply Hw.
  - intros socket roomId gameState. unfold on_disconnect, unguarded.
    set (body := _ ≫= _).
    assert (Hbody : settles body) by (unfold body; repeat settles_step).
    specialize (Hbody _ (no_update_start m)).
    destruct (body _) as [r w]. apply Hbody.
  - intros roomId' now roomId gameState. unfold on_timeout, unguarded.
    set (body := _ ≫= _).
    assert (Hbody : settles body) by (unfold body; repeat settles_step).
    specialize (Hbody _ (no_update_start m)).
    destruct (body _) as [r w]. apply Hbody.
Qed.

(** ** The theorems on the scenarios *)

Lemma lobby_reachable : reachable SONGS lobby.
Proof.
  assert (lobby = run SONGS ops_lobby initial) as -> by (vm_compute; reflexivity).
  apply reachable_run. constructor.
Qed.

Lemma SONGS_not_empty : SONGS ≠ [].
Proof. discriminate. Qed.

Lemma index_refers_to_member_witness :
  reachable SONGS playing ∧
  players playing !! "leo" = Some 1 ∧
  ∃ p room,
    heap playing !! 1 = Some p ∧ getPlayer "leo" playing = Some p ∧
    player_id p = "leo" ∧ socketId p = "leo" ∧
    rooms playing !! roomId p = Some room ∧ room_id room = roomId p ∧
    JsMap.get "leo" (room_players room) = Some 1.
Proof.
  split; [exact playing_reachable |].
  assert (E : players playing !! "leo" = Some 1) by (vm_compute; reflexivity).
  split; [exact E |].
  exact (index_refers_to_member SONGS playing "leo" 1 playing_reachable E).
Defined.

Lemma removePlayer_outcome_witness :
  reachable SONGS playing ∧
  players playing !! "ana" = Some 0 ∧
  ∃ p room,
    heap playing !! 0 = Some p ∧ rooms playing !! roomId p = Some room ∧
    match JsMap.delete "ana" (room_players room) with
    | [] =>
        hostId room = "ana" ∧
        removePlayer "ana" playing =
          ((None, Some 0),
           {| rooms := delete (roomId p) (rooms playing);
              players := delete "ana" (players playing); heap := heap playing |})
    | (next, l') :: rest =>
        let room' :=
          set_hostId (if decide (hostId room = "ana") then next else hostId room)
            (set_room_players ((next, l') :: rest) room) in
        removePlayer "ana" playing =
          ((Some room', Some 0),
           {| rooms := <[roomId p := room']> (rooms playing);
              players := delete "ana" (players playing); heap := heap playing |})
    end.
Proof.
  split; [exact playing_reachable |].
  assert (E : players playing !! "ana" = Some 0) by (vm_compute; reflexivity).
  split; [exact E |].
  exact (removePlayer_outcome SONGS playing "ana" 0 playing_reachable E).
Defined.

Lemma removePlayer_twice_witness :
  reachable SONGS playing ∧
  players (removePlayer "leo" playing).2 !! "leo" = None ∧
  removePlayer "leo" (removePlayer "leo" playing).2 =
    ((None, None), (removePlayer "leo" playing).2).
Proof.
  split; [exact playing_reachable |].
  destruct (removePlayer_twice SONGS playing "leo" playing_reachable)
    as (_ & H1 & _ & H2).
  split; [exact H1 | exact H2].
Defined.


(** Leo and Ana have played song-001. With [second] the first draw is
    song-002, which is selected; with [stubborn] the 99 tested draws are
    song-001, the draw that is discarded is song-002 and the one selected
    after the reset is song-003. *)
Lemma nextRound_selection_witness :
  reachable SONGS playing ∧
  ∃ room room' room'' round' round'',
    rooms playing !! "ROOM01" = Some room ∧
    songsPlayed room = ["song-001"] ∧
    length SONGS < totalRounds room ∧
    rooms (nextRound SONGS "ROOM01" second 5000%Z playing).2 !! "ROOM01" =
      Some room' ∧
    currentRound room' = Some round' ∧
    song_id (song round') = "song-002" ∧
    songsPlayed room' = ["song-001"; "song-002"] ∧
    rooms (nextRound SONGS "ROOM01" stubborn 5000%Z playing).2 !! "ROOM01" =
      Some room'' ∧
    currentRound room'' = Some round'' ∧
    song_id (song round'') = "song-003" ∧
    songsPlayed room'' = ["song-003"] ∧
    ((∃ k, k < 99 ∧
           (∀ j, j < k →
              ∃ s, getRandomSong SONGS (stubborn j) = Some s ∧
                   song_id s ∈ songsPlayed room) ∧
           getRandomSong SONGS (stubborn k) = Some (song round'') ∧
           (song_id (song round'') ∉ songsPlayed room) ∧
           songsPlayed room'' = songsPlayed room ++ [song_id (song round'')]) ∨
     ((∀ j, j < 99 →
         ∃ s, getRandomSong SONGS (stubborn j) = Some s ∧
              song_id s ∈ songsPlayed room) ∧
      getRandomSong SONGS (stubborn 100) = Some (song round'') ∧
      songsPlayed room'' = [song_id (song round'')])).
Proof.
  split; [exact playing_reachable |]. eexists _, _, _, _, _.
  assert (E : rooms playing !! "ROOM01" = Some _) by (vm_compute; reflexivity).
  assert (E' : rooms (nextRound SONGS "ROOM01" second 5000%Z playing).2 !! "ROOM01"
               = Some _) by (vm_compute; reflexivity).
  assert (E'' : rooms (nextRound SONGS "ROOM01" stubborn 5000%Z playing).2 !! "ROOM01"
                = Some _) by (vm_compute; reflexivity).
  assert (Hret : (nextRound SONGS "ROOM01" stubborn 5000%Z playing).1 = Return ())
    by (vm_compute; reflexivity).
  destruct (nextRound_selection SONGS "ROOM01" stubborn 5000%Z playing _
              playing_reachable E) as (Hsize & _ & Hsel).
  destruct (Hsel _ _ Hret E'' eq_refl) as [_ Hcases].
  split; [exact E |]. split; [reflexivity |]. split; [exact Hsize |].
  split; [exact E' |]. split; [reflexivity |]. split; [reflexivity |].
  split; [reflexivity |]. split; [exact E'' |]. split; [reflexivity |].
  split; [reflexivity |]. split; [reflexivity |]. exact Hcases.
Defined.

Lemma scores_never_negative_witness :
  reachable SONGS playing ∧
  (∃ p, getPlayer "leo" playing = Some p ∧
        number_lt (score p) (Finite 0) = false) ∧
  ∀ p, getPlayer "leo"
         (run SONGS [UpdateScore "ROOM01" "leo" (of_Z (-5));
                     GiveScore "ROOM01" "leo" (of_Z 3)] playing) = Some p →
       number_le (Finite 0) (score p) = true.
Proof.
  split; [exact playing_reachable |].
  destruct (scores_never_negative SONGS playing playing_reachable)
    as (H1 & _ & H3).
  split.
  - eexists.
    assert (E : getPlayer "leo" playing = Some _) by (vm_compute; reflexivity).
    split; [exact E |]. exact (H1 _ _ E).
  - intros p.
    assert (Hfin : finite_amounts [UpdateScore "ROOM01" "leo" (of_Z (-5));
                                   GiveScore "ROOM01" "leo" (of_Z 3)]).
    { repeat constructor; intros a [= <-]; reflexivity. }
    assert (Hm : scores_at_least_zero playing).
    { intros [|[|l]] q; simpl; intros [= <-]; reflexivity. }
    destruct (H3 _ Hfin Hm) as [Hget _]. apply Hget.
Defined.

Lemma giveScore_adds_witness :
  reachable SONGS last_round ∧
  giveScore "ROOM01" "leo" (of_Z 11) last_round =
    (Throw InvalidScoreAmount, last_round) ∧
  ∃ p, heap last_round !! 1 = Some p ∧
       heap (giveScore "ROOM01" "leo" (Finite (Q2Qc (1 # 2)))
               (giveScore "ROOM01" "leo" (of_Z 7) last_round).2).2 !! 1 =
         Some (set_score
                 (number_add (number_add (score p) (of_Z 7))
                    (Finite (Q2Qc (1 # 2)))) p) ∧
       heap (giveScore "ROOM01" "leo" NaN last_round).2 !! 1 =
         Some (set_score NaN p).
Proof.
  split; [exact last_round_reachable |].
  destruct (giveScore_adds SONGS last_round "ROOM01" "leo" last_round_reachable)
    as [Hbad Hgood].
  split; [apply Hbad; right; reflexivity |].
  eexists.
  assert (E : rooms last_round !! "ROOM01" = Some _) by (vm_compute; reflexivity).
  assert (Hp : heap last_round !! 1 = Some _) by reflexivity.
  split; [exact Hp |]. split.
  - destruct (Hgood _ 1 _ (of_Z 7) E eq_refl Hp eq_refl eq_refl)
      as (_ & _ & _ & _ & Htwice).
    apply Htwice; reflexivity.
  - destruct (Hgood _ 1 _ NaN E eq_refl Hp eq_refl eq_refl)
      as (_ & _ & HNaN & _).
    apply HNaN. reflexivity.
Defined.

Lemma state_moves_along_allowed_witness :
  reachable SONGS playing ∧
  ∃ room room',
    rooms playing !! "ROOM01" = Some room ∧
    rooms (exec SONGS (HandleBuzz "ROOM01" "leo" 3500%Z) playing) !! "ROOM01" =
      Some room' ∧
    state room = ROUND_PLAYING ∧ state room' = ROUND_LOCKED ∧
    allowed (state room) (state room') = true.
Proof.
  split; [exact playing_reachable |]. eexists _, _.
  assert (E : rooms playing !! "ROOM01" = Some _) by (vm_compute; reflexivity).
  assert (E' : rooms (exec SONGS (HandleBuzz "ROOM01" "leo" 3500%Z) playing)
                 !! "ROOM01" = Some _) by (vm_compute; reflexivity).
  split; [exact E |]. split; [exact E' |].
  split; [reflexivity |]. split; [reflexivity |].
  exact (state_moves_along_allowed SONGS playing _ "ROOM01" _ _
           playing_reachable E E').
Defined.

Lemma buzz_open_iff_playing_witness :
  reachable SONGS locked ∧
  ∃ room,
    rooms locked !! "ROOM01" = Some room ∧ state room = ROUND_LOCKED ∧
    (handleBuzz "ROOM01" "ana" 3600%Z locked).1 ≠ Return true.
Proof.
  split; [exact locked_reachable |]. eexists.
  assert (E : rooms locked !! "ROOM01" = Some _) by (vm_compute; reflexivity).
  split; [exact E |]. split; [reflexivity |].
  destruct (buzz_open_iff_playing SONGS locked "ROOM01" _ locked_reachable E)
    as (Hiff & _).
  intros Htrue. apply (Hiff "ana" 3600%Z) in Htrue. discriminate Htrue.
Defined.

Lemma round_bookkeeping_witness :
  reachable SONGS last_round ∧
  ∃ room,
    rooms last_round !! "ROOM01" = Some room ∧
    roundNumber room = 10 ∧ totalRounds room = 10 ∧
    length (songsPlayed room) ≤ roundNumber room.
Proof.
  split; [exact last_round_reachable |]. eexists.
  assert (E : rooms last_round !! "ROOM01" = Some _) by (vm_compute; reflexivity).
  split; [exact E |]. split; [reflexivity |].
  destruct (round_bookkeeping SONGS last_round "ROOM01" _ last_round_reachable E)
    as (Ht & _ & Hlen & _).
  split; [exact Ht | exact Hlen].
Defined.

Lemma failed_call_changes_nothing_witness :
  SONGS ≠ [] ∧
  exec_error SONGS (StartGame "ROOM01") solo = Some InsufficientPlayers ∧
  exec SONGS (StartGame "ROOM01") solo = solo.
Proof.
  split; [exact SONGS_not_empty |].
  assert (E : exec_error SONGS (StartGame "ROOM01") solo = Some InsufficientPlayers)
    by (vm_compute; reflexivity).
  split; [exact E |].
  exact (failed_call_changes_nothing SONGS _ solo _ SONGS_not_empty E).
Defined.

Lemma other_rooms_untouched_witness :
  reachable SONGS two_rooms ∧
  target (RemovePlayer "bia") two_rooms ≠ Some "ROOM01" ∧
  rooms (exec SONGS (RemovePlayer "bia") two_rooms) !! "ROOM01" =
    rooms two_rooms !! "ROOM01" ∧
  getPlayersInRoom "ROOM01" (exec SONGS (RemovePlayer "bia") two_rooms) =
    getPlayersInRoom "ROOM01" two_rooms.
Proof.
  split; [exact two_rooms_reachable |].
  assert (Ht : target (RemovePlayer "bia") two_rooms ≠ Some "ROOM01")
    by (vm_compute; discriminate).
  split; [exact Ht |].
  exact (other_rooms_untouched SONGS two_rooms _ "ROOM01" two_rooms_reachable Ht).
Defined.

Lemma roster_and_host_witness :
  reachable SONGS playing ∧
  ∃ room,
    rooms playing !! "ROOM01" = Some room ∧
    player_id <$> getPlayersInRoom "ROOM01" playing = ["ana"; "leo"] ∧
    isHost "ROOM01" "ana" playing = true.
Proof.
  split; [exact playing_reachable |]. eexists.
  assert (E : rooms playing !! "ROOM01" = Some _) by (vm_compute; reflexivity).
  split; [exact E |].
  destruct (roster_and_host SONGS playing "ROOM01" playing_reachable) as [_ Hfound].
  destruct (Hfound _ E) as (_ & Hids & _ & _ & Hhost & _).
  split; [rewrite Hids; reflexivity |]. apply Hhost. reflexivity.
Defined.

Lemma createRoom_with_code_witness :
  "ROOM02" ≠ "" ∧
  (createRoom "bia" "Bia" (Some "ROOM02") "0.9x1k3p7qq2b" 1%N solo).1 =
    Return "ROOM02" ∧
  createRoom "bia" "Bia" (Some "ROOM01") "0.9x1k3p7qq2b" 1%N solo =
    (Throw RoomAlreadyExists, solo).
Proof.
  assert (H2 : "ROOM02" ≠ "") by discriminate.
  assert (H1 : "ROOM01" ≠ "") by discriminate.
  split; [exact H2 |].
  destruct (createRoom_with_code "bia" "Bia" "ROOM02" "0.9x1k3p7qq2b" 1%N solo H2)
    as [_ Hfresh].
  destruct (createRoom_with_code "bia" "Bia" "ROOM01" "0.9x1k3p7qq2b" 1%N solo H1)
    as [Htaken _].
  split.
  - apply Hfresh. vm_compute. reflexivity.
  - apply Htaken. eexists. vm_compute. reflexivity.
Defined.

Lemma addPlayer_joins_at_end_witness :
  reachable SONGS playing ∧
  ∃ room,
    rooms playing !! "ROOM01" = Some room ∧
    JsMap.get "zoe" (room_players room) = None ∧
    state room = ROUND_PLAYING ∧
    getPlayersInRoom "ROOM01" (addPlayer "zoe" "Zoe" "ROOM01" 5%N playing).2 =
      getPlayersInRoom "ROOM01" playing ++
      [{| player_id := "zoe"; socketId := "zoe"; name := "Zoe"; score := Finite 0;
          avatar := generateAvatar 5%N; roomId := "ROOM01" |}].
Proof.
  split; [exact playing_reachable |]. eexists.
  assert (E : rooms playing !! "ROOM01" = Some _) by (vm_compute; reflexivity).
  split; [exact E |]. split; [reflexivity |]. split; [reflexivity |].
  destruct (addPlayer_joins_at_end SONGS playing "zoe" "Zoe" "ROOM01" 5%N
              playing_reachable) as [_ Hfound].
  destruct (Hfound _ E eq_refl) as (_ & Hroster & _). exact Hroster.
Defined.

Lemma dispatcher_keeps_reachable_witness :
  reachable SONGS playing ∧
  reachable SONGS (dispatch SONGS "leo" (buzz "ROOM01" 3500%Z 3501%Z) true playing).2 ∧
  reachable SONGS
    (dispatch SONGS "ana" (update_score "ROOM01" "leo" NaN) true playing).2 ∧
  reachable SONGS (on_disconnect "leo" playing).2.2 ∧
  reachable SONGS (on_timeout "ROOM01" 5000%Z playing).2.2.
Proof.
  split; [exact playing_reachable |].
  destruct (dispatcher_keeps_reachable SONGS playing playing_reachable)
    as (H1 & H2 & H3).
  split; [apply H1 |]. split; [apply H1 |]. split; [apply H2 | apply H3].
Defined.

Lemma host_requests_guarded_witness :
  host_request (next_round "ROOM01" quiet 5000%Z) =
    Some ("ROOM01", "Only the host can advance to next round") ∧
  (getPlayer "leo" playing = None ∨ isHost "ROOM01" "leo" playing = false) ∧
  dispatch SONGS "leo" (next_round "ROOM01" quiet 5000%Z) true playing =
    ([callback "leo" (failed "Only the host can advance to next round")], playing).
Proof.
  assert (H1 : host_request (next_round "ROOM01" quiet 5000%Z) =
                 Some ("ROOM01", "Only the host can advance to next round"))
    by reflexivity.
  assert (H2 : getPlayer "leo" playing = None ∨ isHost "ROOM01" "leo" playing = false)
    by (right; vm_compute; reflexivity).
  split; [exact H1 |]. split; [exact H2 |].
  rewrite (host_requests_guarded SONGS playing "leo" _ true _ _ H1 H2).
  assert (Hp : getPlayer "leo" playing = Some _) by (vm_compute; reflexivity).
  assert (Hr : getRoom "ROOM01" playing = Some _) by (vm_compute; reflexivity).
  rewrite Hp, Hr. reflexivity.
Defined.

Lemma failed_request_is_silent_witness :
  SONGS ≠ [] ∧ reachable SONGS solo ∧
  caught SONGS "ana" (start_game "ROOM01" quiet 1000%Z) true solo =
    Some "Need at least 2 players to start" ∧
  dispatch SONGS "ana" (start_game "ROOM01" quiet 1000%Z) true solo =
    ([callback "ana" (failed "Need at least 2 players to start")], solo).
Proof.
  split; [exact SONGS_not_empty |]. split; [exact solo_reachable |].
  assert (E : caught SONGS "ana" (start_game "ROOM01" quiet 1000%Z) true solo =
                Some "Need at least 2 players to start")
    by (vm_compute; reflexivity).
  split; [exact E |].
  exact (failed_request_is_silent SONGS solo "ana" _ true _
           SONGS_not_empty solo_reachable E).
Defined.

Lemma start_game_outcome_witness :
  SONGS ≠ [] ∧ reachable SONGS lobby ∧ is_Some (getPlayer "ana" lobby) ∧
  ∃ room room',
    rooms lobby !! "ROOM01" = Some room ∧ hostId room = "ana" ∧
    state room = LOBBY ∧ 2 ≤ JsMap.size (room_players room) ∧
    rooms (dispatch SONGS "ana" (start_game "ROOM01" quiet 1000%Z) true lobby).2
      !! "ROOM01" = Some room' ∧
    state room' = ROUND_LOADING ∧ roundNumber room' = 1.
Proof.
  split; [exact SONGS_not_empty |]. split; [exact lobby_reachable |].
  assert (Hp : is_Some (getPlayer "ana" lobby)) by (eexists; vm_compute; reflexivity).
  split; [exact Hp |].
  assert (E : rooms lobby !! "ROOM01" = Some _) by (vm_compute; reflexivity).
  assert (Hn : 2 ≤ 2) by lia.
  destruct (start_game_outcome SONGS lobby "ana" "ROOM01" quiet 1000%Z true _
              SONGS_not_empty lobby_reachable Hp E eq_refl) as (_ & _ & Hstart).
  destruct (Hstart eq_refl Hn) as (s & _ & Hd & _).
  eexists _, _.
  split; [exact E |]. split; [reflexivity |]. split; [reflexivity |].
  split; [exact Hn |].
  rewrite Hd. cbn [snd]. rewrite lookup_put_room, decide_True by reflexivity.
  split; [reflexivity |]. split; reflexivity.
Defined.


Lemma buzz_request_outcome_witness :
  reachable SONGS playing ∧
  dispatch SONGS "zoe" (buzz "ROOM01" 3500%Z 3501%Z) true playing =
    ([callback "zoe" (failed "Player not found")], playing) ∧
  dispatch SONGS "leo" (buzz "ROOM01" 3600%Z 3601%Z) true locked =
    ([callback "leo" (refused "Round already locked or invalid state")], locked).
Proof.
  split; [exact playing_reachable |].
  destruct (buzz_request_outcome SONGS playing "zoe" "ROOM01" 3500%Z 3501%Z true
              playing_reachable) as [Hunknown _].
  destruct (buzz_request_outcome SONGS locked "leo" "ROOM01" 3600%Z 3601%Z true
              locked_reachable) as [_ Hknown].
  split; [apply Hunknown; vm_compute; reflexivity |].
  assert (Hp : getPlayer "leo" locked = Some _) by (vm_compute; reflexivity).
  assert (E : rooms locked !! "ROOM01" = Some _) by (vm_compute; reflexivity).
  destruct (Hknown _ Hp) as [_ Hroom]. destruct (Hroom _ E) as [Hclosed _].
  apply Hclosed. discriminate.
Defined.

Lemma disconnect_outcome_witness :
  reachable SONGS playing ∧
  on_disconnect "zoe" playing = (None, ([], playing)) ∧
  players playing !! "ana" = Some 0 ∧
  ∃ p room,
    heap playing !! 0 = Some p ∧ rooms playing !! roomId p = Some room ∧
    name p = "Ana" ∧ hostId room = "ana".
Proof.
  split; [exact playing_reachable |].
  destruct (disconnect_outcome SONGS playing "zoe" playing_reachable) as [Hunknown _].
  destruct (disconnect_outcome SONGS playing "ana" playing_reachable) as [_ Hknown].
  split; [apply Hunknown; vm_compute; reflexivity |].
  assert (E : players playing !! "ana" = Some 0) by (vm_compute; reflexivity).
  split; [exact E |].
  destruct (Hknown 0 E) as (p & room & Hp & Hr & _).
  exists p, room. split; [exact Hp |]. split; [exact Hr |].
  assert (Hp' : heap playing !! 0 = Some _) by reflexivity.
  rewrite Hp' in Hp. injection Hp as <-.
  assert (Hr' : rooms playing !! "ROOM01" = Some _) by (vm_compute; reflexivity).
  cbn [roomId] in Hr. rewrite Hr' in Hr. injection Hr as <-.
  split; reflexivity.
Defined.

Lemma next_round_outcome_witness :
  SONGS ≠ [] ∧ reachable SONGS playing ∧ is_Some (getPlayer "ana" playing) ∧
  ∃ room room',
    rooms playing !! "ROOM01" = Some room ∧ hostId room = "ana" ∧
    state room ≠ LOBBY ∧
    rooms (nextRound SONGS "ROOM01" second 5000%Z playing).2 !! "ROOM01" =
      Some room' ∧
    state room' = ROUND_LOADING ∧ roundNumber room' = 2.
Proof.
  split; [exact SONGS_not_empty |]. split; [exact playing_reachable |].
  assert (Hp : is_Some (getPlayer "ana" playing))
    by (eexists; vm_compute; reflexivity).
  split; [exact Hp |].
  assert (E : rooms playing !! "ROOM01" = Some _) by (vm_compute; reflexivity).
  assert (Hs : ROUND_PLAYING ≠ LOBBY) by discriminate.
  destruct (next_round_outcome SONGS playing "ana" "ROOM01" second 5000%Z true _
              SONGS_not_empty playing_reachable Hp E eq_refl) as [_ Hnext].
  destruct (Hnext (or_introl Hs))
    as (room' & E' & [(Hover & _)|(_ & Hst & Hn & _)]).
  - exfalso. cbn in Hover. lia.
  - eexists _, room'.
    split; [exact E |]. split; [reflexivity |]. split; [exact Hs |].
    split; [exact E' |]. split; [exact Hst | exact Hn].
Defined.

Lemma reset_round_outcome_witness :
  SONGS ≠ [] ∧ reachable SONGS playing ∧ is_Some (getPlayer "ana" playing) ∧
  ∃ room,
    rooms playing !! "ROOM01" = Some room ∧ hostId room = "ana" ∧
    state room = ROUND_PLAYING ∧
    (dispatch SONGS "ana" (reset_round "ROOM01" quiet 5000%Z) true playing).2 =
      playing ∧
    setTimeout "ROOM01" 2000 ∈
      (dispatch SONGS "ana" (reset_round "ROOM01" quiet 5000%Z) true playing).1 ∧
    on_timeout "ROOM01" 7000%Z playing =
      (Some "Invalid state transition", ([], playing)).
Proof.
  split; [exact SONGS_not_empty |]. split; [exact playing_reachable |].
  assert (Hp : is_Some (getPlayer "ana" playing))
    by (eexists; vm_compute; reflexivity).
  split; [exact Hp |]. eexists.
  assert (E : rooms playing !! "ROOM01" = Some _) by (vm_compute; reflexivity).
  destruct (reset_round_outcome SONGS playing "ana" "ROOM01" quiet 5000%Z true _
              SONGS_not_empty playing_reachable Hp E eq_refl) as (_ & _ & Hidle).
  destruct (Hidle (or_intror (or_intror eq_refl))) as [Hd Ht].
  split; [exact E |]. split; [reflexivity |]. split; [reflexivity |].
  rewrite Hd. split; [reflexivity |]. split; [left |].
  apply Ht. discriminate.
Defined.

Lemma join_game_outcome_witness :
  reachable SONGS solo ∧
  dispatch SONGS "leo"
    (join_game {| join_name := "Leo"; join_role := RolePlayer; join_roomId := None |}
               "0.9x1k3p7qq2b" 3%N) true solo =
    ([callback "leo" (failed "Room ID is required for players")], solo) ∧
  ∃ room',
    rooms (addPlayer "leo" "Leo" "ROOM01" 3%N solo).2 !! "ROOM01" = Some room' ∧
    hostId room' = "ana" ∧
    (dispatch SONGS "leo"
       (join_game {| join_name := "Leo"; join_role := RoleHost;
                     join_roomId := Some "ROOM01" |} "0.9x1k3p7qq2b" 3%N)
       true solo).2 = (addPlayer "leo" "Leo" "ROOM01" 3%N solo).2.
Proof.
  split; [exact solo_reachable |].
  destruct (join_game_outcome SONGS solo "leo"
              {| join_name := "Leo"; join_role := RolePlayer; join_roomId := None |}
              "0.9x1k3p7qq2b" 3%N true solo_reachable) as (Hnone & _).
  destruct (join_game_outcome SONGS solo "leo"
              {| join_name := "Leo"; join_role := RoleHost;
                 join_roomId := Some "ROOM01" |}
              "0.9x1k3p7qq2b" 3%N true solo_reachable) as (_ & Hjoin & _).
  split; [apply Hnone; reflexivity |].
  assert (E : rooms solo !! "ROOM01" = Some _) by (vm_compute; reflexivity).
  destruct (Hjoin "ROOM01" eq_refl) as [_ Hfound].
  destruct (Hfound _ E) as (room' & p & E' & Hh & _ & _ & _ & Hd).
  exists room'. split; [exact E' |]. split; [exact Hh |].
  cbn [join_name] in Hd. rewrite Hd. reflexivity.
Defined.
